(** * The record/replay harness of oscar/SleepLib/deviceconnection.cpp

    A shallow embedding of the XML record/replay classes ([XmlRecord],
    [XmlReplay], [XmlReplayEvent], [GetAvailablePortsEvent]), of the
    [DeviceConnectionManager], of [SerialPortInfo] and of the [SerialPort]
    setters, followed by the properties the specification states about
    them.

    The Qt classes the code calls ([QString], [QXmlStreamReader],
    [QXmlStreamWriter], [QVariant], [QDateTime], [QSerialPort]) are not
    part of the repository.  They are modelled here after their
    documented behaviour, each at the first place it is needed. *)

From stdpp Require Import base option list strings gmap.
From Stdlib Require Import ZArith Ascii.

(** ** QString and its number conversions *)

(** A [QString] is a [string]; only the characters of the Latin-1 range
    are represented, and the null and the empty string (equal under
    [operator==]) are one value. *)

Definition chars (s : string) : list ascii := String.list_ascii_of_string s.
Definition text (l : list ascii) : string := String.string_of_list_ascii l.

Definition code (c : ascii) : Z := Z.of_N (N_of_ascii c).
Definition char_of (n : Z) : ascii := ascii_of_N (Z.to_N n).

(** The digit alphabet of [QString::number]: ['0'..'9'] then ['a'..'z']. *)
Definition digit_char (d : Z) : ascii :=
  if (d <? 10)%Z then char_of (48 + d) else char_of (87 + d).

(** The value of a digit as [strtoull] reads it, in either letter case. *)
Definition digit_value (c : ascii) : option Z :=
  let n := code c in
  if ((48 <=? n) && (n <=? 57))%Z then Some (n - 48)%Z
  else if ((97 <=? n) && (n <=? 122))%Z then Some (n - 87)%Z
  else if ((65 <=? n) && (n <=? 90))%Z then Some (n - 55)%Z
  else None.

Definition toUpper_char (c : ascii) : ascii :=
  let n := code c in
  if ((97 <=? n) && (n <=? 122))%Z then char_of (n - 32) else c.

(** [QString::toUpper]. *)
Definition toUpper (s : string) : string := text (map toUpper_char (chars s)).

(** The digits of a non-negative [n] in [base], most significant first.
    [fuel] bounds the number of digits. *)
Fixpoint digits (fuel : nat) (base n : Z) : list ascii :=
  match fuel with
  | O => []
  | S fuel' =>
      if (n <? base)%Z then [digit_char n]
      else digits fuel' base (n / base) ++ [digit_char (n mod base)]
  end.

Definition digits_fuel (n : Z) : nat := S (Z.to_nat (Z.log2 n)).

(** [QString::number(n, base)].  Qt prints a sign only in base 10; in any
    other base the argument is read as an unsigned 64-bit integer. *)
Definition QString_number (n : Z) (base : Z) : string :=
  if (base =? 10)%Z then
    if (n <? 0)%Z then text ("-"%char :: digits (digits_fuel (- n)) 10 (- n))
    else text (digits (digits_fuel n) 10 n)
  else
    let u := (n mod 2 ^ 64)%Z in
    text (digits (digits_fuel u) base u).

(** <<static QString hex(int i)>> *)
Definition hex (i : Z) : string :=
  "0x" +:+ toUpper (QString_number i 16).

Definition is_space (c : ascii) : bool :=
  let n := code c in
  ((n =? 32) || ((9 <=? n) && (n <=? 13)))%Z.

Fixpoint skip_space (l : list ascii) : list ascii :=
  match l with
  | c :: l' => if is_space c then skip_space l' else l
  | [] => []
  end.

(** Leading and trailing white space is dropped before a number is read. *)
Definition trimmed (l : list ascii) : list ascii :=
  reverse (skip_space (reverse (skip_space l))).

(** Reads the digits [l] in [base] on top of the value [acc]; fails at
    the first character that is no digit of the base. *)
Fixpoint read_digits (base : Z) (acc : Z) (l : list ascii) : option Z :=
  match l with
  | [] => Some acc
  | c :: l' =>
      match digit_value c with
      | Some d =>
          if (d <? base)%Z then read_digits base (acc * base + d) l'
          else None
      | None => None
      end
  end.

Definition is_x (c : ascii) : bool :=
  ((code c =? 120) || (code c =? 88))%Z.

(** [QString::toUInt(&ok, 0)]: the C convention picks the base (a [0x]
    prefix for 16, a leading [0] for 8, else 10); every character must
    belong to the number, at least one digit is required, a minus sign is
    refused and the value must fit 32 bits.  [None] stands for
    [ok == false]. *)
Definition QString_toUInt (s : string) : option Z :=
  let l := trimmed (chars s) in
  let l := match l with
           | c :: l' => if (code c =? 43)%Z then l' else l
           | [] => l
           end in
  let r := match l with
           | [] => None
           | c0 :: l1 =>
               if (code c0 =? 48)%Z then
                 match l1 with
                 | [] => Some 0%Z
                 | c1 :: l2 =>
                     if is_x c1 then
                       match l2 with
                       | [] => None
                       | _ => read_digits 16 0 l2
                       end
                     else read_digits 8 0 l1
                 end
               else read_digits 10 0 l
           end in
  match r with
  | Some v => if (v <=? 4294967295)%Z then Some v else None
  | None => None
  end.

(** [QString::toInt()] in base 10, with an optional sign. *)
Definition QString_toInt (s : string) : option Z :=
  let l := trimmed (chars s) in
  let '(neg, l) := match l with
                   | c :: l' =>
                       if (code c =? 45)%Z then (true, l')
                       else if (code c =? 43)%Z then (false, l')
                       else (false, l)
                   | [] => (false, l)
                   end in
  match l with
  | [] => None
  | _ =>
      match read_digits 10 0 l with
      | Some v =>
          let v := if neg then (- v)%Z else v in
          if ((-2147483648 <=? v) && (v <=? 2147483647))%Z then Some v
          else None
      | None => None
      end
  end.

(** A value of type [quint16]. *)
Definition is_quint16 (v : Z) : Prop := (0 <= v < 65536)%Z.

(** The conversion of an integer to [quint16]. *)
Definition to_quint16 (v : Z) : Z := (v mod 65536)%Z.

(** ** The XML stream classes of Qt *)

(** [QXmlStreamReader::TokenType], each token with what the reader exposes
    for it: the name and the attributes of a start element, the name of an
    end element, the text of the other tokens. *)
Inductive Token :=
| NoToken
| Invalid
| StartDocument
| EndDocument
| StartElement (name : string) (attributes : list (string * string))
| EndElement (name : string)
| Characters (content : string)
| Comment (content : string)
| DTD (content : string)
| EntityReference (content : string)
| ProcessingInstruction (content : string).

(** A [QXmlStreamReader]: the current token and the tokens still to be
    read.  Reading past the end of the input, or reading an [Invalid]
    token, leaves the reader in the [Invalid] state for good. *)
Record QXmlStreamReader := {
  token : Token;
  input : list Token
}.

Definition QXmlStreamReader_new (document : list Token) : QXmlStreamReader :=
  {| token := NoToken; input := document |}.

Definition invalid_reader : QXmlStreamReader :=
  {| token := Invalid; input := [] |}.

Definition readNext (xml : QXmlStreamReader) : QXmlStreamReader :=
  match token xml with
  | Invalid => invalid_reader
  | _ =>
      match input xml with
      | [] => invalid_reader
      | Invalid :: _ => invalid_reader
      | t :: rest => {| token := t; input := rest |}
      end
  end.

Definition isStartElement (xml : QXmlStreamReader) : bool :=
  match token xml with StartElement _ _ => true | _ => false end.

Definition isEndElement (xml : QXmlStreamReader) : bool :=
  match token xml with EndElement _ => true | _ => false end.

(** [atEnd()] holds once the end of the document is reached or reading
    has been aborted by an error. *)
Definition atEnd (xml : QXmlStreamReader) : bool :=
  match token xml with EndDocument | Invalid => true | _ => false end.

(** [name()]: empty unless at a start or an end element. *)
Definition name_of (xml : QXmlStreamReader) : string :=
  match token xml with
  | StartElement n _ | EndElement n => n
  | _ => EmptyString
  end.

(** [attributes()]: empty unless at a start element. *)
Definition attributes_of (xml : QXmlStreamReader) : list (string * string) :=
  match token xml with
  | StartElement _ a => a
  | _ => []
  end.

(** [QXmlStreamAttributes::hasAttribute]. *)
Definition hasAttribute (a : list (string * string)) (n : string) : bool :=
  existsb (λ kv, bool_decide (kv.1 = n)) a.

(** [QXmlStreamAttributes::value]: the first attribute of that name, the
    empty string when there is none. *)
Fixpoint value (a : list (string * string)) (n : string) : string :=
  match a with
  | [] => EmptyString
  | (k, v) :: a' => if decide (k = n) then v else value a' n
  end.

(** The loop of [readNextStartElement()]:
    <<while (readNext() != Invalid) {
        if (isEndElement() || isEndDocument()) return false;
        else if (isStartElement()) return true; }
      return false;>> *)
Fixpoint readNextStartElement_from (l : list Token) : bool * QXmlStreamReader :=
  match l with
  | [] => (false, invalid_reader)
  | t :: rest =>
      match t with
      | Invalid => (false, invalid_reader)
      | StartElement _ _ => (true, {| token := t; input := rest |})
      | EndElement _ | EndDocument => (false, {| token := t; input := rest |})
      | _ => readNextStartElement_from rest
      end
  end.

Definition readNextStartElement (xml : QXmlStreamReader)
  : bool * QXmlStreamReader :=
  match token xml with
  | Invalid => (false, invalid_reader)
  | _ => readNextStartElement_from (input xml)
  end.

(** The loop of [skipCurrentElement()]:
    <<int depth = 1;
      while (depth && readNext() != Invalid) {
        if (isEndElement()) --depth;
        else if (isStartElement()) ++depth; }>> *)
Fixpoint skipCurrentElement_from (l : list Token) (depth : nat) (cur : Token)
  : QXmlStreamReader :=
  match depth with
  | O => {| token := cur; input := l |}
  | S d =>
      match l with
      | [] => invalid_reader
      | t :: rest =>
          match t with
          | Invalid => invalid_reader
          | EndElement _ => skipCurrentElement_from rest d t
          | StartElement _ _ => skipCurrentElement_from rest (S depth) t
          | _ => skipCurrentElement_from rest depth t
          end
      end
  end.

Definition skipCurrentElement (xml : QXmlStreamReader) : QXmlStreamReader :=
  match token xml with
  | Invalid => invalid_reader
  | t => skipCurrentElement_from (input xml) 1 t
  end.

(** A [QXmlStreamWriter], seen through the tokens a reader gets from the
    text it writes.  [finished] holds the tokens written so far;
    [inStartElement] is the start tag still open for attributes (Qt closes
    it at the next write); [tagStack] names the open elements, innermost
    first.  With [autoFormatting] the writer puts a line break and
    [autoFormattingIndent] blanks per level before a start tag, and before
    an end tag that follows a child element; a reader reports them as
    [Characters]. *)
Record QXmlStreamWriter := {
  finished : list Token;
  inStartElement : option (string * list (string * string));
  tagStack : list string;
  lastWasStartElement : bool;
  autoFormatting : bool;
  autoFormattingIndent : nat
}.

Definition QXmlStreamWriter_new : QXmlStreamWriter :=
  {| finished := []; inStartElement := None; tagStack := [];
     lastWasStartElement := false; autoFormatting := false;
     autoFormattingIndent := 4 |}.

Definition setAutoFormatting (b : bool) (w : QXmlStreamWriter)
  : QXmlStreamWriter :=
  {| finished := finished w; inStartElement := inStartElement w;
     tagStack := tagStack w; lastWasStartElement := lastWasStartElement w;
     autoFormatting := b; autoFormattingIndent := autoFormattingIndent w |}.

Definition setAutoFormattingIndent (n : nat) (w : QXmlStreamWriter)
  : QXmlStreamWriter :=
  {| finished := finished w; inStartElement := inStartElement w;
     tagStack := tagStack w; lastWasStartElement := lastWasStartElement w;
     autoFormatting := autoFormatting w; autoFormattingIndent := n |}.

(** The tokens of the open start tag, if any. *)
Definition start_tag (p : option (string * list (string * string)))
  : list Token :=
  match p with
  | Some (n, a) => [StartElement n a]
  | None => []
  end.

(** The white space of [indent(level)]. *)
Definition indentation (w : QXmlStreamWriter) (level : nat) : list Token :=
  if autoFormatting w
  then [Characters (text ("010"%char :: repeat " "%char
                            (level * autoFormattingIndent w)))]
  else [].

Definition writeStartElement (n : string) (w : QXmlStreamWriter)
  : QXmlStreamWriter :=
  {| finished := finished w ++ start_tag (inStartElement w)
                   ++ indentation w (length (tagStack w));
     inStartElement := Some (n, []);
     tagStack := n :: tagStack w;
     lastWasStartElement := true;
     autoFormatting := autoFormatting w;
     autoFormattingIndent := autoFormattingIndent w |}.

(** [writeAttribute] belongs to the open start tag (Qt asserts there is
    one); without one nothing is written. *)
Definition writeAttribute (k v : string) (w : QXmlStreamWriter)
  : QXmlStreamWriter :=
  match inStartElement w with
  | Some (n, a) =>
      {| finished := finished w;
         inStartElement := Some (n, a ++ [(k, v)]);
         tagStack := tagStack w;
         lastWasStartElement := lastWasStartElement w;
         autoFormatting := autoFormatting w;
         autoFormattingIndent := autoFormattingIndent w |}
  | None => w
  end.

Definition writeEndElement (w : QXmlStreamWriter) : QXmlStreamWriter :=
  match tagStack w with
  | [] => w
  | n :: stack =>
      {| finished := finished w ++ start_tag (inStartElement w)
                       ++ (if lastWasStartElement w then []
                           else indentation w (length stack))
                       ++ [EndElement n];
         inStartElement := None;
         tagStack := stack;
         lastWasStartElement := false;
         autoFormatting := autoFormatting w;
         autoFormattingIndent := autoFormattingIndent w |}
  end.

(** Everything written, the open start tag included. *)
Definition written (w : QXmlStreamWriter) : list Token :=
  finished w ++ start_tag (inStartElement w).

(** The tokens a reader delivers for a document whose content is [body]. *)
Definition document (body : list Token) : list Token :=
  StartDocument :: body ++ [EndDocument].

(** ** Diagnostics *)

(** A line sent to [qWarning()] or [qDebug()], as the list of the values
    streamed into it. *)
Inductive Diagnostic :=
| qWarning (parts : list string)
| qDebug (parts : list string)
| qDebug_xml (element : list Token).

(** ** Effects

    What the code reads from and writes to outside its arguments: the
    clock behind [QDateTime::currentDateTime()] and the output of
    [qWarning()] and [qDebug()].  [ticks] counts the clock readings made
    so far, [diagnostics] is the log in the order written. *)
Record Sys := {
  ticks : nat;
  diagnostics : list Diagnostic
}.

(** A computation: from a state to a result and a new state.  [None] is a
    run that does not complete: a [Q_ASSERT] that fails, or a loop that
    runs out of the fuel given to it. *)
Definition M (A : Type) : Type := Sys → option (A * Sys).

#[global] Instance M_ret : MRet M := λ A a s, Some (a, s).

#[global] Instance M_bind : MBind M := λ A B f m s,
  match m s with
  | Some (a, s') => f a s'
  | None => None
  end.

Definition abort {A : Type} : M A := λ _, None.

Definition emit (d : Diagnostic) : M unit := λ s,
  Some ((), {| ticks := ticks s; diagnostics := diagnostics s ++ [d] |}).

(** One reading of the clock: the number of the reading. *)
Definition tick : M nat := λ s,
  Some (ticks s, {| ticks := S (ticks s); diagnostics := diagnostics s |}).

Definition Q_ASSERT (cond : bool) : M unit :=
  if cond then mret () else abort.

(** The state after the lines [d] are logged, and after [n] readings of
    the clock. *)
Definition log (d : list Diagnostic) (s : Sys) : Sys :=
  {| ticks := ticks s; diagnostics := diagnostics s ++ d |}.

Definition advance (n : nat) (s : Sys) : Sys :=
  {| ticks := n + ticks s; diagnostics := diagnostics s |}.

(** ** Serial port info *)

(** The [QVariant] values the code stores: strings and integers. *)
Inductive QVariant :=
| QVariant_QString (s : string)
| QVariant_int (i : Z).

#[global] Instance QVariant_eq_dec : EqDecision QVariant.
Proof. solve_decision. Defined.

Definition QVariant_toString (v : option QVariant) : string :=
  match v with
  | Some (QVariant_QString s) => s
  | Some (QVariant_int i) => QString_number i 10
  | None => EmptyString
  end.

Definition QVariant_toInt (v : option QVariant) : Z :=
  match v with
  | Some (QVariant_int i) => i
  | Some (QVariant_QString s) => default 0%Z (QString_toInt s)
  | None => 0%Z
  end.

(** What Qt's [QSerialPortInfo] reports about one port. *)
Record QSerialPortInfo := {
  qt_isNull : bool;
  qt_portName : string;
  qt_systemLocation : string;
  qt_description : string;
  qt_manufacturer : string;
  qt_serialNumber : string;
  qt_hasVendorIdentifier : bool;
  qt_vendorIdentifier : Z;
  qt_hasProductIdentifier : bool;
  qt_productIdentifier : Z
}.

(** <<QHash<QString,QVariant> m_info>> *)
Record SerialPortInfo := {
  m_info : gmap string QVariant
}.

(** <<SerialPortInfo::SerialPortInfo()>> *)
Definition SerialPortInfo_new : SerialPortInfo := {| m_info := ∅ |}.

Definition set_info (k : string) (v : QVariant) (info : SerialPortInfo)
  : SerialPortInfo :=
  {| m_info := <[k := v]> (m_info info) |}.

(** <<SerialPortInfo::SerialPortInfo(const QSerialPortInfo & other)>> *)
Definition SerialPortInfo_of (other : QSerialPortInfo) : SerialPortInfo :=
  if qt_isNull other then SerialPortInfo_new
  else
    let i := set_info "portName" (QVariant_QString (qt_portName other))
               SerialPortInfo_new in
    let i := set_info "systemLocation"
               (QVariant_QString (qt_systemLocation other)) i in
    let i := set_info "description"
               (QVariant_QString (qt_description other)) i in
    let i := set_info "manufacturer"
               (QVariant_QString (qt_manufacturer other)) i in
    let i := set_info "serialNumber"
               (QVariant_QString (qt_serialNumber other)) i in
    let i := if qt_hasVendorIdentifier other
             then set_info "vendorIdentifier"
                    (QVariant_int (qt_vendorIdentifier other)) i
             else i in
    if qt_hasProductIdentifier other
    then set_info "productIdentifier"
           (QVariant_int (qt_productIdentifier other)) i
    else i.

(** Modelled from the spec: the accessors of [SerialPortInfo], declared in
    deviceconnection.h, which is not among the sources.  The descriptor is
    an attribute bag; a null descriptor is one whose bag is empty, an
    identifier is present when its key is, and each accessor reads its own
    key. *)
Definition isNull (info : SerialPortInfo) : bool :=
  bool_decide (m_info info = ∅).

Definition portName (info : SerialPortInfo) : string :=
  QVariant_toString (m_info info !! "portName").
Definition systemLocation (info : SerialPortInfo) : string :=
  QVariant_toString (m_info info !! "systemLocation").
Definition description (info : SerialPortInfo) : string :=
  QVariant_toString (m_info info !! "description").
Definition manufacturer (info : SerialPortInfo) : string :=
  QVariant_toString (m_info info !! "manufacturer").
Definition serialNumber (info : SerialPortInfo) : string :=
  QVariant_toString (m_info info !! "serialNumber").

Definition hasVendorIdentifier (info : SerialPortInfo) : bool :=
  bool_decide (is_Some (m_info info !! "vendorIdentifier")).
Definition hasProductIdentifier (info : SerialPortInfo) : bool :=
  bool_decide (is_Some (m_info info !! "productIdentifier")).

Definition vendorIdentifier (info : SerialPortInfo) : Z :=
  to_quint16 (QVariant_toInt (m_info info !! "vendorIdentifier")).
Definition productIdentifier (info : SerialPortInfo) : Z :=
  to_quint16 (QVariant_toInt (m_info info !! "productIdentifier")).

(** <<QXmlStreamWriter & operator<<(QXmlStreamWriter &, const SerialPortInfo &)>> *)
Definition operator_shl_SerialPortInfo (xml : QXmlStreamWriter)
    (info : SerialPortInfo) : QXmlStreamWriter :=
  let xml := writeStartElement "serial" xml in
  let xml :=
    if negb (isNull info) then
      let xml := writeAttribute "portName" (portName info) xml in
      let xml := writeAttribute "systemLocation" (systemLocation info) xml in
      let xml := writeAttribute "description" (description info) xml in
      let xml := writeAttribute "manufacturer" (manufacturer info) xml in
      let xml := writeAttribute "serialNumber" (serialNumber info) xml in
      let xml := if hasVendorIdentifier info
                 then writeAttribute "vendorIdentifier"
                        (hex (vendorIdentifier info)) xml
                 else xml in
      if hasProductIdentifier info
      then writeAttribute "productIdentifier"
             (hex (productIdentifier info)) xml
      else xml
    else xml in
  writeEndElement xml.

(** The body of the loop over [xml.attributes()] in [operator>>]. *)
Definition read_attribute (attribute : string * string)
    (info : SerialPortInfo) : M SerialPortInfo :=
  let name := attribute.1 in
  let value := attribute.2 in
  if bool_decide (name = "vendorIdentifier")
     || bool_decide (name = "productIdentifier") then
    match QString_toUInt value with
    | Some u => mret (set_info name (QVariant_int (to_quint16 u)) info)
    | None => emit (qWarning ["invalid"; name; "value"; value]);; mret info
    end
  else mret (set_info name (QVariant_QString value) info).

Fixpoint read_attributes (attributes : list (string * string))
    (info : SerialPortInfo) : M SerialPortInfo :=
  match attributes with
  | [] => mret info
  | attribute :: rest =>
      info ← read_attribute attribute info;
      read_attributes rest info
  end.

(** <<QXmlStreamReader & operator>>(QXmlStreamReader &, SerialPortInfo &)>> *)
Definition operator_shr_SerialPortInfo (xml : QXmlStreamReader)
    (info : SerialPortInfo) : M (QXmlStreamReader * SerialPortInfo) :=
  info ← (if negb (atEnd xml) && isStartElement xml
             && bool_decide (name_of xml = "serial")
          then read_attributes (attributes_of xml) info
          else emit (qWarning ["no <serial> tag"]);; mret info);
  mret (skipCurrentElement xml, info).

(** <<SerialPortInfo::SerialPortInfo(const QString & data)>>, [data] given
    by the tokens a reader finds in it. *)
Definition SerialPortInfo_of_data (data : list Token) : M SerialPortInfo :=
  let xml := QXmlStreamReader_new data in
  let xml := (readNextStartElement xml).2 in
  r ← operator_shr_SerialPortInfo xml SerialPortInfo_new;
  mret r.2.

(** <<SerialPortInfo::operator QString() const>>, as the tokens of the
    text. *)
Definition SerialPortInfo_to_data (info : SerialPortInfo) : list Token :=
  document (written (operator_shl_SerialPortInfo QXmlStreamWriter_new info)).

(** <<bool SerialPortInfo::operator==(const SerialPortInfo & other) const>> *)
Definition operator_eq_SerialPortInfo (a b : SerialPortInfo) : bool :=
  bool_decide (m_info a = m_info b).

(** ** Lists in the trace *)

(** <<template<typename T> QXmlStreamWriter & operator<<(QXmlStreamWriter &,
    const QList<T> &)>> *)
Definition operator_shl_QList {T : Type}
    (shl : QXmlStreamWriter → T → QXmlStreamWriter)
    (xml : QXmlStreamWriter) (items : list T) : QXmlStreamWriter :=
  fold_left shl items xml.

(** The [while (xml.readNextStartElement())] loop of the list reader. *)
Fixpoint operator_shr_QList_loop {T : Type} (item0 : T)
    (shr : QXmlStreamReader → T → M (QXmlStreamReader * T))
    (fuel : nat) (xml : QXmlStreamReader) (items : list T)
  : M (QXmlStreamReader * list T) :=
  match fuel with
  | O => abort
  | S fuel' =>
      let '(more, xml) := readNextStartElement xml in
      if more then
        '(xml, item) ← shr xml item0;
        operator_shr_QList_loop item0 shr fuel' xml (items ++ [item])
      else mret (xml, items)
  end.

(** <<template<typename T> QXmlStreamReader & operator>>(QXmlStreamReader &,
    QList<T> &)>>: the list is cleared first.  [item0] is the default
    constructed [T]; every round of the loop reads at least one token, so
    the length of the input bounds the rounds. *)
Definition operator_shr_QList {T : Type} (item0 : T)
    (shr : QXmlStreamReader → T → M (QXmlStreamReader * T))
    (xml : QXmlStreamReader) (items : list T)
  : M (QXmlStreamReader * list T) :=
  operator_shr_QList_loop item0 shr (S (length (input xml))) xml [].

(** ** Documents as trees

    A well-formed document is a tree; the reader delivers its tokens in
    document order.  The properties of loading a trace are stated on the
    tree. *)

(** What a document holds besides elements: text, comments, a document
    type declaration, entity references and processing instructions. *)
Inductive Misc :=
| Text (content : string)
| Remark (content : string)
| Doctype (content : string)
| Reference (content : string)
| Instruction (content : string).

(** The token the reader delivers for what is not an element. *)
Definition misc_token (m : Misc) : Token :=
  match m with
  | Text content => Characters content
  | Remark content => Comment content
  | Doctype content => DTD content
  | Reference content => EntityReference content
  | Instruction content => ProcessingInstruction content
  end.

#[warnings="-register-all"]
Inductive Node :=
| Element (name : string) (attributes : list (string * string))
    (children : list Node)
| Other (m : Misc).

Fixpoint tokens (n : Node) : list Token :=
  match n with
  | Element name attributes children =>
      StartElement name attributes
        :: flat_map tokens children ++ [EndElement name]
  | Other m => [misc_token m]
  end.

(** The tokens of a trace document: what precedes the root element, the
    root element and what follows it. *)
Definition trace_document (prolog : list Misc) (root : Node)
    (epilog : list Misc) : list Token :=
  document (map misc_token prolog ++ tokens root ++ map misc_token epilog).

Definition is_element (n : Node) : bool :=
  match n with Element _ _ _ => true | _ => false end.

Definition node_name (n : Node) : string :=
  match n with Element name _ _ => name | _ => EmptyString end.

Definition node_attributes (n : Node) : list (string * string) :=
  match n with Element _ attributes _ => attributes | _ => [] end.

Definition node_children (n : Node) : list Node :=
  match n with Element _ _ children => children | _ => [] end.

(** The child elements among [l], in document order. *)
Definition elements (l : list Node) : list Node := filter is_element l.

Definition named (name : string) (n : Node) : bool :=
  bool_decide (node_name n = name).

(** Induction on a tree, with the property known of every child. *)
Section Node_induction.
Variable P : Node → Prop.
Hypothesis P_element : ∀ name attributes children,
  Forall P children → P (Element name attributes children).
Hypothesis P_other : ∀ m, P (Other m).

Fixpoint Node_induction (n : Node) : P n :=
  match n with
  | Element name attributes children =>
      P_element name attributes children
        ((fix all (l : list Node) : Forall P l :=
            match l with
            | [] => @Stdlib.Lists.List.Forall_nil _ P
            | x :: l' => @Stdlib.Lists.List.Forall_cons _ P x l'
                  (Node_induction x) (all l')
            end) children)
  | Other m => P_other m
  end.
End Node_induction.

(** What [operator>>] stores for one attribute, and what it logs. *)
Definition is_identifier (name : string) : bool :=
  bool_decide (name = "vendorIdentifier")
  || bool_decide (name = "productIdentifier").

Definition store_attribute (info : SerialPortInfo)
    (attribute : string * string) : SerialPortInfo :=
  if is_identifier attribute.1 then
    match QString_toUInt attribute.2 with
    | Some u => set_info attribute.1 (QVariant_int (to_quint16 u)) info
    | None => info
    end
  else set_info attribute.1 (QVariant_QString attribute.2) info.

(** The value an attribute of name [k] and text [v] stands for, if any. *)
Definition attribute_value (k v : string) : option QVariant :=
  if is_identifier k
  then (λ u, QVariant_int (to_quint16 u)) <$> QString_toUInt v
  else Some (QVariant_QString v).

Definition attribute_warning (attribute : string * string)
  : list Diagnostic :=
  if is_identifier attribute.1 then
    match QString_toUInt attribute.2 with
    | Some _ => []
    | None => [qWarning ["invalid"; attribute.1; "value"; attribute.2]]
    end
  else [].

(** The descriptor read from a child element of a port list, and the
    warnings of reading it. *)
Definition serial_info (n : Node) : SerialPortInfo :=
  if named "serial" n
  then fold_left store_attribute (node_attributes n) SerialPortInfo_new
  else SerialPortInfo_new.

Definition serial_warnings (n : Node) : list Diagnostic :=
  if named "serial" n
  then flat_map attribute_warning (node_attributes n)
  else [qWarning ["no <serial> tag"]].

(** The port list read from an event element. *)
Definition ports_of_element (n : Node) : list SerialPortInfo :=
  map serial_info (elements (node_children n)).

Definition ports_warnings (n : Node) : list Diagnostic :=
  flat_map serial_warnings (elements (node_children n)).

(** The event elements a child of the root contributes: its child
    elements if it is an [events] container, none otherwise. *)
Definition container_events (c : Node) : list Node :=
  if named "events" c then elements (node_children c) else [].

(** The event elements of a trace, in document order: the child elements
    of every [events] container under the root [xmlreplay]. *)
Definition trace_events (root : Node) : list Node :=
  if named "xmlreplay" root
  then flat_map container_events (elements (node_children root))
  else [].

(** The warning for an event element whose tag is not registered. *)
Definition unknown_tag_warning (e : Node) : Diagnostic :=
  qWarning ["No event class registered for XML tag"; node_name e].

(** The attributes [operator<<] writes for a descriptor. *)
Definition serial_attributes (info : SerialPortInfo)
  : list (string * string) :=
  if isNull info then []
  else
    [("portName", portName info);
     ("systemLocation", systemLocation info);
     ("description", description info);
     ("manufacturer", manufacturer info);
     ("serialNumber", serialNumber info)]
    ++ (if hasVendorIdentifier info
        then [("vendorIdentifier", hex (vendorIdentifier info))] else [])
    ++ (if hasProductIdentifier info
        then [("productIdentifier", hex (productIdentifier info))] else []).

(** The descriptors the constructor from [QSerialPortInfo] builds: a null
    descriptor, or one with exactly the five text attributes and, each
    optional, a vendor and a product identifier of 16 bits. *)
Definition text_keys : list string :=
  ["portName"; "systemLocation"; "description"; "manufacturer";
   "serialNumber"].

Definition identifier_keys : list string :=
  ["vendorIdentifier"; "productIdentifier"].

Definition is_text (v : option QVariant) : bool :=
  match v with Some (QVariant_QString _) => true | _ => false end.

Definition is_optional_id (v : option QVariant) : bool :=
  match v with
  | None => true
  | Some (QVariant_int i) => ((0 <=? i) && (i <? 65536))%Z
  | Some (QVariant_QString _) => false
  end.

Definition canonical (info : SerialPortInfo) : bool :=
  isNull info
  || (forallb (λ k, is_text (m_info info !! k)) text_keys
      && forallb (λ k, is_optional_id (m_info info !! k)) identifier_keys
      && forallb (λ kv, bool_decide (kv.1 ∈ text_keys ++ identifier_keys))
           (map_to_list (m_info info))).

(** Two port lists are equal element by element under [operator==]. *)
Definition same_ports (a b : list SerialPortInfo) : Prop :=
  Forall2 (λ x y, operator_eq_SerialPortInfo x y = true) a b.

(** The writer [w] once it has closed its start tag and written [added]
    after it. *)
Definition followed_by (w : QXmlStreamWriter) (added : list Token)
  : QXmlStreamWriter :=
  {| finished := written w ++ added;
     inStartElement := None;
     tagStack := tagStack w;
     lastWasStartElement := false;
     autoFormatting := autoFormatting w;
     autoFormattingIndent := autoFormattingIndent w |}.

(** The white space of [indent(level)], as nodes. *)
Definition indentation_nodes (w : QXmlStreamWriter) (level : nat)
  : list Node :=
  if autoFormatting w
  then [Other (Text (text ("010"%char :: repeat " "%char
                               (level * autoFormattingIndent w))))]
  else [].

(** The element [operator<<] writes for a descriptor. *)
Definition serial_node (info : SerialPortInfo) : Node :=
  Element "serial" (serial_attributes info) [].

(** The children of the element written for an event with the port list
    [ports], by a writer [w] with [level] open elements. *)
Definition event_children (w : QXmlStreamWriter) (level : nat)
    (ports : list SerialPortInfo) : list Node :=
  flat_map (λ info, indentation_nodes w (S level) ++ [serial_node info]) ports
  ++ match ports with [] => [] | _ => indentation_nodes w level end.

(** ** Time *)

(** [QDateTime] and the three operations the code uses: the reading of
    the clock ([currentDateTime n] is what the [n]-th call of
    [QDateTime::currentDateTime()] returns), the text written for the
    [time] attribute ([toOffsetFromUtc] followed by
    [toString(Qt::ISODateWithMs)]) and [QDateTime::fromString]. *)
Class QtDateTime := {
  QDateTime : Type;
  currentDateTime : nat → QDateTime;
  toString_ISODateWithMs : QDateTime → string;
  fromString_ISODateWithMs : string → QDateTime
}.

(** ** Serial port connection *)

(** Qt's [QSerialPort], through the operations the setters call.  Each
    setter reports success or failure; [error] is the code of the last
    failure. *)
Class QtSerialPort := {
  QSerialPort : Type;
  port_setBaudRate : Z → Z → QSerialPort → bool * QSerialPort;
  port_setDataBits : Z → QSerialPort → bool * QSerialPort;
  port_setParity : Z → QSerialPort → bool * QSerialPort;
  port_setStopBits : Z → QSerialPort → bool * QSerialPort;
  port_setFlowControl : Z → QSerialPort → bool * QSerialPort;
  port_error : QSerialPort → Z
}.

(** <<class SetValueEvent>> *)
Record SetValueEvent := {
  m_values : gmap string Z;
  m_keys : list string
}.

Definition SetValueEvent_set (name : string) (v : Z) (event : SetValueEvent)
  : SetValueEvent :=
  {| m_values := <[name := v]> (m_values event);
     m_keys := m_keys event ++ [name] |}.

Definition SetValueEvent_new (name : string) (v : Z) : SetValueEvent :=
  SetValueEvent_set name v {| m_values := ∅; m_keys := [] |}.

Definition SetValueEvent_ok (event : SetValueEvent) : bool :=
  negb (bool_decide (is_Some (m_values event !! "error"))).

(** <<QXmlStreamWriter & operator<<(QXmlStreamWriter &, const SetValueEvent &)>> *)
Definition operator_shl_SetValueEvent (xml : QXmlStreamWriter)
    (event : SetValueEvent) : QXmlStreamWriter :=
  let xml := writeStartElement "set" xml in
  let xml :=
    fold_left
      (λ xml key,
         writeAttribute key
           (QString_number (default 0%Z (m_values event !! key)) 10) xml)
      (m_keys event) xml in
  writeEndElement xml.

(** <<SetValueEvent::operator QString() const>>, as the tokens of the
    text. *)
Definition SetValueEvent_to_QString (event : SetValueEvent) : list Token :=
  written (operator_shl_SetValueEvent QXmlStreamWriter_new event).

(** The line a setter sends to [qDebug()] when the port refuses: the
    values of the event in the order set, then the error code. *)
Definition failure_report (values : list (string * Z)) (error : Z)
  : Diagnostic :=
  qDebug_xml
    [StartElement "set"
       (map (λ kv, (kv.1, QString_number kv.2 10))
          (values ++ [("error", error)]));
     EndElement "set"].

Section SerialPort.
Context `{QtSerialPort}.

Record SerialPort := {
  m_port : QSerialPort
}.

(** What the five setters share once the event is named and the port has
    answered: the error is added on failure, the event goes to [qDebug()]
    and [event.ok()] is returned. *)
Definition finish_set (event : SetValueEvent) (answer : bool * QSerialPort)
  : M (bool * SerialPort) :=
  let '(ok, port) := answer in
  let event := if negb ok
               then SetValueEvent_set "error" (port_error port) event
               else event in
  emit (qDebug_xml (SetValueEvent_to_QString event));;
  mret (SetValueEvent_ok event, {| m_port := port |}).

Definition SerialPort_setBaudRate (baudRate directions : Z)
    (this : SerialPort) : M (bool * SerialPort) :=
  let event := SetValueEvent_new "baudRate" baudRate in
  let event := SetValueEvent_set "directions" directions event in
  finish_set event (port_setBaudRate baudRate directions (m_port this)).

Definition SerialPort_setDataBits (dataBits : Z) (this : SerialPort)
  : M (bool * SerialPort) :=
  let event := SetValueEvent_new "setDataBits" dataBits in
  finish_set event (port_setDataBits dataBits (m_port this)).

Definition SerialPort_setParity (parity : Z) (this : SerialPort)
  : M (bool * SerialPort) :=
  let event := SetValueEvent_new "setParity" parity in
  finish_set event (port_setParity parity (m_port this)).

Definition SerialPort_setStopBits (stopBits : Z) (this : SerialPort)
  : M (bool * SerialPort) :=
  let event := SetValueEvent_new "setStopBits" stopBits in
  finish_set event (port_setStopBits stopBits (m_port this)).

Definition SerialPort_setFlowControl (flowControl : Z) (this : SerialPort)
  : M (bool * SerialPort) :=
  let event := SetValueEvent_new "setFlowControl" flowControl in
  finish_set event (port_setFlowControl flowControl (m_port this)).

End SerialPort.

(** A port on which every setter fails and reports the error [code]. *)
Definition failing_port (code : Z) : QtSerialPort :=
  {| QSerialPort := unit;
     port_setBaudRate := λ _ _ p, (false, p);
     port_setDataBits := λ _ p, (false, p);
     port_setParity := λ _ p, (false, p);
     port_setStopBits := λ _ p, (false, p);
     port_setFlowControl := λ _ p, (false, p);
     port_error := λ _, code |}.

(** ** Replay events, the recorder and the replay store *)

Section Replay.
Context `{QtDateTime}.

(** [XmlReplayEvent] is abstract; [GetAvailablePortsEvent] is its one
    concrete class, so an event is a [GetAvailablePortsEvent]: the
    [m_time] of the base class and the [m_ports] of the derived one. *)
Record XmlReplayEvent := GetAvailablePortsEvent {
  m_time : QDateTime;
  m_ports : list SerialPortInfo
}.

(** <<REGISTER_XMLREPLAYEVENT("getAvailablePorts", GetAvailablePortsEvent)>>
    sets [XmlReplayBase<GetAvailablePortsEvent>::TAG]. *)
Definition TAG : string := "getAvailablePorts".

(** <<virtual const QString & tag() const { return TAG; }>> *)
Definition tag (event : XmlReplayEvent) : string := TAG.

(** <<XmlReplayEvent::XmlReplayEvent() : m_time(QDateTime::currentDateTime())>>,
    run by the constructor of [GetAvailablePortsEvent]. *)
Definition GetAvailablePortsEvent_new : M XmlReplayEvent :=
  n ← tick;
  mret {| m_time := currentDateTime n; m_ports := [] |}.

(** The type [FactoryMethod]: a pointer to a function without arguments
    that returns a new event; [None] is [nullptr]. *)
Definition FactoryMethod : Type := option (M XmlReplayEvent).

(** <<XmlReplayBase<Derived>::createInstance()>> *)
Definition XmlReplayBase_createInstance : M XmlReplayEvent :=
  GetAvailablePortsEvent_new.

(** <<bool XmlReplayEvent::registerClass(const QString & tag, FactoryMethod factory)>>
    on the registry [s_factories]. *)
Definition XmlReplayEvent_registerClass (tag : string)
    (factory : FactoryMethod) (s_factories : gmap string FactoryMethod)
  : M (bool * gmap string FactoryMethod) :=
  if bool_decide (is_Some (s_factories !! tag)) then
    emit (qWarning ["Event class already registered for tag"; tag]);;
    mret (false, s_factories)
  else mret (true, <[tag := factory]> s_factories).

(** <<XmlReplayEvent* XmlReplayEvent::createInstance(const QString & tag)>>;
    [QHash::value] gives [nullptr] for a tag that is not a key. *)
Definition XmlReplayEvent_createInstance (tag : string)
    (s_factories : gmap string FactoryMethod) : M (option XmlReplayEvent) :=
  let factory := default None (s_factories !! tag) in
  match factory with
  | None =>
      emit (qWarning ["No event class registered for XML tag"; tag]);;
      mret None
  | Some f => event ← f; mret (Some event)
  end.

(** The registry once the static initialisers have run: the one
    [REGISTER_XMLREPLAYEVENT] of the program. *)
Definition static_initialisation : M (bool * gmap string FactoryMethod) :=
  XmlReplayEvent_registerClass TAG (Some XmlReplayBase_createInstance) ∅.

Definition registered_classes : gmap string FactoryMethod :=
  {[ TAG := Some XmlReplayBase_createInstance ]}.

(** <<GetAvailablePortsEvent::write>> *)
Definition GetAvailablePortsEvent_write (xml : QXmlStreamWriter)
    (event : XmlReplayEvent) : QXmlStreamWriter :=
  operator_shl_QList operator_shl_SerialPortInfo xml (m_ports event).

(** <<GetAvailablePortsEvent::read>> *)
Definition GetAvailablePortsEvent_read (xml : QXmlStreamReader)
    (event : XmlReplayEvent) : M (QXmlStreamReader * XmlReplayEvent) :=
  '(xml, ports) ← operator_shr_QList SerialPortInfo_new
                    operator_shr_SerialPortInfo xml (m_ports event);
  mret (xml, {| m_time := m_time event; m_ports := ports |}).

(** <<QXmlStreamWriter & operator<<(QXmlStreamWriter &, const XmlReplayEvent &)>> *)
Definition operator_shl_XmlReplayEvent (xml : QXmlStreamWriter)
    (event : XmlReplayEvent) : QXmlStreamWriter :=
  let timestamp := toString_ISODateWithMs (m_time event) in
  let xml := writeStartElement (tag event) xml in
  let xml := writeAttribute "time" timestamp xml in
  let xml := GetAvailablePortsEvent_write xml event in
  writeEndElement xml.

(** <<QXmlStreamReader & operator>>(QXmlStreamReader &, XmlReplayEvent &)>>.
    The local [time] is computed and the function ends without storing
    it. *)
Definition operator_shr_XmlReplayEvent (xml : QXmlStreamReader)
    (event : XmlReplayEvent) : M (QXmlStreamReader * XmlReplayEvent) :=
  Q_ASSERT (isStartElement xml && bool_decide (name_of xml = tag event));;
  time ← (if hasAttribute (attributes_of xml) "time"
          then mret (fromString_ISODateWithMs
                       (value (attributes_of xml) "time"))
          else
            emit (qWarning ["Missing timestamp in"; name_of xml;
                            "tag, using current time"]);;
            n ← tick;
            mret (currentDateTime n));
  GetAvailablePortsEvent_read xml event.

(** <<class XmlRecord>>: the writer over the sink. *)
Record XmlRecord := {
  m_xml : QXmlStreamWriter
}.

(** <<void XmlRecord::prologue()>> *)
Definition XmlRecord_prologue (xml : QXmlStreamWriter) : QXmlStreamWriter :=
  let xml := setAutoFormatting true xml in
  let xml := setAutoFormattingIndent 2 xml in
  let xml := writeStartElement "xmlreplay" xml in
  writeStartElement "events" xml.

(** <<void XmlRecord::epilogue()>> *)
Definition XmlRecord_epilogue (xml : QXmlStreamWriter) : QXmlStreamWriter :=
  let xml := writeEndElement xml in
  writeEndElement xml.

(** <<XmlRecord::XmlRecord(...)>>, on an empty sink. *)
Definition XmlRecord_new : XmlRecord :=
  {| m_xml := XmlRecord_prologue QXmlStreamWriter_new |}.

(** <<XmlRecord::~XmlRecord()>>: what the sink holds in the end. *)
Definition XmlRecord_delete (this : XmlRecord) : list Token :=
  written (XmlRecord_epilogue (m_xml this)).

(** <<void XmlReplayEvent::record(XmlRecord* writer)>> *)
Definition XmlReplayEvent_record (event : XmlReplayEvent)
    (writer : option XmlRecord) : option XmlRecord :=
  match writer with
  | Some w => Some {| m_xml := operator_shl_XmlReplayEvent (m_xml w) event |}
  | None => None
  end.

(** <<class XmlReplay>> *)
Record XmlReplay := {
  m_events : gmap string (list XmlReplayEvent);
  m_indices : gmap string Z
}.

(** The loop of [XmlReplay::deserializeEvents]. *)
Fixpoint deserializeEvents_loop (s_factories : gmap string FactoryMethod)
    (fuel : nat) (xml : QXmlStreamReader) (this : XmlReplay)
  : M (QXmlStreamReader * XmlReplay) :=
  match fuel with
  | O => abort
  | S fuel' =>
      let '(more, xml) := readNextStartElement xml in
      if more then
        let name := name_of xml in
        event ← XmlReplayEvent_createInstance name s_factories;
        match event with
        | Some event =>
            '(xml, event) ← operator_shr_XmlReplayEvent xml event;
            let events := default [] (m_events this !! name) in
            deserializeEvents_loop s_factories fuel' xml
              {| m_events := <[name := events ++ [event]]> (m_events this);
                 m_indices := m_indices this |}
        | None =>
            deserializeEvents_loop s_factories fuel' (skipCurrentElement xml)
              this
        end
      else mret (xml, this)
  end.

(** <<void XmlReplay::deserializeEvents(QXmlStreamReader & xml)>> *)
Definition XmlReplay_deserializeEvents
    (s_factories : gmap string FactoryMethod)
    (xml : QXmlStreamReader) (this : XmlReplay)
  : M (QXmlStreamReader * XmlReplay) :=
  deserializeEvents_loop s_factories (S (length (input xml))) xml this.

(** The inner loop of [XmlReplay::deserialize], over the children of the
    root. *)
Fixpoint deserialize_loop (s_factories : gmap string FactoryMethod)
    (fuel : nat) (xml : QXmlStreamReader) (this : XmlReplay)
  : M (QXmlStreamReader * XmlReplay) :=
  match fuel with
  | O => abort
  | S fuel' =>
      let '(more, xml) := readNextStartElement xml in
      if more then
        if bool_decide (name_of xml = "events") then
          '(xml, this) ← XmlReplay_deserializeEvents s_factories xml this;
          deserialize_loop s_factories fuel' xml this
        else
          emit (qWarning ["unexpected payload in replay XML:"; name_of xml]);;
          deserialize_loop s_factories fuel' (skipCurrentElement xml) this
      else mret (xml, this)
  end.

(** <<void XmlReplay::deserialize(QXmlStreamReader & xml)>> *)
Definition XmlReplay_deserialize (s_factories : gmap string FactoryMethod)
    (xml : QXmlStreamReader) (this : XmlReplay)
  : M (QXmlStreamReader * XmlReplay) :=
  let '(more, xml) := readNextStartElement xml in
  if more then
    if bool_decide (name_of xml = "xmlreplay") then
      deserialize_loop s_factories (S (length (input xml))) xml this
    else mret (xml, this)
  else mret (xml, this).

(** <<XmlReplay::XmlReplay(QXmlStreamReader & xml)>> and
    <<XmlReplay::XmlReplay(QFile* file)>>, the source given by its
    tokens. *)
Definition XmlReplay_new (s_factories : gmap string FactoryMethod)
    (source : list Token) : M XmlReplay :=
  r ← XmlReplay_deserialize s_factories (QXmlStreamReader_new source)
        {| m_events := ∅; m_indices := ∅ |};
  mret r.2.

(** <<XmlReplayEvent* XmlReplay::getNextEvent(const QString & type)>>.
    [m_indices[type]] creates the entry, with value 0, when the key is
    new.  Indices are never negative, so [events[i]] is the [i]-th
    event. *)
Definition XmlReplay_getNextEvent (type : string) (this : XmlReplay)
  : option XmlReplayEvent * XmlReplay :=
  match m_events this !! type with
  | Some events =>
      let i := default 0%Z (m_indices this !! type) in
      let indices := <[type := i]> (m_indices this) in
      if (i <? Z.of_nat (length events))%Z then
        (events !! Z.to_nat i,
         {| m_events := m_events this;
            m_indices := <[type := (i + 1)%Z]> indices |})
      else (None, {| m_events := m_events this; m_indices := indices |})
  | None => (None, this)
  end.

(** <<template<class T> T* XmlReplay::getNextEvent()>> at
    [T = GetAvailablePortsEvent]; every event is of that class, so the
    [dynamic_cast] keeps the pointer. *)
Definition XmlReplay_getNextEvent_T (this : XmlReplay)
  : option XmlReplayEvent * XmlReplay :=
  XmlReplay_getNextEvent TAG this.

(** ** Device connection manager *)

Record DeviceConnectionManager := {
  m_record : option XmlRecord;
  m_replay : option XmlReplay;
  m_serialPorts : list SerialPortInfo
}.

(** <<DeviceConnectionManager::DeviceConnectionManager()>> *)
Definition DeviceConnectionManager_new : DeviceConnectionManager :=
  {| m_record := None; m_replay := None; m_serialPorts := [] |}.

(** Modelled from the spec: [DeviceConnectionManager::reset()], declared in
    deviceconnection.h, which is not among the sources.  Switching the
    replay source resets the cached state derived from prior replay: the
    most recently returned port list. *)
Definition DeviceConnectionManager_reset (this : DeviceConnectionManager)
  : DeviceConnectionManager :=
  {| m_record := m_record this; m_replay := m_replay this;
     m_serialPorts := [] |}.

(** <<void DeviceConnectionManager::record(QFile* stream)>>; [stream] tells
    whether a file is given.  The result comes with what the previous
    recording, if any, leaves in its sink. *)
Definition DeviceConnectionManager_record_file (stream : bool)
    (this : DeviceConnectionManager)
  : option (list Token) * DeviceConnectionManager :=
  (XmlRecord_delete <$> m_record this,
   {| m_record := if stream then Some XmlRecord_new else None;
      m_replay := m_replay this;
      m_serialPorts := m_serialPorts this |}).

(** <<void DeviceConnectionManager::record(QString & string)>> *)
Definition DeviceConnectionManager_record_string
    (this : DeviceConnectionManager)
  : option (list Token) * DeviceConnectionManager :=
  (XmlRecord_delete <$> m_record this,
   {| m_record := Some XmlRecord_new;
      m_replay := m_replay this;
      m_serialPorts := m_serialPorts this |}).

(** <<void DeviceConnectionManager::replay(const QString & string)>> *)
Definition DeviceConnectionManager_replay_string
    (s_factories : gmap string FactoryMethod) (string : list Token)
    (this : DeviceConnectionManager) : M DeviceConnectionManager :=
  let this := DeviceConnectionManager_reset this in
  replay ← XmlReplay_new s_factories string;
  mret {| m_record := m_record this; m_replay := Some replay;
          m_serialPorts := m_serialPorts this |}.

(** <<void DeviceConnectionManager::replay(QFile* file)>>; [None] is
    [nullptr]. *)
Definition DeviceConnectionManager_replay_file
    (s_factories : gmap string FactoryMethod) (file : option (list Token))
    (this : DeviceConnectionManager) : M DeviceConnectionManager :=
  let this := DeviceConnectionManager_reset this in
  match file with
  | Some source =>
      replay ← XmlReplay_new s_factories source;
      mret {| m_record := m_record this; m_replay := Some replay;
              m_serialPorts := m_serialPorts this |}
  | None =>
      mret {| m_record := m_record this; m_replay := None;
              m_serialPorts := m_serialPorts this |}
  end.

(** <<QList<SerialPortInfo> DeviceConnectionManager::getAvailablePorts()>>.
    [availablePorts] is what [QSerialPortInfo::availablePorts()] returns
    if it is called. *)
Definition DeviceConnectionManager_getAvailablePorts
    (availablePorts : list QSerialPortInfo) (this : DeviceConnectionManager)
  : M (list SerialPortInfo * DeviceConnectionManager) :=
  event ← GetAvailablePortsEvent_new;
  let '(ports, replay) :=
    match m_replay this with
    | None => (m_ports event ++ map SerialPortInfo_of availablePorts, None)
    | Some replay =>
        let '(replayEvent, replay) := XmlReplay_getNextEvent_T replay in
        match replayEvent with
        | Some replayEvent => (m_ports replayEvent, Some replay)
        | None => (m_serialPorts this, Some replay)
        end
    end in
  let event := {| m_time := m_time event; m_ports := ports |} in
  mret (m_ports event,
        {| m_record := XmlReplayEvent_record event (m_record this);
           m_replay := replay;
           m_serialPorts := m_ports event |}).

(** A series of calls of [getAvailablePorts()], one per element of
    [enumerations]. *)
Fixpoint getAvailablePorts_calls (enumerations : list (list QSerialPortInfo))
    (this : DeviceConnectionManager)
  : M (list (list SerialPortInfo) * DeviceConnectionManager) :=
  match enumerations with
  | [] => mret ([], this)
  | availablePorts :: rest =>
      '(ports, this) ← DeviceConnectionManager_getAvailablePorts
                         availablePorts this;
      '(results, this) ← getAvailablePorts_calls rest this;
      mret (ports :: results, this)
  end.

(** A series of calls of [getNextEvent(type)]. *)
Fixpoint getNextEvent_calls (n : nat) (type : string) (this : XmlReplay)
  : list (option XmlReplayEvent) * XmlReplay :=
  match n with
  | O => ([], this)
  | S n' =>
      let '(event, this) := XmlReplay_getNextEvent type this in
      let '(events, this) := getNextEvent_calls n' type this in
      (event :: events, this)
  end.

(** The cursor of a tag: its index, 0 while [m_indices] has no entry. *)
Definition cursor (type : string) (this : XmlReplay) : Z :=
  default 0%Z (m_indices this !! type).

(** *** Loading a trace, on the tree

    What loading does for each node of a trace under the registered
    classes, as a function of the tree: the store and the state it
    leaves. *)

Definition append_event (name : string) (event : XmlReplayEvent)
    (this : XmlReplay) : XmlReplay :=
  {| m_events := <[name := default [] (m_events this !! name) ++ [event]]>
                   (m_events this);
     m_indices := m_indices this |}.

Definition load_event (st : XmlReplay * Sys) (e : Node) : XmlReplay * Sys :=
  let '(this, s) := st in
  if named TAG e then
    let event := {| m_time := currentDateTime (ticks s);
                    m_ports := ports_of_element e |} in
    let s := advance 1 s in
    let s := if hasAttribute (node_attributes e) "time" then s
             else advance 1
                    (log [qWarning ["Missing timestamp in"; node_name e;
                                    "tag, using current time"]] s) in
    (append_event (node_name e) event this, log (ports_warnings e) s)
  else
    (this, log [qWarning ["No event class registered for XML tag";
                          node_name e]] s).

Definition load_container (st : XmlReplay * Sys) (c : Node)
  : XmlReplay * Sys :=
  if named "events" c
  then fold_left load_event (elements (node_children c)) st
  else (st.1, log [qWarning ["unexpected payload in replay XML:";
                             node_name c]] st.2).

Definition load_root (st : XmlReplay * Sys) (root : Node) : XmlReplay * Sys :=
  if named "xmlreplay" root
  then fold_left load_container (elements (node_children root)) st
  else st.

(** The list [getAvailablePorts()] returns at call [j] of a replay whose
    trace stores the lists [stored]: the [j]-th list while the trace
    lasts, from then on the last list, the empty list if there is none. *)
Definition replayed (stored : list (list SerialPortInfo)) (j : nat)
  : list SerialPortInfo :=
  match stored !! j with
  | Some ports => ports
  | None => default [] (last stored)
  end.

(** *** The process

    The manager is a singleton ([DeviceConnectionManager::getInstance()]);
    a process holds it next to the clock and the log. *)
Record Process := {
  instance : DeviceConnectionManager;
  state : Sys
}.

(** Code that runs without reaching the singleton. *)
Definition in_process {A : Type} (m : M A) (p : Process)
  : option (A * Process) :=
  match m (state p) with
  | Some (a, s) => Some (a, {| instance := instance p; state := s |})
  | None => None
  end.

(** <<QList<SerialPortInfo> SerialPortInfo::availablePorts()>> *)
Definition SerialPortInfo_availablePorts
    (availablePorts : list QSerialPortInfo) (p : Process)
  : option (list SerialPortInfo * Process) :=
  match DeviceConnectionManager_getAvailablePorts availablePorts
          (instance p) (state p) with
  | Some ((ports, this), s) =>
      Some (ports, {| instance := this; state := s |})
  | None => None
  end.

(** The tokens of the trace being recorded, if any. *)
Definition recorded_trace (p : Process) : list Token :=
  match m_record (instance p) with
  | Some r => written (m_xml r)
  | None => []
  end.

(** The port lists the store holds for [getAvailablePorts], in order. *)
Definition stored_ports (this : XmlReplay) : list (list SerialPortInfo) :=
  map m_ports (default [] (m_events this !! TAG)).

(** One event written and read back: the tokens [operator<<] adds to the
    writer [w], followed by [rest], are read as the caller of
    [operator>>] does, into the new event [fresh]. *)
Definition read_back (w : QXmlStreamWriter) (event fresh : XmlReplayEvent)
    (rest : list Token) : M (QXmlStreamReader * XmlReplayEvent) :=
  let added := drop (length (written w))
                 (written (operator_shl_XmlReplayEvent w event)) in
  let xml := {| token := NoToken; input := added ++ rest |} in
  let '(more, xml) := readNextStartElement xml in
  if more then operator_shr_XmlReplayEvent xml fresh else abort.

(** The element [operator<<] writes for an event, by a writer [w] with
    [level] open elements. *)
Definition event_node (w : QXmlStreamWriter) (level : nat)
    (event : XmlReplayEvent) : Node :=
  Element TAG [("time", toString_ISODateWithMs (m_time event))]
    (event_children w level (m_ports event)).

(** The tree of a trace that holds one event, as [XmlRecord] writes it. *)
Definition recorded_tree (event : XmlReplayEvent) : Node :=
  let w := m_xml XmlRecord_new in
  Element "xmlreplay" []
    (indentation_nodes w 1
     ++ [Element "events" []
           (indentation_nodes w 2 ++ [event_node w 2 event]
            ++ indentation_nodes w 1)]
     ++ indentation_nodes w 0).

(** The cursor after one more call, for a sequence of [n] events. *)
Definition advanced (c n : nat) : nat := if c <? n then S c else c.

(** The list a replaying manager returns at call [j] from now on, when the
    store holds [stored], its cursor is at [c] and the cache is [cache]. *)
Definition replayed_from (stored : list (list SerialPortInfo)) (c : nat)
    (cache : list SerialPortInfo) (j : nat) : list SerialPortInfo :=
  match stored !! (c + j) with
  | Some ports => ports
  | None => default cache (last (drop c stored))
  end.

(** What loading the event elements [added] keeps and adds: the port
    lists of the elements with the registered tag are appended in order,
    the other tags and the cursors are untouched, and the log gains a
    warning for each element with another tag. *)
Record grows (added : list Node) (st st' : XmlReplay * Sys) : Prop := {
  grows_ports :
    stored_ports st'.1
    = stored_ports st.1 ++ map ports_of_element (filter (named TAG) added);
  grows_other : ∀ t, t ≠ TAG → m_events st'.1 !! t = m_events st.1 !! t;
  grows_indices : m_indices st'.1 = m_indices st.1;
  grows_log : ∃ d, diagnostics st'.2 = diagnostics st.2 ++ d
                   ∧ ∀ e, e ∈ added → named TAG e = false →
                          unknown_tag_warning e ∈ d
}.

(** The trace being recorded holds a [set] element. *)
Definition set_element_recorded (p : Process) : Prop :=
  ∃ attributes, StartElement "set" attributes ∈ recorded_trace p.

End Replay.

(** The outcome [run] of a setter in the process [p] is a failure that is
    logged and not recorded: [false] is returned, the log gains the report
    of [values] and of the error of the port, and the manager, with the
    trace it records, is as before. *)
Definition fails_unrecorded `{QtDateTime} `{QtSerialPort}
    (run : option (bool * SerialPort * Process)) (p : Process)
    (values : list (string * Z)) (port : QSerialPort) : Prop :=
  ∃ p', run = Some ((false, {| m_port := port |}), p')
        ∧ diagnostics (state p')
          = diagnostics (state p) ++ [failure_report values (port_error port)]
        ∧ instance p' = instance p
        ∧ recorded_trace p' = recorded_trace p.

(** Time kept as its ISO 8601 text: formatting and parsing are the
    identity, and the clock shows one millisecond more at each reading. *)
Definition millisecond (n : nat) : string :=
  "2020-06-01T12:00:00." +:+ QString_number (Z.of_nat (100 + n)) 10
    +:+ "+00:00".

Definition text_time : QtDateTime :=
  {| QDateTime := string;
     currentDateTime := millisecond;
     toString_ISODateWithMs := λ t, t;
     fromString_ISODateWithMs := λ t, t |}.

(** ** Sample data *)

Definition start_state : Sys := {| ticks := 0; diagnostics := [] |}.

(** A descriptor as read from <<<serial portName="ttyUSB0"/>>>. *)
Definition partial_port : SerialPortInfo :=
  set_info "portName" (QVariant_QString "ttyUSB0") SerialPortInfo_new.

Definition one_port : QSerialPortInfo :=
  {| qt_isNull := false; qt_portName := "COM3";
     qt_systemLocation := "\\.\COM3"; qt_description := "USB Serial Port";
     qt_manufacturer := "FTDI"; qt_serialNumber := "A1";
     qt_hasVendorIdentifier := true; qt_vendorIdentifier := 1027;
     qt_hasProductIdentifier := true; qt_productIdentifier := 24577 |}.

Definition sample_event (n : nat) (ports : list SerialPortInfo)
  : @XmlReplayEvent text_time :=
  @GetAvailablePortsEvent text_time (millisecond n) ports.

Definition sample_store : @XmlReplay text_time :=
  @Build_XmlReplay text_time
    {[ TAG := [sample_event 0 [partial_port]; sample_event 1 []] ]} ∅.

Definition replaying_manager : @DeviceConnectionManager text_time :=
  @Build_DeviceConnectionManager text_time None (Some sample_store) [].

(** The element <<<getAvailablePorts time="2019-03-04T05:06:07.089+00:00"/>>>
    under the reader. *)
Definition stamped_element : QXmlStreamReader :=
  {| token := StartElement TAG [("time", "2019-03-04T05:06:07.089+00:00")];
     input := [EndElement TAG] |}.

(** What [deserializeEvents] does for that element: the event is created
    by the registry, then read. *)
Definition deserialize_stamped
  : option (QXmlStreamReader * @XmlReplayEvent text_time * Sys) :=
  (event ← @XmlReplayEvent_createInstance text_time TAG registered_classes;
   match event with
   | Some event => operator_shr_XmlReplayEvent stamped_element event
   | None => abort
   end) start_state.

(** The attributes of a [serial] element of a trace written elsewhere:
    the five text attributes and one more. *)
Definition foreign_attributes : list (string * string) :=
  [("portName", "ttyUSB0"); ("systemLocation", "/dev/ttyUSB0");
   ("description", "FT232R USB UART"); ("manufacturer", "FTDI");
   ("serialNumber", "A50285BI"); ("interface", "0")].

(** The descriptor [operator>>] reads from that element. *)
Definition foreign_port : SerialPortInfo :=
  fold_left store_attribute foreign_attributes SerialPortInfo_new.

(** An event holding [foreign_port], written by a new writer and read
    back. *)
Definition foreign_read_back
  : option (QXmlStreamReader * @XmlReplayEvent text_time * Sys) :=
  read_back QXmlStreamWriter_new (sample_event 0 [foreign_port])
    (sample_event 1 []) [] start_state.

(** A process that records, and a setter that fails in it. *)
Definition recording_process : @Process text_time :=
  {| instance :=
       (@DeviceConnectionManager_record_string text_time
          DeviceConnectionManager_new).2;
     state := start_state |}.

Definition failed_setBaudRate
  : option (bool * @SerialPort (failing_port 1) * @Process text_time) :=
  in_process
    (@SerialPort_setBaudRate (failing_port 1) 9600 3
       (@Build_SerialPort (failing_port 1) ()))
    recording_process.

(** A trace with an element of an unknown tag between two port lists. *)
Definition mixed_trace : Node :=
  Element "xmlreplay" []
    [Element "events" []
       [Element TAG [("time", "2020-06-01T12:00:00.000+00:00")]
          [Element "serial" [("portName", "ttyUSB0")] []];
        Element "openPort" [] [Element "serial" [] []];
        Element TAG [("time", "2020-06-01T12:00:01.000+00:00")] []]].

Definition bad_vendor_attributes : list (string * string) :=
  [("portName", "ttyACM0"); ("vendorIdentifier", "0xZZ");
   ("productIdentifier", "0x6001")].

(** An event as the live path builds it: one port and a null
    descriptor. *)
Definition live_event : @XmlReplayEvent text_time :=
  sample_event 0 [SerialPortInfo_of one_port; SerialPortInfo_new].

(** The scenario of the specification: a list of two ports is recorded
    from a live call, the trace is closed and replayed, and the first
    replayed call returns the same list. *)
Definition sample_scenario
  : option (list SerialPortInfo * list SerialPortInfo) :=
  let recording :=
    (@DeviceConnectionManager_record_string text_time
       DeviceConnectionManager_new).2 in
  match DeviceConnectionManager_getAvailablePorts
          [one_port; one_port] recording start_state with
  | Some ((live, recording), s) =>
      match (DeviceConnectionManager_record_file false recording).1 with
      | Some trace =>
          match DeviceConnectionManager_replay_string registered_classes
                  (document trace) recording s with
          | Some (replaying, s) =>
              match DeviceConnectionManager_getAvailablePorts [] replaying s
              with
              | Some ((replayed, _), _) => Some (live, replayed)
              | None => None
              end
          | None => None
          end
      | None => None
      end
  | None => None
  end.

(** ** Series of calls, reports and recordings

    What the properties of the second part are stated with: series of
    calls, the lines of the log, what loading keeps, and the tree of a
    recording. *)

(** The value [m_values] holds for [name] after the calls [calls] of
    [set], in the order made: that of the last call with this name, and
    what [QHash::operator[]] gives for a missing key if there is none. *)
Definition last_set (name : string) (calls : list (string * Z)) : Z :=
  default 0%Z (snd <$> last (filter (λ kv, kv.1 = name) calls)).

(** An event after the constructor and then the calls [calls] of [set]. *)
Definition SetValueEvent_sets (calls : list (string * Z))
    (event : SetValueEvent) : SetValueEvent :=
  fold_left (λ event kv, SetValueEvent_set kv.1 kv.2 event) calls event.

(** The line a setter sends to [qDebug()]: the values of the event in the
    order set and, when the port refused, the error code. *)
Definition set_report (values : list (string * Z)) (ok : bool) (error : Z)
  : Diagnostic :=
  qDebug_xml
    [StartElement "set"
       (map (λ kv, (kv.1, QString_number kv.2 10))
          (values ++ if ok then [] else [("error", error)]));
     EndElement "set"].

Section Series.
Context `{QtDateTime}.

(** A series of calls of [getNextEvent], one per element of [types]. *)
Fixpoint getNextEvent_series (types : list string) (this : XmlReplay)
  : list (option XmlReplayEvent) * XmlReplay :=
  match types with
  | [] => ([], this)
  | type :: rest =>
      let '(event, this) := XmlReplay_getNextEvent type this in
      let '(events, this) := getNextEvent_series rest this in
      (event :: events, this)
  end.

(** The events a series of calls returned for the type [t], in the order
    of the calls. *)
Definition returned_for (t : string) (types : list string)
    (results : list (option XmlReplayEvent)) : list XmlReplayEvent :=
  omap snd (filter (λ p, p.1 = t) (zip types results)).

End Series.



(** The state [s'] comes after [s]: the clock has not gone back and the
    log has only grown. *)
Definition later (s s' : Sys) : Prop :=
  ticks s ≤ ticks s' ∧ ∃ d, diagnostics s' = diagnostics s ++ d.

Section Kept.
Context `{QtDateTime}.

(** What loading keeps of a store, whatever it reads: the cursors, the
    events of every type but the registered one, and the events of the
    registered type it held already, in their places. *)
Definition kept (this this' : XmlReplay) : Prop :=
  m_indices this' = m_indices this
  ∧ (∀ t, t ≠ TAG → m_events this' !! t = m_events this !! t)
  ∧ ∃ added, default [] (m_events this' !! TAG)
             = default [] (m_events this !! TAG) ++ added.

End Kept.

Section Recording.
Context `{QtDateTime}.

(** The events [getAvailablePorts()] builds in a series of calls that
    return the lists [lists], when the clock is at its reading [n] before
    the first call: each call reads the clock once, for the event it
    constructs. *)
Fixpoint events_at (n : nat) (lists : list (list SerialPortInfo))
  : list XmlReplayEvent :=
  match lists with
  | [] => []
  | ports :: rest =>
      {| m_time := currentDateTime n; m_ports := ports |}
        :: events_at (S n) rest
  end.

(** The tree of a trace that holds the events [events], as [XmlRecord]
    writes it: the root, one container, one element per event, and the
    white space of the automatic formatting. *)
Definition recorded_events_tree (events : list XmlReplayEvent) : Node :=
  let w := m_xml XmlRecord_new in
  Element "xmlreplay" []
    (indentation_nodes w 1
     ++ [Element "events" []
           (flat_map (λ event, indentation_nodes w 2 ++ [event_node w 2 event])
              events
            ++ match events with [] => [] | _ => indentation_nodes w 1 end)]
     ++ indentation_nodes w 0).

(** The text of a closed recording, as its tokens. *)
Definition recorded_document (events : list XmlReplayEvent) : list Token :=
  trace_document [Text (text ["010"%char])] (recorded_events_tree events) [].

End Recording.

(** The tokens a reader gets from the text a recording has written so
    far, when the recording is never closed: the text ends after the last
    complete tag, and the reader reports the early end as an error. *)
Definition unclosed_document (this : XmlRecord) : list Token :=
  StartDocument :: finished (m_xml this).

(** A tree without what is not an element: text, white space, comments,
    document type declarations, entity references and processing
    instructions are removed at every depth. *)
Fixpoint elements_only (n : Node) : Node :=
  match n with
  | Element name attributes children =>
      Element name attributes
        (flat_map (λ child, if is_element child then [elements_only child]
                            else []) children)
  | Other m => Other m
  end.

(** ** More sample data *)

(** A document that is no trace, and a trace with a section of another
    kind before its events. *)
Definition foreign_document : list Token :=
  trace_document [] (Element "html" [] [Element TAG [] []]) [].



(** A manager that has just started a recording. *)
Definition recording_manager : @DeviceConnectionManager text_time :=
  (@DeviceConnectionManager_record_string text_time
     DeviceConnectionManager_new).2.

(** * Properties *)

Ltac run :=
  unfold mbind, M_bind, mret, M_ret, emit, tick, Q_ASSERT, abort; simpl.

Ltac steps :=
  unfold Q_ASSERT, abort, mbind, M_bind, mret, M_ret, emit, tick;
  cbv beta iota zeta.

#[local] Arguments hex : simpl never.
#[local] Arguments QString_number : simpl never.
#[local] Arguments QString_toUInt : simpl never.
#[local] Arguments serial_attributes : simpl never.
#[local] Arguments indentation : simpl never.
#[local] Arguments indentation_nodes : simpl never.

(** ** The log and the attributes of a descriptor *)

Lemma log_nil s : log [] s = s.
Proof. destruct s; unfold log; simpl. by rewrite app_nil_r. Qed.

Lemma log_log d1 d2 s : log d2 (log d1 s) = log (d1 ++ d2) s.
Proof. unfold log; simpl. by rewrite app_assoc. Qed.

Lemma read_attribute_run attribute info s :
  read_attribute attribute info s
  = Some (store_attribute info attribute, log (attribute_warning attribute) s).
Proof.
  unfold read_attribute, store_attribute, attribute_warning, is_identifier.
  destruct (_ || _).
  - destruct (QString_toUInt _); run; by rewrite ?log_nil.
  - run. by rewrite log_nil.
Qed.

Lemma read_attributes_run attributes : ∀ info s,
  read_attributes attributes info s
  = Some (fold_left store_attribute attributes info,
          log (flat_map attribute_warning attributes) s).
Proof.
  induction attributes as [|a l IH]; intros info s; simpl.
  - by rewrite log_nil.
  - unfold mbind, M_bind. rewrite read_attribute_run, IH. by rewrite log_log.
Qed.

(** ** The reader on the tokens of a tree *)

(** The two loops step through [readNext()]. *)
Lemma readNextStartElement_unfold xml :
  readNextStartElement xml
  = let xml' := readNext xml in
    match token xml' with
    | Invalid => (false, xml')
    | StartElement _ _ => (true, xml')
    | EndElement _ | EndDocument => (false, xml')
    | _ => readNextStartElement xml'
    end.
Proof.
  unfold readNextStartElement, readNext.
  destruct (token xml); try done; destruct (input xml) as [|[] rest]; done.
Qed.

Lemma skipCurrentElement_from_unfold l d cur :
  cur ≠ Invalid →
  skipCurrentElement_from l (S d) cur
  = let xml' := readNext {| token := cur; input := l |} in
    match token xml' with
    | Invalid => xml'
    | EndElement _ => skipCurrentElement_from (input xml') d (token xml')
    | StartElement _ _ =>
        skipCurrentElement_from (input xml') (S (S d)) (token xml')
    | _ => skipCurrentElement_from (input xml') (S d) (token xml')
    end.
Proof.
  intros Hc. unfold readNext. cbn [token input].
  destruct cur; try done; destruct l as [|[] rest]; done.
Qed.

Lemma skip_nodes nodes : ∀ l d cur,
  ∃ cur', skipCurrentElement_from (flat_map tokens nodes ++ l) (S d) cur
          = skipCurrentElement_from l (S d) cur'.
Proof.
  assert (Hnode : ∀ n l d cur,
    ∃ cur', skipCurrentElement_from (tokens n ++ l) (S d) cur
            = skipCurrentElement_from l (S d) cur').
  { induction n as [name attributes children IH|m] using Node_induction;
      intros l d cur; [|destruct m; simpl; eauto].
    simpl.
    assert (Hall : ∀ l d cur,
      ∃ cur',
        skipCurrentElement_from (flat_map tokens children ++ l) (S d) cur
        = skipCurrentElement_from l (S d) cur').
    { clear -IH. induction IH as [|x xs Hx _ IHxs]; intros l d cur; simpl.
      - eauto.
      - rewrite <- app_assoc.
        destruct (Hx (flat_map tokens xs ++ l) d cur) as [c1 ->].
        apply IHxs. }
    rewrite <- app_assoc.
    destruct (Hall ([EndElement name] ++ l) (S d)
                (StartElement name attributes)) as [c1 ->].
    simpl. eauto. }
  induction nodes as [|x xs IH]; intros l d cur; simpl.
  - eauto.
  - rewrite <- app_assoc.
    destruct (Hnode x (flat_map tokens xs ++ l) d cur) as [c1 ->].
    apply IH.
Qed.

Lemma skip_done l cur :
  skipCurrentElement_from l 0 cur = {| token := cur; input := l |}.
Proof. by destruct l. Qed.

Lemma skip_element name attributes children rest :
  skipCurrentElement
    {| token := StartElement name attributes;
       input := flat_map tokens children ++ EndElement name :: rest |}
  = {| token := EndElement name; input := rest |}.
Proof.
  unfold skipCurrentElement; simpl.
  destruct (skip_nodes children (EndElement name :: rest) 0
              (StartElement name attributes)) as [c ->].
  simpl. apply skip_done.
Qed.

Lemma next_start_valid xml :
  token xml ≠ Invalid →
  readNextStartElement xml = readNextStartElement_from (input xml).
Proof. unfold readNextStartElement. by destruct (token xml). Qed.

Lemma next_start_other n l :
  is_element n = false →
  readNextStartElement_from (tokens n ++ l) = readNextStartElement_from l.
Proof. by destruct n as [|[]]. Qed.

Lemma next_start_misc prolog l :
  readNextStartElement_from (map misc_token prolog ++ l)
  = readNextStartElement_from l.
Proof. induction prolog as [|[] prolog IH]; done. Qed.

Lemma tokens_element name attributes children l :
  tokens (Element name attributes children) ++ l
  = StartElement name attributes
      :: flat_map tokens children ++ EndElement name :: l.
Proof. simpl. by rewrite <- app_assoc. Qed.

Lemma next_start_element name attributes children l :
  readNextStartElement_from (tokens (Element name attributes children) ++ l)
  = (true, {| token := StartElement name attributes;
              input := flat_map tokens children ++ EndElement name :: l |}).
Proof. by rewrite tokens_element. Qed.

Lemma elements_cons_element name attributes children nodes :
  elements (Element name attributes children :: nodes)
  = Element name attributes children :: elements nodes.
Proof. done. Qed.

Lemma elements_cons_other n nodes :
  is_element n = false → elements (n :: nodes) = elements nodes.
Proof.
  intros Hn. unfold elements. rewrite filter_cons_False; [done|].
  rewrite Hn. by intros [].
Qed.

Lemma shr_SerialPortInfo_run name attributes children rest info s :
  operator_shr_SerialPortInfo
    {| token := StartElement name attributes;
       input := flat_map tokens children ++ EndElement name :: rest |} info s
  = Some (({| token := EndElement name; input := rest |},
           if bool_decide (name = "serial")
           then fold_left store_attribute attributes info else info),
          log (serial_warnings (Element name attributes children)) s).
Proof.
  unfold operator_shr_SerialPortInfo, serial_warnings, named.
  rewrite skip_element. unfold name_of, attributes_of. simpl.
  case_bool_decide; run.
  - by rewrite read_attributes_run.
  - done.
Qed.

Lemma shr_QList_loop_run nodes : ∀ fuel xml items s name rest,
  token xml ≠ Invalid →
  input xml = flat_map tokens nodes ++ EndElement name :: rest →
  length (elements nodes) < fuel →
  operator_shr_QList_loop SerialPortInfo_new operator_shr_SerialPortInfo
    fuel xml items s
  = Some (({| token := EndElement name; input := rest |},
           items ++ map serial_info (elements nodes)),
          log (flat_map serial_warnings (elements nodes)) s).
Proof.
  induction nodes as [|n nodes IH]; intros fuel xml items s name rest Hv Hin Hf;
    (destruct fuel as [|fuel]; [simpl in Hf; lia|]).
  - simpl. rewrite next_start_valid, Hin by done. simpl.
    by rewrite app_nil_r, log_nil.
  - change (flat_map tokens (n :: nodes))
      with (tokens n ++ flat_map tokens nodes) in Hin.
    rewrite <- app_assoc in Hin.
    destruct (is_element n) eqn:Hn.
    + destruct n as [nm a ch|m]; try done.
      rewrite elements_cons_element in *. simpl in Hf.
      cbn [operator_shr_QList_loop].
      rewrite next_start_valid, Hin, next_start_element by done.
      unfold mbind, M_bind. rewrite shr_SerialPortInfo_run.
      rewrite (IH fuel _ _ _ name rest); [|done|done|lia].
      rewrite log_log, <- app_assoc. 
      unfold serial_info at 2, named. simpl. done.
    + rewrite elements_cons_other in * by done.
      rewrite <- (IH (S fuel) {| token := NoToken;
        input := flat_map tokens nodes ++ EndElement name :: rest |}
        items s name rest) by done.
      cbn [operator_shr_QList_loop].
      rewrite !next_start_valid, Hin by done. simpl input.
      by rewrite next_start_other.
Qed.

(** ** Loading a trace is a function of its tree *)

Lemma length_elements nodes :
  length (elements nodes) ≤ length (flat_map tokens nodes).
Proof.
  induction nodes as [|n nodes IH]; [done|].
  change (flat_map tokens (n :: nodes))
    with (tokens n ++ flat_map tokens nodes).
  rewrite length_app.
  destruct n; [rewrite elements_cons_element
              |rewrite elements_cons_other by done..];
    unfold elements in *; simpl; lia.
Qed.

Lemma fuel_enough nodes (t : Token) rest :
  length (elements nodes) < S (length (flat_map tokens nodes ++ t :: rest)).
Proof. rewrite length_app. pose proof (length_elements nodes). lia. Qed.

Section Loading.
Context `{QtDateTime}.

Lemma createInstance_run name s :
  XmlReplayEvent_createInstance name registered_classes s
  = if bool_decide (name = TAG)
    then Some (Some {| m_time := currentDateTime (ticks s); m_ports := [] |},
               advance 1 s)
    else Some (None,
               log [qWarning ["No event class registered for XML tag"; name]]
                 s).
Proof.
  unfold XmlReplayEvent_createInstance, registered_classes.
  case_bool_decide as Hn.
  - subst. rewrite lookup_singleton_eq. done.
  - rewrite lookup_singleton_ne by done. done.
Qed.

Lemma shr_XmlReplayEvent_run attributes children rest event s :
  operator_shr_XmlReplayEvent
    {| token := StartElement TAG attributes;
       input := flat_map tokens children ++ EndElement TAG :: rest |} event s
  = Some (({| token := EndElement TAG; input := rest |},
           {| m_time := m_time event;
              m_ports := ports_of_element (Element TAG attributes children) |}),
          log (ports_warnings (Element TAG attributes children))
            (if hasAttribute attributes "time" then s
             else advance 1
                    (log [qWarning ["Missing timestamp in"; TAG;
                                    "tag, using current time"]] s))).
Proof.
  unfold operator_shr_XmlReplayEvent, GetAvailablePortsEvent_read,
    operator_shr_QList, name_of, attributes_of, tag, isStartElement.
  cbn [token input].
  rewrite bool_decide_eq_true_2 by done.
  cbn [andb]. steps.
  destruct (hasAttribute attributes "time"); steps;
    (erewrite shr_QList_loop_run; [done|done|done|apply fuel_enough]).
Qed.

Lemma deserializeEvents_loop_run nodes : ∀ fuel xml this s name rest,
  token xml ≠ Invalid →
  input xml = flat_map tokens nodes ++ EndElement name :: rest →
  length (elements nodes) < fuel →
  deserializeEvents_loop registered_classes fuel xml this s
  = Some (({| token := EndElement name; input := rest |},
           (fold_left load_event (elements nodes) (this, s)).1),
          (fold_left load_event (elements nodes) (this, s)).2).
Proof.
  induction nodes as [|n nodes IH]; intros fuel xml this s name rest Hv Hin Hf;
    (destruct fuel as [|fuel]; [simpl in Hf; lia|]).
  - simpl. by rewrite next_start_valid, Hin by done.
  - change (flat_map tokens (n :: nodes))
      with (tokens n ++ flat_map tokens nodes) in Hin.
    rewrite <- app_assoc in Hin.
    destruct (is_element n) eqn:Hn.
    + destruct n as [nm a ch|m]; try done.
      rewrite elements_cons_element in *. simpl in Hf.
      cbn [deserializeEvents_loop fold_left].
      rewrite next_start_valid, Hin, next_start_element by done.
      unfold mbind, M_bind. unfold name_of at 1. cbn [token].
      rewrite createInstance_run.
      unfold load_event at 2 4, named. cbn [node_name node_attributes].
      case_bool_decide as Hnm.
      * subst nm. rewrite shr_XmlReplayEvent_run.
        rewrite (IH fuel _ _ _ name rest); [|done|done|lia].
        done.
      * rewrite skip_element.
        rewrite (IH fuel _ _ _ name rest); [|done|done|lia].
        done.
    + rewrite elements_cons_other in * by done.
      rewrite <- (IH (S fuel) {| token := NoToken;
        input := flat_map tokens nodes ++ EndElement name :: rest |}
        this s name rest) by done.
      cbn [deserializeEvents_loop].
      rewrite !next_start_valid, Hin by done. simpl input.
      by rewrite next_start_other.
Qed.

Lemma deserialize_loop_run nodes : ∀ fuel xml this s name rest,
  token xml ≠ Invalid →
  input xml = flat_map tokens nodes ++ EndElement name :: rest →
  length (elements nodes) < fuel →
  deserialize_loop registered_classes fuel xml this s
  = Some (({| token := EndElement name; input := rest |},
           (fold_left load_container (elements nodes) (this, s)).1),
          (fold_left load_container (elements nodes) (this, s)).2).
Proof.
  induction nodes as [|n nodes IH]; intros fuel xml this s name rest Hv Hin Hf;
    (destruct fuel as [|fuel]; [simpl in Hf; lia|]).
  - simpl. by rewrite next_start_valid, Hin by done.
  - change (flat_map tokens (n :: nodes))
      with (tokens n ++ flat_map tokens nodes) in Hin.
    rewrite <- app_assoc in Hin.
    destruct (is_element n) eqn:Hn.
    + destruct n as [nm a ch|m]; try done.
      rewrite elements_cons_element in *. simpl in Hf.
      cbn [deserialize_loop fold_left].
      rewrite next_start_valid, Hin, next_start_element by done.
      unfold name_of at 1 2. cbn [token].
      unfold load_container at 2 4, named. cbn [node_name node_children].
      case_bool_decide as Hnm.
      * unfold mbind, M_bind, XmlReplay_deserializeEvents.
        erewrite deserializeEvents_loop_run;
          [|done|done|apply fuel_enough].
        rewrite (IH fuel _ _ _ name rest); [|done|done|lia].
        by destruct (fold_left load_event _ _).
      * unfold mbind, M_bind, emit. rewrite skip_element.
        rewrite (IH fuel _ _ _ name rest); [|done|done|lia].
        done.
    + rewrite elements_cons_other in * by done.
      rewrite <- (IH (S fuel) {| token := NoToken;
        input := flat_map tokens nodes ++ EndElement name :: rest |}
        this s name rest) by done.
      cbn [deserialize_loop].
      rewrite !next_start_valid, Hin by done. simpl input.
      by rewrite next_start_other.
Qed.

Lemma XmlReplay_new_run prolog epilog name attributes children s :
  XmlReplay_new registered_classes
    (trace_document prolog (Element name attributes children) epilog) s
  = Some ((load_root ({| m_events := ∅; m_indices := ∅ |}, s)
             (Element name attributes children)).1,
          (load_root ({| m_events := ∅; m_indices := ∅ |}, s)
             (Element name attributes children)).2).
Proof.
  unfold XmlReplay_new, XmlReplay_deserialize, trace_document, document,
    load_root, named.
  unfold mbind, M_bind.
  rewrite next_start_valid by done.
  cbn [QXmlStreamReader_new input readNextStartElement_from].
  rewrite <- app_assoc, next_start_misc, <- app_assoc, next_start_element.
  unfold name_of. cbn [token node_name node_children input].
  case_bool_decide.
  - erewrite deserialize_loop_run; [|done|done|apply fuel_enough].
    done.
  - done.
Qed.

End Loading.

(** ** The cursor of the replay store *)

Section Cursor.
Context `{QtDateTime}.

Lemma getNextEvent_run type this c :
  cursor type this = Z.of_nat c →
  let events := default [] (m_events this !! type) in
  let r := XmlReplay_getNextEvent type this in
  r.1 = events !! c
  ∧ m_events r.2 = m_events this
  ∧ cursor type r.2 = Z.of_nat (advanced c (length events))
  ∧ (∀ t, t ≠ type → cursor t r.2 = cursor t this).
Proof.
  unfold cursor, XmlReplay_getNextEvent, advanced. intros Hc.
  destruct (m_events this !! type) as [events|] eqn:He; simpl.
  - rewrite Hc. destruct (Z.ltb_spec (Z.of_nat c) (Z.of_nat (length events)));
      simpl; rewrite ?Nat2Z.id.
    + destruct (Nat.ltb_spec c (length events)); [|lia].
      rewrite lookup_insert_eq. simpl.
      repeat split; [lia|]. intros t Ht. by rewrite !lookup_insert_ne.
    + destruct (Nat.ltb_spec c (length events)); [lia|].
      rewrite lookup_insert_eq. simpl.
      repeat split; [by rewrite lookup_ge_None_2 by lia|].
      intros t Ht. by rewrite !lookup_insert_ne.
  - by destruct c.
Qed.

Lemma getNextEvent_calls_run type n : ∀ this c,
  cursor type this = Z.of_nat c →
  let events := default [] (m_events this !! type) in
  let r := getNextEvent_calls n type this in
  r.1 = map (λ j, events !! (c + j)) (seq 0 n)
  ∧ m_events r.2 = m_events this
  ∧ cursor type r.2 = Z.of_nat (c + min n (length events - c)).
Proof.
  induction n as [|n IH]; intros this c Hc.
  - simpl. repeat split. rewrite Hc. f_equal. lia.
  - cbn [getNextEvent_calls].
    destruct (getNextEvent_run type this c Hc) as (H1 & H2 & H3 & _).
    destruct (XmlReplay_getNextEvent type this) as [event this1].
    cbn [fst snd] in *. specialize (IH this1 _ H3).
    destruct (getNextEvent_calls n type this1) as [events this2].
    cbn [fst snd] in *. rewrite H2 in IH. destruct IH as (I1 & I2 & I3).
    split_and!.
    + cbn [seq map]. rewrite H1, I1, Nat.add_0_r. f_equal.
      rewrite <- seq_shift, map_map. apply map_ext_in. intros j Hj.
      unfold advanced. destruct (Nat.ltb_spec c (length (default [] (m_events this !! type)))).
      * f_equal. lia.
      * by rewrite !lookup_ge_None_2 by lia.
    + by rewrite I2.
    + rewrite I3. f_equal. unfold advanced.
      destruct (Nat.ltb_spec c (length (default [] (m_events this !! type)))); lia.
Qed.

End Cursor.

(** ** A replaying manager *)

Section Manager.
Context `{QtDateTime}.

Lemma getAvailablePorts_replaying availablePorts this replay s :
  m_replay this = Some replay →
  DeviceConnectionManager_getAvailablePorts availablePorts this s
  = let r := XmlReplay_getNextEvent TAG replay in
    let ports := match r.1 with
                 | Some e => m_ports e
                 | None => m_serialPorts this
                 end in
    Some ((ports,
           {| m_record :=
                XmlReplayEvent_record
                  {| m_time := currentDateTime (ticks s); m_ports := ports |}
                  (m_record this);
              m_replay := Some r.2;
              m_serialPorts := ports |}),
          advance 1 s).
Proof.
  intros Hr. unfold DeviceConnectionManager_getAvailablePorts,
    GetAvailablePortsEvent_new, XmlReplay_getNextEvent_T.
  steps. rewrite Hr.
  destruct (XmlReplay_getNextEvent TAG replay) as [[e|] r]; done.
Qed.

Lemma last_drop_cons {A} (l : list A) c x (d : A) :
  l !! c = Some x →
  default d (last (drop c l)) = default x (last (drop (S c) l)).
Proof.
  intros Hl. rewrite (drop_S l x c Hl).
  destruct (drop (S c) l) as [|y l']; [done|].
  rewrite last_cons_cons.
  destruct (last_is_Some (y :: l')) as [_ [z ->]]; done.
Qed.

Lemma calls_replaying enumerations : ∀ this replay c s,
  m_replay this = Some replay →
  cursor TAG replay = Z.of_nat c →
  ∃ this' s',
    getAvailablePorts_calls enumerations this s
    = Some ((map (replayed_from (stored_ports replay) c (m_serialPorts this))
               (seq 0 (length enumerations)), this'), s').
Proof.
  induction enumerations as [|a l IH]; intros this replay c s Hr Hc.
  - simpl. eauto.
  - cbn [getAvailablePorts_calls]. unfold mbind, M_bind.
    rewrite (getAvailablePorts_replaying _ _ _ _ Hr). cbv zeta.
    destruct (getNextEvent_run TAG replay c Hc) as (H1 & H2 & H3 & _).
    destruct (XmlReplay_getNextEvent TAG replay) as [event replay1].
    cbn [fst snd] in *.
    match goal with
    | |- context [getAvailablePorts_calls l ?m ?s1] =>
        destruct (IH m replay1 _ s1 eq_refl H3) as (this' & s' & ->)
    end.
    unfold mret, M_ret. eexists _, _. do 3 f_equal.
    cbn [length seq map m_serialPorts]. f_equal.
    + unfold replayed_from, stored_ports.
      rewrite Nat.add_0_r, list_lookup_fmap, <- H1.
      destruct event as [e|]; [done|]. simpl.
      symmetry in H1. apply lookup_ge_None_1 in H1.
      by rewrite drop_ge by (by rewrite length_map).
    + rewrite <- seq_shift, map_map. apply map_ext_in. intros j _.
      unfold replayed_from, stored_ports, advanced. rewrite H2.
      set (events := default [] (m_events replay !! TAG)) in *.
      destruct (Nat.ltb_spec c (length events)) as [Hlt|Hge].
      * destruct (lookup_lt_is_Some_2 events c Hlt) as [e He].
        rewrite He in H1. subst event.
        rewrite <- Nat.add_succ_comm.
        destruct (map m_ports events !! (S c + j)); [done|].
        symmetry. apply last_drop_cons. by rewrite list_lookup_fmap, He.
      * rewrite lookup_ge_None_2 in H1 by lia. subst event.
        rewrite !lookup_ge_None_2 by (rewrite length_map; lia).
        by rewrite drop_ge by (rewrite length_map; lia).
Qed.

End Manager.

(** ** What a loaded store holds *)

Section Loaded.
Context `{QtDateTime}.

Lemma grows_refl st : grows [] st st.
Proof.
  split; simpl; [by rewrite app_nil_r|done|done|].
  exists []. rewrite app_nil_r. split; [done|]. by intros e ?%elem_of_nil.
Qed.

Lemma grows_trans a b st1 st2 st3 :
  grows a st1 st2 → grows b st2 st3 → grows (a ++ b) st1 st3.
Proof.
  intros [P1 O1 I1 (d1 & D1 & W1)] [P2 O2 I2 (d2 & D2 & W2)]. split.
  - by rewrite P2, P1, filter_app, map_app, app_assoc.
  - intros t Ht. by rewrite O2, O1.
  - by rewrite I2.
  - exists (d1 ++ d2). rewrite D2, D1, app_assoc. split; [done|].
    intros e [He|He]%elem_of_app Hn; apply elem_of_app; eauto.
Qed.

Lemma load_event_grows st e : grows [e] st (load_event st e).
Proof.
  destruct st as [this s]. unfold load_event.
  destruct (named TAG e) eqn:Hn.
  - assert (node_name e = TAG) as -> by by apply bool_decide_eq_true_1 in Hn.
    split; cbn [fst snd].
    + unfold stored_ports, append_event. cbn [m_events].
      rewrite lookup_insert_eq. cbn [from_option id].
      rewrite map_app, filter_cons_True by by rewrite Hn. done.
    + intros t Ht. unfold append_event. cbn [m_events].
      by rewrite lookup_insert_ne.
    + done.
    + exists ((if hasAttribute (node_attributes e) "time" then []
               else [qWarning ["Missing timestamp in"; TAG;
                               "tag, using current time"]])
              ++ ports_warnings e). split.
      * destruct (hasAttribute _ _); unfold log, advance; cbn [diagnostics];
          [done|by rewrite <- app_assoc].
      * intros e' ->%list_elem_of_singleton. by rewrite Hn.
  - split; cbn [fst snd].
    + rewrite filter_cons_False by (rewrite Hn; by intros []).
      by rewrite app_nil_r.
    + done.
    + done.
    + eexists. split; [done|].
      intros e' ->%list_elem_of_singleton _. apply list_elem_of_singleton.
      done.
Qed.

Lemma load_events_grows es : ∀ st, grows es st (fold_left load_event es st).
Proof.
  induction es as [|e es IH]; intros st; [apply grows_refl|].
  apply (grows_trans [e] es _ (load_event st e)); [apply load_event_grows|].
  apply IH.
Qed.

Lemma load_container_grows st c :
  grows (container_events c) st (load_container st c).
Proof.
  unfold load_container, container_events.
  destruct (named "events" c); [apply load_events_grows|].
  destruct st as [this s]. split; simpl; [by rewrite app_nil_r|done|done|].
  eexists. split; [done|]. by intros e ?%elem_of_nil.
Qed.

Lemma load_containers_grows cs : ∀ st,
  grows (flat_map container_events cs) st (fold_left load_container cs st).
Proof.
  induction cs as [|c cs IH]; intros st; [apply grows_refl|].
  apply (grows_trans (container_events c) _ _ (load_container st c));
    [apply load_container_grows|apply IH].
Qed.

Lemma load_root_grows st root :
  grows (trace_events root) st (load_root st root).
Proof.
  unfold load_root, trace_events.
  destruct (named "xmlreplay" root); [|apply grows_refl].
  apply load_containers_grows.
Qed.

End Loaded.

(** ** The registry, and attributes that do not parse *)

Lemma store_attribute_lookup info k v :
  m_info (store_attribute info (k, v)) !! k
  = match attribute_value k v with
    | Some x => Some x
    | None => m_info info !! k
    end.
Proof.
  unfold store_attribute, attribute_value. cbn [fst snd].
  destruct (is_identifier k).
  - destruct (QString_toUInt v); simpl; [apply lookup_insert_eq|done].
  - simpl. apply lookup_insert_eq.
Qed.

Lemma store_attribute_other info a k :
  a.1 ≠ k → m_info (store_attribute info a) !! k = m_info info !! k.
Proof.
  intros Hne. unfold store_attribute.
  destruct (is_identifier a.1); [destruct (QString_toUInt a.2)|];
    simpl; by rewrite ?lookup_insert_ne.
Qed.

Lemma fold_store_absent attributes : ∀ info k,
  k ∉ attributes.*1 →
  m_info (fold_left store_attribute attributes info) !! k = m_info info !! k.
Proof.
  induction attributes as [|a l IH]; intros info k Hk; [done|].
  simpl in *. apply not_elem_of_cons in Hk as [Hne Hk].
  rewrite IH by done. by apply store_attribute_other.
Qed.

Lemma fold_store_lookup attributes : ∀ info k v,
  NoDup attributes.*1 → (k, v) ∈ attributes →
  m_info (fold_left store_attribute attributes info) !! k
  = match attribute_value k v with
    | Some x => Some x
    | None => m_info info !! k
    end.
Proof.
  induction attributes as [|a l IH]; intros info k v Hnd Hin.
  - by apply elem_of_nil in Hin.
  - simpl in *. apply NoDup_cons in Hnd as [Ha Hnd].
    apply elem_of_cons in Hin as [<-|Hin].
    + rewrite fold_store_absent by done. apply store_attribute_lookup.
    + rewrite (IH _ k v) by done.
      destruct (attribute_value k v); [done|].
      apply store_attribute_other. intros <-. apply Ha.
      apply list_elem_of_fmap. by exists (a.1, v).
Qed.

(** C5. [registerClass] under a tag that is already registered returns
    false, logs a warning and leaves the registry, hence the constructor
    registered first, as it is; under a new tag it returns true and adds
    the mapping. *)
Theorem registry_uniqueness `{QtDateTime} tag factory
    (s_factories : gmap string FactoryMethod) s :
  ∃ ok registry s',
    XmlReplayEvent_registerClass tag factory s_factories s
    = Some ((ok, registry), s')
    ∧ match s_factories !! tag with
      | Some original =>
          ok = false ∧ registry = s_factories
          ∧ registry !! tag = Some original
          ∧ s' = log [qWarning ["Event class already registered for tag";
                                tag]] s
      | None =>
          ok = true ∧ registry = <[tag := factory]> s_factories
          ∧ registry !! tag = Some factory ∧ s' = s
      end.
Proof.
  unfold XmlReplayEvent_registerClass.
  destruct (s_factories !! tag) as [original|] eqn:He.
  - rewrite bool_decide_eq_true_2 by eauto. by eexists _, _, _.
  - rewrite bool_decide_eq_false_2 by (by intros [? ?]).
    eexists _, _, _. split_and!; try done. apply lookup_insert_eq.
Qed.

(** C9. Reading a [serial] element into a descriptor without the key: an
    identifier attribute whose value does not parse as an unsigned number
    leaves its key absent, which differs from an identifier of zero, and
    a warning is logged; every other attribute of the element is stored,
    a text attribute as its text and an identifier that parses as its
    16-bit value. *)
Theorem invalid_identifier_left_absent attributes rest key value info s :
  is_identifier key = true →
  NoDup attributes.*1 →
  (key, value) ∈ attributes →
  QString_toUInt value = None →
  m_info info !! key = None →
  ∃ xml' info' s',
    operator_shr_SerialPortInfo
      {| token := StartElement "serial" attributes; input := rest |} info s
    = Some ((xml', info'), s')
    ∧ m_info info' !! key = None
    ∧ m_info info' !! key ≠ Some (QVariant_int 0)
    ∧ qWarning ["invalid"; key; "value"; value] ∈ diagnostics s'
    ∧ (∀ k v, (k, v) ∈ attributes → is_identifier k = false →
         m_info info' !! k = Some (QVariant_QString v))
    ∧ (∀ k v u, (k, v) ∈ attributes → is_identifier k = true →
         QString_toUInt v = Some u →
         m_info info' !! k = Some (QVariant_int (to_quint16 u))).
Proof.
  intros Hid Hnd Hin Hbad Hnone.
  unfold operator_shr_SerialPortInfo, name_of, attributes_of, atEnd,
    isStartElement. cbn [token andb negb].
  rewrite bool_decide_eq_true_2 by done.
  unfold mbind, M_bind. rewrite read_attributes_run.
  unfold mret, M_ret. eexists _, _, _. split; [done|].
  assert (Hkey : m_info (fold_left store_attribute attributes info) !! key
                 = None).
  { rewrite (fold_store_lookup _ _ key value) by done.
    unfold attribute_value. by rewrite Hid, Hbad. }
  split_and!.
  - done.
  - by rewrite Hkey.
  - unfold log. cbn [diagnostics]. apply elem_of_app. right.
    apply list_elem_of_In, in_flat_map. exists (key, value).
    split; [by apply list_elem_of_In|].
    unfold attribute_warning. cbn [fst snd]. rewrite Hid, Hbad. by left.
  - intros k v Hkv Hk. rewrite (fold_store_lookup _ _ k v) by done.
    unfold attribute_value. by rewrite Hk.
  - intros k v u Hkv Hk Hu. rewrite (fold_store_lookup _ _ k v) by done.
    unfold attribute_value. by rewrite Hk, Hu.
Qed.

(** C10. A null descriptor is written as a [serial] element without
    attributes, and reading that element gives a descriptor with an empty
    attribute bag, equal to the original under [operator==]. *)
Theorem null_descriptor_round_trip info s :
  isNull info = true →
  SerialPortInfo_to_data info
  = document [StartElement "serial" []; EndElement "serial"]
  ∧ ∃ info',
      SerialPortInfo_of_data (SerialPortInfo_to_data info) s = Some (info', s)
      ∧ m_info info' = ∅
      ∧ operator_eq_SerialPortInfo info' info = true.
Proof.
  intros Hnull.
  assert (Hdata : SerialPortInfo_to_data info
                  = document [StartElement "serial" []; EndElement "serial"]).
  { unfold SerialPortInfo_to_data, operator_shl_SerialPortInfo.
    by rewrite Hnull. }
  split; [done|]. rewrite Hdata. eexists. split_and!.
  - reflexivity.
  - done.
  - unfold operator_eq_SerialPortInfo. apply bool_decide_eq_true_2.
    by apply bool_decide_eq_true_1 in Hnull.
Qed.

(** ** Identifiers in hexadecimal *)

Section Numbers.
Local Open Scope Z_scope.
Lemma digit_value_upper d :
  0 ≤ d < 16 → digit_value (toUpper_char (digit_char d)) = Some d.
Proof.
  intros Hd.
  assert (d = 0 ∨ d = 1 ∨ d = 2 ∨ d = 3 ∨ d = 4 ∨ d = 5 ∨ d = 6 ∨ d = 7
          ∨ d = 8 ∨ d = 9 ∨ d = 10 ∨ d = 11 ∨ d = 12 ∨ d = 13 ∨ d = 14
          ∨ d = 15) as Hcases by lia.
  repeat (destruct Hcases as [->|Hcases]; [reflexivity|]).
  by subst.
Qed.

Lemma digit_not_space d :
  0 ≤ d < 16 → is_space (toUpper_char (digit_char d)) = false.
Proof.
  intros Hd.
  assert (d = 0 ∨ d = 1 ∨ d = 2 ∨ d = 3 ∨ d = 4 ∨ d = 5 ∨ d = 6 ∨ d = 7
          ∨ d = 8 ∨ d = 9 ∨ d = 10 ∨ d = 11 ∨ d = 12 ∨ d = 13 ∨ d = 14
          ∨ d = 15) as Hcases by lia.
  repeat (destruct Hcases as [->|Hcases]; [reflexivity|]).
  by subst.
Qed.

Lemma read_digits_snoc base l : ∀ acc c,
  read_digits base acc (l ++ [c])
  = match read_digits base acc l with
    | Some a =>
        match digit_value c with
        | Some d => if d <? base then Some (a * base + d) else None
        | None => None
        end
    | None => None
    end.
Proof.
  induction l as [|x l IH]; intros acc c; simpl.
  - destruct (digit_value c) as [d|]; [|done]. by destruct (d <? base).
  - destruct (digit_value x) as [d|]; [|done].
    destruct (d <? base); [apply IH|done].
Qed.

Lemma read_digits_hex fuel : ∀ n,
  0 ≤ n < 16 ^ Z.of_nat fuel →
  read_digits 16 0 (map toUpper_char (digits fuel 16 n)) = Some n.
Proof.
  induction fuel as [|fuel IH]; intros n Hn.
  - simpl in *. f_equal. lia.
  - cbn [digits]. destruct (Z.ltb_spec n 16) as [Hlt|Hge].
    + cbn [map read_digits]. rewrite digit_value_upper by lia.
      destruct (Z.ltb_spec n 16); [|lia]. f_equal; lia.
    + rewrite map_app. cbn [map]. rewrite read_digits_snoc, IH.
      * rewrite digit_value_upper by (apply Z.mod_pos_bound; lia).
        destruct (Z.ltb_spec (n mod 16) 16) as [_|Hbad].
        -- f_equal. pose proof (Z.div_mod n 16). lia.
        -- pose proof (Z.mod_pos_bound n 16). lia.
      * rewrite Nat2Z.inj_succ, Z.pow_succ_r in Hn by lia.
        split; [apply Z.div_pos; lia|].
        apply Z.div_lt_upper_bound; lia.
Qed.

Lemma digits_fuel_enough n : 0 ≤ n → n < 16 ^ Z.of_nat (digits_fuel n).
Proof.
  intros Hn. unfold digits_fuel.
  rewrite Nat2Z.inj_succ, Z2Nat.id by apply Z.log2_nonneg.
  destruct (Z.eq_dec n 0) as [->|Hne]; [done|].
  pose proof (Z.log2_spec n ltac:(lia)) as [_ Hup].
  eapply Z.lt_le_trans; [exact Hup|].
  apply Z.pow_le_mono_l. lia.
Qed.

Lemma digits_last fuel : ∀ n,
  0 ≤ n →
  ∃ l d, 0 ≤ d < 16 ∧ digits (S fuel) 16 n = l ++ [digit_char d].
Proof.
  intros n Hn. cbn [digits]. destruct (Z.ltb_spec n 16).
  - exists [], n. split; [lia|done].
  - eexists _, _. split; [|done]. apply Z.mod_pos_bound. lia.
Qed.

Lemma skip_space_id l :
  (∀ c, head l = Some c → is_space c = false) → skip_space l = l.
Proof.
  destruct l as [|c l]; [done|]. intros Hc. simpl.
  by rewrite (Hc c eq_refl).
Qed.

Lemma trimmed_id l :
  (∀ c, head l = Some c → is_space c = false) →
  (∀ c, last l = Some c → is_space c = false) →
  trimmed l = l.
Proof.
  intros Hh Hl. unfold trimmed. rewrite (skip_space_id l) by done.
  rewrite skip_space_id; [apply reverse_involutive|].
  intros c. rewrite head_reverse. apply Hl.
Qed.

Lemma toUInt_hex v :
  0 ≤ v ≤ 4294967295 → QString_toUInt (hex v) = Some v.
Proof.
  intros Hv. unfold QString_toUInt, hex, QString_number, toUpper.
  cbn [Z.eqb Pos.eqb]. rewrite (Z.mod_small v) by lia.
  unfold chars, text.
  change (String.list_ascii_of_string ("0x" +:+ ?s))
    with ("0"%char :: "x"%char :: String.list_ascii_of_string s).
  rewrite !String.list_ascii_of_string_of_list_ascii.
  destruct (digits_last (Z.to_nat (Z.log2 v)) v ltac:(lia))
    as (l & d & Hd & Hl).
  fold (digits_fuel v) in Hl.
  pose proof (read_digits_hex (digits_fuel v) v
                (conj (proj1 Hv) (digits_fuel_enough v (proj1 Hv)))) as Hread.
  rewrite Hl in *. rewrite map_app in *. cbn [map] in *.
  rewrite trimmed_id.
  - change (code "0" =? 43) with false. cbv beta iota.
    change (code "0" =? 48) with true. change (is_x "x") with true.
    cbv beta iota.
    destruct (map toUpper_char l ++ [toUpper_char (digit_char d)]) eqn:E.
    + by destruct (map toUpper_char l).
    + rewrite Hread. destruct (Z.leb_spec v 4294967295); [done|lia].
  - by intros c [= <-].
  - intros c. rewrite !app_comm_cons, last_snoc. intros [= <-].
    by apply digit_not_space.
Qed.

Example hex_6790 : hex 6790 = "0x1A86".
Proof. reflexivity. Qed.

Example toUInt_hex_6790 : QString_toUInt "0x1A86" = Some 6790%Z.
Proof. reflexivity. Qed.

Example toUInt_octal : QString_toUInt " 017 " = Some 15%Z.
Proof. reflexivity. Qed.

Example toUInt_no_digits : QString_toUInt "0x" = None.
Proof. reflexivity. Qed.

Example toUInt_negative : QString_toUInt "-1" = None.
Proof. reflexivity. Qed.

End Numbers.

(** ** Canonical descriptors *)

Lemma canonical_intro info :
  (∀ k, k ∈ text_keys → ∃ s, m_info info !! k = Some (QVariant_QString s)) →
  (∀ k, k ∈ identifier_keys →
     m_info info !! k = None
     ∨ ∃ v, is_quint16 v ∧ m_info info !! k = Some (QVariant_int v)) →
  (∀ k x, m_info info !! k = Some x → k ∈ text_keys ++ identifier_keys) →
  canonical info = true.
Proof.
  intros Htext Hid Hdom. unfold canonical.
  apply orb_true_iff. right. rewrite !andb_true_iff. split_and!.
  - apply forallb_forall. intros k Hk%list_elem_of_In.
    by destruct (Htext k Hk) as [s ->].
  - apply forallb_forall. intros k Hk%list_elem_of_In.
    destruct (Hid k Hk) as [->|(v & Hv & ->)]; [done|].
    unfold is_optional_id, is_quint16 in *. lia.
  - apply forallb_forall. intros [k x] Hkx%list_elem_of_In.
    apply elem_of_map_to_list in Hkx. apply bool_decide_eq_true_2.
    by apply (Hdom k x).
Qed.

Lemma SerialPortInfo_of_canonical other :
  is_quint16 (qt_vendorIdentifier other) →
  is_quint16 (qt_productIdentifier other) →
  canonical (SerialPortInfo_of other) = true.
Proof.
  intros Hv Hp. unfold SerialPortInfo_of.
  destruct (qt_isNull other); [done|].
  apply canonical_intro.
  - intros k Hk. unfold text_keys in Hk.
    repeat (apply elem_of_cons in Hk as [->|Hk];
            [destruct (qt_hasVendorIdentifier other),
               (qt_hasProductIdentifier other);
             unfold set_info; cbn [m_info]; simplify_map_eq; eauto|]).
    by apply elem_of_nil in Hk.
  - intros k Hk. unfold identifier_keys in Hk.
    repeat (apply elem_of_cons in Hk as [->|Hk];
            [destruct (qt_hasVendorIdentifier other),
               (qt_hasProductIdentifier other);
             unfold set_info; cbn [m_info]; simplify_map_eq; eauto|]).
    by apply elem_of_nil in Hk.
  - intros k x Hkx.
    destruct (decide (k ∈ text_keys ++ identifier_keys)) as [|Hn]; [done|].
    exfalso. unfold text_keys, identifier_keys in Hn. cbn [app] in Hn.
    repeat (apply not_elem_of_cons in Hn as [? Hn]).
    destruct (qt_hasVendorIdentifier other), (qt_hasProductIdentifier other);
      unfold set_info, SerialPortInfo_new in Hkx; cbn [m_info] in Hkx;
      by simplify_map_eq.
Qed.

Lemma canonical_inv info :
  canonical info = true → isNull info = false →
  (∀ k, k ∈ text_keys → ∃ s, m_info info !! k = Some (QVariant_QString s))
  ∧ (∀ k, k ∈ identifier_keys →
       m_info info !! k = None
       ∨ ∃ v, (0 ≤ v < 65536)%Z ∧ m_info info !! k = Some (QVariant_int v))
  ∧ (∀ k x, m_info info !! k = Some x → k ∈ text_keys ++ identifier_keys).
Proof.
  unfold canonical. intros Hc Hn. rewrite Hn in Hc. cbn [orb] in Hc.
  apply andb_true_iff in Hc as [Hc Hdom].
  apply andb_true_iff in Hc as [Htext Hid].
  rewrite forallb_forall in Htext, Hid, Hdom. split_and!.
  - intros k Hk%list_elem_of_In. specialize (Htext k Hk).
    destruct (m_info info !! k) as [[s|i]|]; try done. eauto.
  - intros k Hk%list_elem_of_In. specialize (Hid k Hk).
    destruct (m_info info !! k) as [[s|i]|]; try done; [|by left].
    right. exists i. split; [|done]. unfold is_optional_id in Hid. lia.
  - intros k x Hkx. apply elem_of_map_to_list in Hkx.
    apply list_elem_of_In in Hkx. specialize (Hdom _ Hkx).
    by apply bool_decide_eq_true_1 in Hdom.
Qed.

Lemma serial_attributes_names info :
  isNull info = false →
  (serial_attributes info).*1
  = text_keys
    ++ (if hasVendorIdentifier info then ["vendorIdentifier"] else [])
    ++ (if hasProductIdentifier info then ["productIdentifier"] else []).
Proof.
  intros Hn. unfold serial_attributes. rewrite Hn.
  by destruct (hasVendorIdentifier info), (hasProductIdentifier info).
Qed.

Lemma serial_attributes_NoDup info : NoDup (serial_attributes info).*1.
Proof.
  destruct (isNull info) eqn:Hn.
  - unfold serial_attributes. rewrite Hn. constructor.
  - rewrite serial_attributes_names by done.
    destruct (hasVendorIdentifier info), (hasProductIdentifier info);
      apply (bool_decide_unpack _); by vm_compute.
Qed.

Lemma has_identifier_iff info k :
  bool_decide (is_Some (m_info info !! k)) = true ↔ is_Some (m_info info !! k).
Proof. apply bool_decide_eq_true. Qed.

Lemma NoDup_fst_unique {A B} (l : list (A * B)) k v v' :
  NoDup l.*1 → (k, v) ∈ l → (k, v') ∈ l → v = v'.
Proof.
  induction l as [|a l IH]; intros Hnd H1 H2.
  - by apply elem_of_nil in H1.
  - simpl in Hnd. apply NoDup_cons in Hnd as [Ha Hnd].
    apply elem_of_cons in H1 as [<-|H1], H2 as [E|H2].
    + by injection E.
    + exfalso. apply Ha. apply list_elem_of_fmap. by exists (k, v').
    + subst a. exfalso. apply Ha. apply list_elem_of_fmap. by exists (k, v).
    + by apply IH.
Qed.

Lemma text_attribute_in info k :
  isNull info = false → k ∈ text_keys →
  (k, QVariant_toString (m_info info !! k)) ∈ serial_attributes info.
Proof.
  intros Hn Hk. unfold serial_attributes. rewrite Hn.
  apply elem_of_app. left. unfold text_keys in Hk.
  repeat (apply elem_of_cons in Hk as [->|Hk]; [set_solver|]).
  by apply elem_of_nil in Hk.
Qed.

Lemma vendor_attribute_in info :
  isNull info = false → is_Some (m_info info !! "vendorIdentifier") →
  ("vendorIdentifier", hex (vendorIdentifier info)) ∈ serial_attributes info.
Proof.
  intros Hn Hk. unfold serial_attributes, hasVendorIdentifier. rewrite Hn.
  rewrite bool_decide_eq_true_2 by done. set_solver.
Qed.

Lemma product_attribute_in info :
  isNull info = false → is_Some (m_info info !! "productIdentifier") →
  ("productIdentifier", hex (productIdentifier info))
  ∈ serial_attributes info.
Proof.
  intros Hn Hk. unfold serial_attributes, hasProductIdentifier. rewrite Hn.
  rewrite bool_decide_eq_true_2 by done. set_solver.
Qed.

Lemma identifier_value k v :
  is_identifier k = true → (0 ≤ v < 65536)%Z →
  attribute_value k (hex (to_quint16 v)) = Some (QVariant_int v).
Proof.
  intros Hk Hv. unfold attribute_value, to_quint16. rewrite Hk.
  rewrite Z.mod_small by done. rewrite toUInt_hex by lia. simpl.
  by rewrite Z.mod_small.
Qed.

(** What the written attributes say about each key of a canonical
    descriptor. *)
Lemma serial_attributes_value info k :
  canonical info = true → isNull info = false →
  match m_info info !! k with
  | Some x => ∃ v, (k, v) ∈ serial_attributes info
                   ∧ attribute_value k v = Some x
  | None => k ∉ (serial_attributes info).*1
  end.
Proof.
  intros Hc Hn. destruct (canonical_inv info Hc Hn) as (Htext & Hid & Hdom).
  destruct (m_info info !! k) as [x|] eqn:Hk.
  - specialize (Hdom k x Hk). apply elem_of_app in Hdom as [Hin|Hin].
    + destruct (Htext k Hin) as [s Hs].
      exists s. split.
      * pose proof (text_attribute_in info k Hn Hin) as Ha.
        by rewrite Hs in Ha.
      * rewrite Hk in Hs. injection Hs as ->.
        unfold attribute_value, text_keys in *.
        repeat (apply elem_of_cons in Hin as [->|Hin]; [done|]).
        by apply elem_of_nil in Hin.
    + destruct (Hid k Hin) as [Hnone|(v & Hv & Hsome)]; [congruence|].
      rewrite Hk in Hsome. injection Hsome as ->.
      unfold identifier_keys in Hin.
      apply elem_of_cons in Hin as [->|Hin];
        [|apply elem_of_cons in Hin as [->|Hin];
          [|by apply elem_of_nil in Hin]].
      * exists (hex (vendorIdentifier info)). split.
        -- apply vendor_attribute_in; [done|]. rewrite Hk. eauto.
        -- unfold vendorIdentifier. rewrite Hk. by apply identifier_value.
      * exists (hex (productIdentifier info)). split.
        -- apply product_attribute_in; [done|]. rewrite Hk. eauto.
        -- unfold productIdentifier. rewrite Hk. by apply identifier_value.
  - rewrite serial_attributes_names by done.
    intros [Hin|Hin]%elem_of_app.
    + destruct (Htext k Hin) as [s Hs]. congruence.
    + apply elem_of_app in Hin as [Hin|Hin].
      * unfold hasVendorIdentifier in Hin. case_bool_decide as Hv.
        -- apply list_elem_of_singleton in Hin as ->.
           rewrite Hk in Hv. by destruct Hv.
        -- by apply elem_of_nil in Hin.
      * unfold hasProductIdentifier in Hin. case_bool_decide as Hv.
        -- apply list_elem_of_singleton in Hin as ->.
           rewrite Hk in Hv. by destruct Hv.
        -- by apply elem_of_nil in Hin.
Qed.

Lemma serial_info_canonical info :
  canonical info = true →
  serial_info (Element "serial" (serial_attributes info) []) = info.
Proof.
  intros Hc. unfold serial_info, named. cbn [node_name node_attributes].
  rewrite bool_decide_eq_true_2 by done.
  destruct info as [bag].
  destruct (isNull {| m_info := bag |}) eqn:Hn.
  - unfold serial_attributes. rewrite Hn. simpl.
    apply bool_decide_eq_true_1 in Hn. simpl in Hn. by subst.
  - set (info := {| m_info := bag |}) in *.
    set (r := fold_left store_attribute (serial_attributes info)
                SerialPortInfo_new).
    assert (m_info r = bag) as Hbag; [|destruct r; simpl in Hbag; by subst].
    apply map_eq. intros k.
    pose proof (serial_attributes_value info k Hc Hn) as Hk.
    change (m_info info) with bag in Hk.
    destruct (bag !! k) as [x|].
    + destruct Hk as (v & Hin & Hv).
      unfold r. rewrite (fold_store_lookup _ _ k v);
        [by rewrite Hv|apply serial_attributes_NoDup|done].
    + unfold r. by rewrite fold_store_absent.
Qed.

Lemma serial_warnings_canonical info :
  canonical info = true →
  serial_warnings (Element "serial" (serial_attributes info) []) = [].
Proof.
  intros Hc. unfold serial_warnings, named. cbn [node_name node_attributes].
  rewrite bool_decide_eq_true_2 by done.
  destruct (isNull info) eqn:Hn.
  - unfold serial_attributes. by rewrite Hn.
  - assert (Hall : ∀ a, a ∈ serial_attributes info → attribute_warning a = []).
    { intros [k v] Hin. unfold attribute_warning. cbn [fst snd].
      destruct (is_identifier k) eqn:Hid; [|done].
      pose proof (serial_attributes_value info k Hc Hn) as Hk.
      destruct (m_info info !! k) as [x|].
      - destruct Hk as (v' & Hin' & Hv).
        assert (v' = v) as ->.
        { eapply NoDup_fst_unique;
            [apply serial_attributes_NoDup|exact Hin'|exact Hin]. }
        unfold attribute_value in Hv. rewrite Hid in Hv.
        by destruct (QString_toUInt v).
      - exfalso. apply Hk. apply list_elem_of_fmap. by exists (k, v). }
    induction (serial_attributes info) as [|a l IH]; [done|].
    simpl. rewrite Hall by left. apply IH.
    intros a' Ha'. apply Hall. by right.
Qed.

(** ** What the writer writes for an event *)

Lemma indentation_tokens w level :
  flat_map tokens (indentation_nodes w level) = indentation w level.
Proof. unfold indentation_nodes, indentation. by destruct (autoFormatting w). Qed.

Lemma indentation_elements w level : elements (indentation_nodes w level) = [].
Proof. unfold indentation_nodes. by destruct (autoFormatting w). Qed.

Lemma writeAttribute_open F n a T l b i k v :
  writeAttribute k v
    {| finished := F; inStartElement := Some (n, a); tagStack := T;
       lastWasStartElement := l; autoFormatting := b;
       autoFormattingIndent := i |}
  = {| finished := F; inStartElement := Some (n, a ++ [(k, v)]);
       tagStack := T; lastWasStartElement := l; autoFormatting := b;
       autoFormattingIndent := i |}.
Proof. reflexivity. Qed.

Lemma writeEndElement_open F p n T b i :
  writeEndElement
    {| finished := F; inStartElement := p; tagStack := n :: T;
       lastWasStartElement := true; autoFormatting := b;
       autoFormattingIndent := i |}
  = {| finished := F ++ start_tag p ++ [EndElement n];
       inStartElement := None; tagStack := T;
       lastWasStartElement := false; autoFormatting := b;
       autoFormattingIndent := i |}.
Proof. reflexivity. Qed.

Lemma shl_SerialPortInfo_run w info :
  operator_shl_SerialPortInfo w info
  = followed_by w (indentation w (length (tagStack w))
                   ++ tokens (serial_node info)).
Proof.
  unfold operator_shl_SerialPortInfo, serial_node, serial_attributes,
    followed_by, written, writeStartElement.
  generalize (portName info) (systemLocation info) (description info)
    (manufacturer info) (serialNumber info) (hex (vendorIdentifier info))
    (hex (productIdentifier info)).
  intros s1 s2 s3 s4 s5 h1 h2.
  destruct (isNull info); cbn [negb].
  - rewrite writeEndElement_open. cbn [start_tag tokens flat_map app].
    by rewrite <- !app_assoc.
  - rewrite !writeAttribute_open.
    destruct (hasVendorIdentifier info), (hasProductIdentifier info);
      rewrite ?writeAttribute_open, writeEndElement_open;
      cbn [start_tag tokens flat_map app];
      by rewrite <- !app_assoc.
Qed.

Lemma followed_by_twice w a b :
  followed_by (followed_by w a) b = followed_by w (a ++ b).
Proof. unfold followed_by, written. simpl. by rewrite app_nil_r, app_assoc. Qed.

Lemma shl_QList_run ports : ∀ w added,
  operator_shl_QList operator_shl_SerialPortInfo (followed_by w added) ports
  = followed_by w
      (added ++ flat_map (λ info, indentation w (length (tagStack w))
                                  ++ tokens (serial_node info)) ports).
Proof.
  induction ports as [|p ports IH]; intros w added.
  - simpl. by rewrite app_nil_r.
  - cbn [operator_shl_QList fold_left flat_map].
    rewrite shl_SerialPortInfo_run, followed_by_twice.
    fold (operator_shl_QList operator_shl_SerialPortInfo).
    unfold operator_shl_QList in IH. rewrite IH.
    by rewrite <- !app_assoc.
Qed.

Lemma flat_map_append {A B} (f : A → list B) l1 l2 :
  flat_map f (l1 ++ l2) = flat_map f l1 ++ flat_map f l2.
Proof. induction l1; simpl; [done|]. by rewrite IHl1, app_assoc. Qed.

Lemma writeEndElement_closed F n T b i :
  writeEndElement
    {| finished := F; inStartElement := None; tagStack := n :: T;
       lastWasStartElement := false; autoFormatting := b;
       autoFormattingIndent := i |}
  = {| finished :=
         F ++ indentation
                {| finished := F; inStartElement := None; tagStack := n :: T;
                   lastWasStartElement := false; autoFormatting := b;
                   autoFormattingIndent := i |} (length T)
           ++ [EndElement n];
       inStartElement := None; tagStack := T;
       lastWasStartElement := false; autoFormatting := b;
       autoFormattingIndent := i |}.
Proof. reflexivity. Qed.

Lemma indentation_flags w w' level :
  autoFormatting w = autoFormatting w' →
  autoFormattingIndent w = autoFormattingIndent w' →
  indentation w level = indentation w' level.
Proof. unfold indentation. by intros -> ->. Qed.

Lemma serial_nodes_tokens w level ports :
  flat_map tokens
    (flat_map (λ info, indentation_nodes w level ++ [serial_node info]) ports)
  = flat_map (λ info, indentation w level ++ tokens (serial_node info)) ports.
Proof.
  induction ports as [|p ports IH]; [done|].
  cbn [flat_map]. rewrite !flat_map_append, indentation_tokens, IH.
  cbn [flat_map]. by rewrite app_nil_r.
Qed.

Section Written.
Context `{QtDateTime}.

Lemma shl_XmlReplayEvent_run w event :
  operator_shl_XmlReplayEvent w event
  = followed_by w (indentation w (length (tagStack w))
                   ++ tokens (event_node w (length (tagStack w)) event)).
Proof.
  unfold operator_shl_XmlReplayEvent, GetAvailablePortsEvent_write, tag,
    event_node.
  generalize (toString_ISODateWithMs (m_time event)). intros time.
  unfold writeStartElement. rewrite writeAttribute_open.
  unfold event_children. cbn [tokens].
  rewrite flat_map_append, serial_nodes_tokens.
  destruct (m_ports event) as [|p ports].
  - cbn [operator_shl_QList fold_left flat_map app].
    rewrite writeEndElement_open. unfold followed_by, written.
    cbn [start_tag app]. by rewrite <- !app_assoc.
  - set (w1 := {| finished := _; inStartElement := Some _ |}).
    change (p :: ports) with ([p] ++ ports) at 1.
    unfold operator_shl_QList at 1. rewrite fold_left_app.
    cbn [fold_left]. rewrite shl_SerialPortInfo_run.
    match goal with
    | |- context [fold_left operator_shl_SerialPortInfo ports ?x] =>
        change (fold_left operator_shl_SerialPortInfo ports x)
          with (operator_shl_QList operator_shl_SerialPortInfo x ports)
    end.
    rewrite shl_QList_run. unfold followed_by at 1.
    cbn [tagStack w1]. rewrite writeEndElement_closed.
    rewrite !(indentation_flags _ w) by done.
    rewrite indentation_tokens.
    unfold followed_by, written, w1.
    cbn [finished inStartElement start_tag length tagStack autoFormatting
         autoFormattingIndent].
    cbn [flat_map]. rewrite <- ?app_assoc. cbn [app].
    match goal with
    | |- context [indentation ?r (length (tagStack w))] =>
        lazymatch r with
        | w => fail
        | _ => rewrite (indentation_flags r w (length (tagStack w))
                          eq_refl eq_refl)
        end
    end.
    reflexivity.
Qed.

Lemma written_shl_XmlReplayEvent w event :
  written (operator_shl_XmlReplayEvent w event)
  = written w ++ indentation w (length (tagStack w))
    ++ tokens (event_node w (length (tagStack w)) event).
Proof.
  rewrite shl_XmlReplayEvent_run. unfold followed_by, written at 1.
  cbn [finished inStartElement start_tag]. by rewrite app_nil_r.
Qed.

End Written.

(** ** An event written and read back *)

Lemma next_start_indentation w level l :
  readNextStartElement_from (indentation w level ++ l)
  = readNextStartElement_from l.
Proof. unfold indentation. by destruct (autoFormatting w). Qed.

Lemma elements_app l1 l2 : elements (l1 ++ l2) = elements l1 ++ elements l2.
Proof. apply filter_app. Qed.

Lemma event_children_elements w level ports :
  elements (event_children w level ports) = map serial_node ports.
Proof.
  unfold event_children. rewrite elements_app.
  assert (elements match ports with
                   | [] => []
                   | _ :: _ => indentation_nodes w level
                   end = []) as ->.
  { destruct ports; [done|apply indentation_elements]. }
  rewrite app_nil_r. induction ports as [|p ports IH]; [done|].
  cbn [flat_map map]. rewrite !elements_app, indentation_elements, IH.
  done.
Qed.

Section Round_trip.
Context `{QtDateTime}.

Lemma read_canonical_ports ports :
  forallb canonical ports = true →
  map serial_info (map serial_node ports) = ports.
Proof.
  rewrite forallb_forall. intros Hc.
  induction ports as [|p ports IH]; [done|].
  cbn [map]. unfold serial_node at 1.
  rewrite serial_info_canonical by (apply Hc; by left).
  f_equal. apply IH. intros q Hq. apply Hc. by right.
Qed.

(** C4, as amended.  An event whose descriptors are canonical (each one
    null, or with exactly the five text attributes and optional 16-bit
    vendor and product identifiers) is read back with the same port list:
    equal, and equal element by element under [operator==].  The reading
    completes, logs nothing and consumes exactly the element written.
    Nothing is said about the time stamp. *)
Theorem canonical_round_trip w event fresh rest s :
  forallb canonical (m_ports event) = true →
  ∃ xml event',
    read_back w event fresh rest s = Some ((xml, event'), s)
    ∧ input xml = rest
    ∧ m_ports event' = m_ports event
    ∧ same_ports (m_ports event') (m_ports event).
Proof.
  intros Hc. unfold read_back.
  rewrite written_shl_XmlReplayEvent, drop_app_length. unfold event_node.
  rewrite next_start_valid by done. cbn [input].
  rewrite <- app_assoc, next_start_indentation, next_start_element.
  rewrite shr_XmlReplayEvent_run.
  cbn [hasAttribute existsb fst]. rewrite bool_decide_eq_true_2 by done.
  cbn [orb].
  unfold ports_of_element, ports_warnings. cbn [node_children].
  rewrite event_children_elements.
  pose proof (read_canonical_ports _ Hc) as Hports.
  assert (Hwarn : flat_map serial_warnings (map serial_node (m_ports event))
                  = []).
  { clear Hports. rewrite forallb_forall in Hc.
    induction (m_ports event) as [|p ports IH]; [done|].
    cbn [map flat_map]. unfold serial_node at 1.
    rewrite serial_warnings_canonical by (apply Hc; by left).
    cbn [app]. apply IH. intros q Hq. apply Hc. by right. }
  rewrite Hports, Hwarn, log_nil.
  eexists _, _. split_and!; [done|done|done|].
  cbn [m_ports]. unfold same_ports. apply Forall2_same_length_lookup_2; [done|].
  intros i x y Hx Hy. rewrite Hx in Hy. injection Hy as ->.
  by apply bool_decide_eq_true_2.
Qed.

End Round_trip.

(** ** Time stamps and the setters of a serial port *)

Lemma shr_keeps_m_time `{QtDateTime} xml event s r :
  operator_shr_XmlReplayEvent xml event s = Some r →
  m_time r.1.2 = m_time event.
Proof.
  unfold operator_shr_XmlReplayEvent, GetAvailablePortsEvent_read. steps.
  destruct (_ && _); [|done].
  destruct (hasAttribute _ _); steps;
    match goal with
    | |- context [operator_shr_QList ?a ?b ?c ?d ?e] =>
        destruct (operator_shr_QList a b c d e) as [[[] ]|]
    end; intros; by simplify_eq.
Qed.

(** C2.  The element carries a [time] attribute, and the event read from
    it keeps the time of its construction, which is not the time the
    attribute parses to. *)
Theorem timestamp_not_restored :
  ∃ xml event s,
    deserialize_stamped = Some ((xml, event), s)
    ∧ m_time event = @currentDateTime text_time 0
    ∧ m_time event
      ≠ @fromString_ISODateWithMs text_time
          (value (attributes_of stamped_element) "time").
Proof.
  eexists _, _, _. split_and!.
  - reflexivity.
  - reflexivity.
  - vm_compute. discriminate.
Qed.

Section Setters.
Context `{QtDateTime} `{QtSerialPort}.

Lemma finish_set_failure event port' p :
  m_values event !! "error" = None →
  in_process (finish_set event (false, port')) p
  = Some ((false, {| m_port := port' |}),
          {| instance := instance p;
             state := log [qDebug_xml
                             (SetValueEvent_to_QString
                                (SetValueEvent_set "error" (port_error port')
                                   event))]
                        (state p) |}).
Proof.
  intros He. unfold in_process, finish_set. steps. cbn [negb].
  unfold SetValueEvent_ok, SetValueEvent_set at 1. cbn [m_values].
  rewrite bool_decide_eq_true_2; [done|].
  rewrite lookup_insert_eq. eauto.
Qed.

Lemma fold_writeAttribute (f : string → string) keys : ∀ name attributes w,
  inStartElement w = Some (name, attributes) →
  fold_left (λ xml key, writeAttribute key (f key) xml) keys w
  = {| finished := finished w;
       inStartElement := Some (name, attributes ++ map (λ k, (k, f k)) keys);
       tagStack := tagStack w;
       lastWasStartElement := lastWasStartElement w;
       autoFormatting := autoFormatting w;
       autoFormattingIndent := autoFormattingIndent w |}.
Proof.
  induction keys as [|k keys IH]; intros name attributes w Hw; simpl.
  - rewrite app_nil_r. destruct w as [? start ? ? ? ?]. simpl in Hw.
    rewrite Hw. reflexivity.
  - rewrite (IH name (attributes ++ [(k, f k)])).
    + unfold writeAttribute. rewrite Hw. simpl. rewrite <- app_assoc.
      reflexivity.
    + unfold writeAttribute. rewrite Hw. done.
Qed.

Lemma SetValueEvent_to_QString_eq event :
  SetValueEvent_to_QString event
  = [StartElement "set"
       (map (λ k, (k, QString_number (default 0%Z (m_values event !! k)) 10))
          (m_keys event));
     EndElement "set"].
Proof.
  unfold SetValueEvent_to_QString, operator_shl_SetValueEvent.
  erewrite (fold_writeAttribute
    (λ key, QString_number (default 0%Z (m_values event !! key)) 10));
    [|reflexivity].
  reflexivity.
Qed.

(** C7, as amended.  When the port refuses a setting, each of the five
    setters returns false and sends to [qDebug()] an event with the value
    attempted and the error code of the port; the manager and the trace it
    records are unchanged. *)
Theorem setter_failure_not_recorded (this : SerialPort) (p : Process) port' :
  (∀ baudRate directions,
     port_setBaudRate baudRate directions (m_port this) = (false, port') →
     fails_unrecorded
       (in_process (SerialPort_setBaudRate baudRate directions this) p) p
       [("baudRate", baudRate); ("directions", directions)] port')
  ∧ (∀ dataBits,
       port_setDataBits dataBits (m_port this) = (false, port') →
       fails_unrecorded (in_process (SerialPort_setDataBits dataBits this) p)
         p [("setDataBits", dataBits)] port')
  ∧ (∀ parity,
       port_setParity parity (m_port this) = (false, port') →
       fails_unrecorded (in_process (SerialPort_setParity parity this) p)
         p [("setParity", parity)] port')
  ∧ (∀ stopBits,
       port_setStopBits stopBits (m_port this) = (false, port') →
       fails_unrecorded (in_process (SerialPort_setStopBits stopBits this) p)
         p [("setStopBits", stopBits)] port')
  ∧ (∀ flowControl,
       port_setFlowControl flowControl (m_port this) = (false, port') →
       fails_unrecorded
         (in_process (SerialPort_setFlowControl flowControl this) p)
         p [("setFlowControl", flowControl)] port').
Proof.
  split_and!; intros;
    unfold SerialPort_setBaudRate, SerialPort_setDataBits,
      SerialPort_setParity, SerialPort_setStopBits, SerialPort_setFlowControl;
    match goal with Hp : _ = (false, port') |- _ => rewrite Hp end;
    (rewrite finish_set_failure; [|done]);
    eexists; (split_and!; [done| |done|done]);
    unfold log; cbn [state diagnostics]; do 2 f_equal;
    rewrite SetValueEvent_to_QString_eq; unfold failure_report;
    reflexivity.
Qed.

End Setters.

(** ** Replay through the manager *)

Section Claims.
Context `{QtDateTime}.

Lemma replayed_within stored j ports :
  stored !! j = Some ports → replayed stored j = ports.
Proof. unfold replayed. by intros ->. Qed.

Lemma replayed_beyond stored j :
  length stored ≤ j →
  replayed stored j = default [] (stored !! (length stored - 1)).
Proof.
  intros Hj. unfold replayed. rewrite lookup_ge_None_2 by done.
  rewrite last_lookup. by replace (pred (length stored))
    with (length stored - 1) by lia.
Qed.

Lemma replayed_from_start stored j :
  replayed_from stored 0 [] j = replayed stored j.
Proof. done. Qed.

(** C1.  Once a replay is started from a trace, call [j] of
    [getAvailablePorts()] returns the [j]-th port list stored in the trace,
    in document order; when the trace is exhausted every call returns the
    list of the last stored event, and the empty list if the trace stores
    none. *)
Theorem exhaustion_fallback prolog epilog name attributes children
    enumerations this s :
  let root := Element name attributes children in
  let stored := map ports_of_element (filter (named TAG) (trace_events root)) in
  ∃ this1 s1 this2 s2,
    DeviceConnectionManager_replay_string registered_classes
      (trace_document prolog root epilog) this s = Some (this1, s1)
    ∧ is_Some (m_replay this1)
    ∧ getAvailablePorts_calls enumerations this1 s1
      = Some ((map (replayed stored) (seq 0 (length enumerations)), this2),
              s2).
Proof.
  intros root stored. subst stored.
  unfold DeviceConnectionManager_replay_string. unfold mbind, M_bind.
  unfold root at 1. rewrite XmlReplay_new_run. fold root.
  set (st := load_root _ root).
  destruct (load_root_grows ({| m_events := ∅; m_indices := ∅ |}, s) root)
    as [Hports _ Hidx _]. fold st in Hports, Hidx.
  unfold mret, M_ret.
  match goal with
  | |- ∃ _ _ _ _, Some (?m, ?s1) = _ ∧ _ =>
      destruct (calls_replaying enumerations m st.1 0 s1) as (this2 & s2 & Hc)
  end.
  - done.
  - unfold cursor. by rewrite Hidx.
  - eexists _, _, this2, s2. split_and!; [done|by eexists|].
    rewrite Hc. do 3 f_equal. apply map_ext. intros j.
    cbn [m_serialPorts DeviceConnectionManager_reset].
    rewrite Hports. unfold stored_ports. cbn [m_events fst].
    rewrite lookup_empty. done.
Qed.

(** C6.  A trace with an event element of an unregistered tag loads: the
    store holds, in document order, the port lists of all the elements
    with the registered tag, nothing under any other tag, and the log has
    the warning for the unregistered element. *)
Theorem unknown_tag_tolerance prolog epilog attributes children unknown s :
  let root := Element "xmlreplay" attributes children in
  unknown ∈ trace_events root →
  node_name unknown ≠ TAG →
  ∃ replay s',
    XmlReplay_new registered_classes (trace_document prolog root epilog) s
    = Some (replay, s')
    ∧ stored_ports replay
      = map ports_of_element (filter (named TAG) (trace_events root))
    ∧ (∀ t, t ≠ TAG → m_events replay !! t = None)
    ∧ unknown_tag_warning unknown ∈ diagnostics s'.
Proof.
  intros root Hin Hname. unfold root at 1. rewrite XmlReplay_new_run.
  fold root.
  destruct (load_root_grows ({| m_events := ∅; m_indices := ∅ |}, s) root)
    as [Hports Hother _ (d & Hd & Hw)].
  eexists _, _. split_and!; [done|..].
  - rewrite Hports. unfold stored_ports. cbn [m_events fst].
    by rewrite lookup_empty.
  - intros t Ht. rewrite Hother by done. apply lookup_empty.
  - rewrite Hd. apply elem_of_app. right. apply Hw; [done|].
    by apply bool_decide_eq_false_2.
Qed.

(** C8.  While a replay is active and its store has an event left, two
    calls of [getAvailablePorts()] that differ only in what the system
    would enumerate have the same outcome, and the list returned is that
    of the next stored event. *)
Theorem replay_ignores_enumeration this replay events i event
    enumeration1 enumeration2 s :
  m_replay this = Some replay →
  m_events replay !! TAG = Some events →
  cursor TAG replay = Z.of_nat i →
  events !! i = Some event →
  DeviceConnectionManager_getAvailablePorts enumeration1 this s
  = DeviceConnectionManager_getAvailablePorts enumeration2 this s
  ∧ ∃ this' s',
      DeviceConnectionManager_getAvailablePorts enumeration1 this s
      = Some ((m_ports event, this'), s').
Proof.
  intros Hr He Hc Hi.
  rewrite !(getAvailablePorts_replaying _ _ _ _ Hr). split; [done|].
  destruct (getNextEvent_run TAG replay i Hc) as (H1 & _).
  rewrite He in H1. cbn [from_option id] in H1. rewrite Hi in H1.
  cbv zeta. rewrite H1. eauto.
Qed.

(** C3.  For a stored tag whose cursor is at [c], [n] calls of
    [getNextEvent] return the events at [c], [c + 1], ... in the stored
    order, absent once the end is reached; the cursor moves by one for
    each event returned and stays at the end afterwards. *)
Theorem cursor_monotonicity type events c n this :
  m_events this !! type = Some events →
  cursor type this = Z.of_nat c →
  let r := getNextEvent_calls n type this in
  r.1 = map (λ j, events !! (c + j)) (seq 0 n)
  ∧ cursor type r.2 = Z.of_nat (c + min n (length events - c))
  ∧ m_events r.2 = m_events this.
Proof.
  intros He Hc. destruct (getNextEvent_calls_run type n this c Hc)
    as (H1 & H2 & H3).
  rewrite He in H1, H3. done.
Qed.

End Claims.

(** ** The scenario: record, then replay *)

Section Scenario.
Context `{QtDateTime}.

Lemma recorded_trace_tree event :
  XmlRecord_delete
    {| m_xml := operator_shl_XmlReplayEvent (m_xml XmlRecord_new) event |}
  = indentation (m_xml XmlRecord_new) 0 ++ tokens (recorded_tree event).
Proof.
  unfold XmlRecord_delete, XmlRecord_epilogue. cbn [m_xml].
  rewrite shl_XmlReplayEvent_run.
  change (length (tagStack (m_xml XmlRecord_new))) with 2.
  unfold recorded_tree. cbv zeta.
  generalize (event_node (m_xml XmlRecord_new) 2 event). intros node.
  unfold followed_by, indentation, indentation_nodes, written.
  cbn -[tokens]. cbn [tokens flat_map app]. rewrite <- ?app_assoc.
  reflexivity.
Qed.

Lemma live_ports_canonical enumeration :
  Forall (λ q, is_quint16 (qt_vendorIdentifier q)
               ∧ is_quint16 (qt_productIdentifier q)) enumeration →
  forallb canonical (map SerialPortInfo_of enumeration) = true.
Proof.
  induction 1 as [|q l [Hv Hp] _ IH]; [done|].
  cbn [map forallb]. by rewrite SerialPortInfo_of_canonical, IH.
Qed.

Lemma getAvailablePorts_live enumeration this s :
  m_replay this = None →
  DeviceConnectionManager_getAvailablePorts enumeration this s
  = let ports := map SerialPortInfo_of enumeration in
    Some ((ports,
           {| m_record :=
                XmlReplayEvent_record
                  {| m_time := currentDateTime (ticks s); m_ports := ports |}
                  (m_record this);
              m_replay := None;
              m_serialPorts := ports |}),
          advance 1 s).
Proof.
  intros Hr. unfold DeviceConnectionManager_getAvailablePorts,
    GetAvailablePortsEvent_new.
  steps. by rewrite Hr.
Qed.

Lemma recorded_tree_events event :
  trace_events (recorded_tree event)
  = [event_node (m_xml XmlRecord_new) 2 event].
Proof. reflexivity. Qed.

Lemma recorded_trace_document event :
  document
    (XmlRecord_delete
       {| m_xml := operator_shl_XmlReplayEvent (m_xml XmlRecord_new) event |})
  = trace_document [Text (text ["010"%char])] (recorded_tree event) [].
Proof.
  rewrite recorded_trace_tree. unfold trace_document.
  by rewrite app_nil_r.
Qed.

(** The scenario of the specification.  A live call of
    [getAvailablePorts()] under a new recording returns the ports the
    system enumerates; once the recording is closed, a replay of its
    trace returns the same list at its first call, whatever the system
    would enumerate then. *)
Theorem record_then_replay enumeration s :
  Forall (λ q, is_quint16 (qt_vendorIdentifier q)
               ∧ is_quint16 (qt_productIdentifier q)) enumeration →
  let live := map SerialPortInfo_of enumeration in
  let recording :=
    (DeviceConnectionManager_record_string DeviceConnectionManager_new).2 in
  ∃ recorded s1 trace,
    DeviceConnectionManager_getAvailablePorts enumeration recording s
    = Some ((live, recorded), s1)
    ∧ (DeviceConnectionManager_record_file false recorded).1 = Some trace
    ∧ ∀ this s2 other,
        ∃ replaying s3 this' s4,
          DeviceConnectionManager_replay_string registered_classes
            (document trace) this s2 = Some (replaying, s3)
          ∧ DeviceConnectionManager_getAvailablePorts other replaying s3
            = Some ((live, this'), s4).
Proof.
  intros Hq live recording.
  rewrite getAvailablePorts_live by done. cbv zeta. fold live.
  eexists _, _, _. split_and!; [reflexivity|reflexivity|].
  intros this s2 other.
  set (event := {| m_time := currentDateTime (ticks s); m_ports := live |}).
  cbn [m_record recording DeviceConnectionManager_record_string snd
       XmlReplayEvent_record].
  rewrite recorded_trace_document.
  unfold DeviceConnectionManager_replay_string, mbind, M_bind.
  unfold recorded_tree at 1. rewrite XmlReplay_new_run.
  fold (recorded_tree event).
  destruct (load_root_grows ({| m_events := ∅; m_indices := ∅ |}, s2)
              (recorded_tree event)) as [Hports _ Hidx _].
  set (st := load_root _ (recorded_tree event)) in *.
  unfold mret, M_ret. eexists _, _, _, _. split; [reflexivity|].
  erewrite getAvailablePorts_replaying by reflexivity. cbv zeta.
  assert (Hc : cursor TAG st.1 = Z.of_nat 0).
  { unfold cursor. by rewrite Hidx. }
  destruct (getNextEvent_run TAG st.1 0 Hc) as (H1 & _).
  assert (Hev : map m_ports (default [] (m_events st.1 !! TAG)) = [live]).
  { fold (stored_ports st.1). rewrite Hports, recorded_tree_events.
    unfold stored_ports. cbn [fst m_events]. rewrite lookup_empty.
    cbn [from_option map app filter].
    rewrite filter_cons_True by done. rewrite filter_nil. cbn [map].
    unfold ports_of_element, event_node. cbn [node_children m_ports event].
    rewrite event_children_elements, read_canonical_ports; [done|].
    by apply live_ports_canonical. }
  destruct (default [] (m_events st.1 !! TAG)) as [|e [|? ?]]; try done.
  injection Hev as Hev. cbn [lookup list_lookup] in H1.
  rewrite H1. cbn [m_ports]. rewrite Hev. reflexivity.
Qed.

End Scenario.

Lemma cursor_monotonicity_witness :
  m_events sample_store !! TAG
  = Some [sample_event 0 [partial_port]; sample_event 1 []]
  ∧ cursor TAG sample_store = Z.of_nat 0
  ∧ (getNextEvent_calls 3 TAG sample_store).1
    = [Some (sample_event 0 [partial_port]); Some (sample_event 1 []); None].
Proof.
  assert (H1 : m_events sample_store !! TAG
               = Some [sample_event 0 [partial_port]; sample_event 1 []])
    by reflexivity.
  assert (H2 : cursor TAG sample_store = Z.of_nat 0) by reflexivity.
  split; [exact H1|]. split; [exact H2|].
  exact (proj1 (cursor_monotonicity TAG _ 0 3 sample_store H1 H2)).
Defined.

(** ** Witnesses and counterexamples *)

Lemma foreign_port_parsed :
  SerialPortInfo_of_data
    (document [StartElement "serial" foreign_attributes; EndElement "serial"])
    start_state
  = Some (foreign_port, start_state).
Proof. reflexivity. Qed.

Lemma round_trip_counterexample :
  match foreign_read_back with
  | Some ((_, event'), _) => ¬ same_ports (m_ports event') [foreign_port]
  | None => False
  end.
Proof.
  let r := eval vm_compute in foreign_read_back in
  assert (foreign_read_back = r) as -> by (vm_compute; reflexivity).
  intros Hsame. inversion Hsame as [|? ? ? ? Heq].
  apply bool_decide_eq_true_1 in Heq.
  apply (f_equal (λ m, m !! "interface")) in Heq.
  vm_compute in Heq. discriminate.
Qed.

Lemma setter_failure_counterexample :
  match failed_setBaudRate with
  | Some ((ok, _), p') => ok = false ∧ ¬ set_element_recorded p'
  | None => False
  end.
Proof.
  let r := eval vm_compute in failed_setBaudRate in
  assert (failed_setBaudRate = r) as -> by (vm_compute; reflexivity).
  split; [done|]. intros [attributes Hin]. unfold recorded_trace in Hin.
  vm_compute in Hin.
  repeat (apply elem_of_cons in Hin as [Hin|Hin]; [discriminate|]).
  by apply elem_of_nil in Hin.
Qed.

Lemma setter_failure_not_recorded_witness :
  @port_setBaudRate (failing_port 1) 9600 3 ()
  = (false, (() : @QSerialPort (failing_port 1)))
  ∧ @fails_unrecorded text_time (failing_port 1) failed_setBaudRate
      recording_process [("baudRate", 9600%Z); ("directions", 3%Z)]
      (() : @QSerialPort (failing_port 1)).
Proof.
  split; [reflexivity|].
  apply (proj1 (@setter_failure_not_recorded text_time (failing_port 1)
                  (@Build_SerialPort (failing_port 1) ()) recording_process
                  (() : @QSerialPort (failing_port 1)))).
  reflexivity.
Defined.

Lemma unknown_tag_tolerance_witness :
  Element "openPort" [] [Element "serial" [] []] ∈ trace_events mixed_trace
  ∧ "openPort" ≠ TAG
  ∧ ∃ replay s',
      @XmlReplay_new text_time registered_classes
        (trace_document [Remark " recorded elsewhere "] mixed_trace [])
        start_state = Some (replay, s')
      ∧ stored_ports replay
        = map ports_of_element (filter (named TAG) (trace_events mixed_trace))
      ∧ (∀ t, t ≠ TAG → m_events replay !! t = None)
      ∧ unknown_tag_warning (Element "openPort" [] [Element "serial" [] []])
        ∈ diagnostics s'.
Proof.
  assert (H1 : Element "openPort" [] [Element "serial" [] []]
               ∈ trace_events mixed_trace).
  { vm_compute. apply list_elem_of_further, list_elem_of_here. }
  assert (H2 : "openPort" ≠ TAG) by discriminate.
  split; [exact H1|]. split; [exact H2|].
  exact (@unknown_tag_tolerance text_time [Remark " recorded elsewhere "] []
           [] _ _ start_state H1 H2).
Defined.

Lemma replay_ignores_enumeration_witness :
  m_replay replaying_manager = Some sample_store
  ∧ m_events sample_store !! TAG
    = Some [sample_event 0 [partial_port]; sample_event 1 []]
  ∧ cursor TAG sample_store = Z.of_nat 0
  ∧ [sample_event 0 [partial_port]; sample_event 1 []] !! 0
    = Some (sample_event 0 [partial_port])
  ∧ DeviceConnectionManager_getAvailablePorts [] replaying_manager start_state
    = DeviceConnectionManager_getAvailablePorts [one_port] replaying_manager
        start_state.
Proof.
  assert (H1 : m_replay replaying_manager = Some sample_store) by reflexivity.
  assert (H2 : m_events sample_store !! TAG
               = Some [sample_event 0 [partial_port]; sample_event 1 []])
    by reflexivity.
  assert (H3 : cursor TAG sample_store = Z.of_nat 0) by reflexivity.
  assert (H4 : [sample_event 0 [partial_port]; sample_event 1 []] !! 0
               = Some (sample_event 0 [partial_port])) by reflexivity.
  split_and!; [exact H1|exact H2|exact H3|exact H4|].
  exact (proj1 (@replay_ignores_enumeration text_time _ _ _ 0 _ [] [one_port]
                  start_state H1 H2 H3 H4)).
Defined.

Lemma invalid_identifier_left_absent_witness :
  is_identifier "vendorIdentifier" = true
  ∧ NoDup bad_vendor_attributes.*1
  ∧ ("vendorIdentifier", "0xZZ") ∈ bad_vendor_attributes
  ∧ QString_toUInt "0xZZ" = None
  ∧ m_info SerialPortInfo_new !! "vendorIdentifier" = None
  ∧ ∃ xml' info' s',
      operator_shr_SerialPortInfo
        {| token := StartElement "serial" bad_vendor_attributes;
           input := [EndElement "serial"] |} SerialPortInfo_new start_state
      = Some ((xml', info'), s')
      ∧ m_info info' !! "vendorIdentifier" = None.
Proof.
  assert (H1 : is_identifier "vendorIdentifier" = true) by reflexivity.
  assert (H2 : NoDup bad_vendor_attributes.*1).
  { apply (bool_decide_unpack _). by vm_compute. }
  assert (H3 : ("vendorIdentifier", "0xZZ") ∈ bad_vendor_attributes).
  { apply list_elem_of_further, list_elem_of_here. }
  assert (H4 : QString_toUInt "0xZZ" = None) by reflexivity.
  assert (H5 : m_info SerialPortInfo_new !! "vendorIdentifier" = None)
    by reflexivity.
  split_and!; [exact H1|exact H2|exact H3|exact H4|exact H5|].
  destruct (invalid_identifier_left_absent bad_vendor_attributes
              [EndElement "serial"] "vendorIdentifier" "0xZZ"
              SerialPortInfo_new start_state H1 H2 H3 H4 H5)
    as (xml' & info' & s' & Hrun & Habsent & _).
  exists xml', info', s'. split; assumption.
Defined.

Lemma null_descriptor_round_trip_witness :
  isNull SerialPortInfo_new = true
  ∧ SerialPortInfo_to_data SerialPortInfo_new
    = document [StartElement "serial" []; EndElement "serial"].
Proof.
  assert (H1 : isNull SerialPortInfo_new = true) by reflexivity.
  split; [exact H1|].
  exact (proj1 (null_descriptor_round_trip SerialPortInfo_new start_state H1)).
Defined.

Lemma canonical_round_trip_witness :
  forallb canonical (m_ports live_event) = true
  ∧ ∃ xml event',
      read_back (m_xml XmlRecord_new) live_event
        (@GetAvailablePortsEvent text_time (millisecond 1) []) []
        start_state = Some ((xml, event'), start_state)
      ∧ m_ports event' = m_ports live_event.
Proof.
  assert (H1 : forallb canonical (m_ports live_event) = true)
    by (vm_compute; reflexivity).
  split; [exact H1|].
  destruct (@canonical_round_trip text_time (m_xml XmlRecord_new) live_event
              (@GetAvailablePortsEvent text_time (millisecond 1) []) []
              start_state H1) as (xml & event' & Hrun & _ & Hports & _).
  exists xml, event'. split; assumption.
Defined.

(** The scenario of the specification, on two ports. *)
Example sample_scenario_same :
  ∃ ports, sample_scenario = Some (ports, ports) ∧ length ports = 2.
Proof.
  eexists. split; [vm_compute; reflexivity|reflexivity].
Qed.

(** * Further properties of the code

    Properties read off the code itself, besides those the specification
    states: what a recording holds and how it replays, the loading of
    documents that are malformed or are no traces, the registry, the
    cursors of several types, descriptors as text, and the events of the
    setters. *)

(** ** What a recording holds *)

Section Recorded.
Context `{QtDateTime}.

Lemma event_node_flags w w' level event :
  autoFormatting w = autoFormatting w' →
  autoFormattingIndent w = autoFormattingIndent w' →
  event_node w level event = event_node w' level event.
Proof.
  intros Ha Hi. unfold event_node, event_children, indentation_nodes.
  by rewrite Ha, Hi.
Qed.

Lemma shl_events_run events : ∀ w added,
  fold_left operator_shl_XmlReplayEvent events (followed_by w added)
  = followed_by w
      (added
       ++ flat_map (λ event, indentation w (length (tagStack w))
                             ++ tokens (event_node w (length (tagStack w))
                                          event)) events).
Proof.
  induction events as [|e events IH]; intros w added.
  - cbn [fold_left flat_map]. by rewrite app_nil_r.
  - cbn [fold_left flat_map]. rewrite shl_XmlReplayEvent_run.
    rewrite followed_by_twice, IH.
    cbn [followed_by tagStack].
    rewrite (indentation_flags (followed_by w added) w) by done.
    rewrite (event_node_flags (followed_by w added) w) by done.
    by rewrite <- !app_assoc.
Qed.

Lemma shl_events_new event events :
  fold_left operator_shl_XmlReplayEvent (event :: events) (m_xml XmlRecord_new)
  = followed_by (m_xml XmlRecord_new)
      (flat_map (λ event, indentation (m_xml XmlRecord_new) 2
                          ++ tokens (event_node (m_xml XmlRecord_new) 2 event))
         (event :: events)).
Proof.
  cbn [fold_left]. rewrite shl_XmlReplayEvent_run, shl_events_run.
  reflexivity.
Qed.

Lemma event_nodes_tokens w level (events : list XmlReplayEvent) :
  flat_map tokens
    (flat_map (λ event, indentation_nodes w level ++ [event_node w level event])
       events)
  = flat_map (λ event, indentation w level ++ tokens (event_node w level event))
      events.
Proof.
  induction events as [|e events IH]; [done|].
  cbn [flat_map]. rewrite !flat_map_append, indentation_tokens, IH.
  cbn [flat_map]. by rewrite app_nil_r.
Qed.

Lemma recorded_events_tree_tokens (events : list XmlReplayEvent) :
  let w := m_xml XmlRecord_new in
  tokens (recorded_events_tree events)
  = StartElement "xmlreplay" []
      :: indentation w 1
      ++ StartElement "events" []
      :: flat_map (λ event, indentation w 2 ++ tokens (event_node w 2 event))
           events
      ++ match events with [] => [] | _ => indentation w 1 end
      ++ EndElement "events" :: indentation w 0 ++ [EndElement "xmlreplay"].
Proof.
  intros w. unfold recorded_events_tree. cbv zeta. fold w.
  rewrite <- (app_nil_r (tokens _)), tokens_element.
  rewrite !flat_map_append, indentation_tokens.
  change (flat_map tokens [?n]) with (tokens n ++ []).
  rewrite <- !app_assoc, tokens_element.
  rewrite flat_map_append, event_nodes_tokens, indentation_tokens.
  rewrite <- !app_assoc. cbn [app].
  by destruct events; rewrite ?indentation_tokens.
Qed.

Lemma recorded_events_closed events :
  document
    (XmlRecord_delete
       {| m_xml := fold_left operator_shl_XmlReplayEvent events
                     (m_xml XmlRecord_new) |})
  = recorded_document events.
Proof.
  unfold recorded_document, trace_document. rewrite app_nil_r. f_equal.
  rewrite recorded_events_tree_tokens. cbv zeta.
  unfold XmlRecord_delete, XmlRecord_epilogue. cbn [m_xml].
  destruct events as [|e events].
  - reflexivity.
  - rewrite shl_events_new.
    generalize (flat_map
                  (λ event, indentation (m_xml XmlRecord_new) 2
                            ++ tokens (event_node (m_xml XmlRecord_new) 2 event))
                  (e :: events)).
    intros body.
    unfold followed_by, indentation, written.
    cbn. rewrite <- ?app_assoc. reflexivity.
Qed.

Lemma flat_map_one {A B} (f : A → list B) x : flat_map f [x] = f x.
Proof. simpl. apply app_nil_r. Qed.

Lemma recorded_events_tree_events events :
  trace_events (recorded_events_tree events)
  = map (event_node (m_xml XmlRecord_new) 2) events.
Proof.
  unfold trace_events, recorded_events_tree, named. cbv zeta.
  cbn [node_name node_children].
  rewrite bool_decide_eq_true_2 by done.
  rewrite !elements_app, !indentation_elements. cbn [app].
  rewrite elements_cons_element.
  change (elements []) with (@nil Node).
  rewrite app_nil_r, flat_map_one.
  unfold container_events, named. cbn [node_name node_children].
  rewrite bool_decide_eq_true_2 by done.
  rewrite elements_app.
  assert (elements match events with
                   | [] => []
                   | _ :: _ => indentation_nodes (m_xml XmlRecord_new) 1
                   end = []) as ->.
  { destruct events; [done|apply indentation_elements]. }
  rewrite app_nil_r.
  induction events as [|e events IH]; [done|].
  cbn [flat_map map]. rewrite !elements_app, indentation_elements, IH.
  done.
Qed.

End Recorded.

Section Sessions.
Context `{QtDateTime}.

Lemma getAvailablePorts_step availablePorts this s :
  ∃ ports replay,
    DeviceConnectionManager_getAvailablePorts availablePorts this s
    = Some ((ports,
             {| m_record :=
                  XmlReplayEvent_record
                    {| m_time := currentDateTime (ticks s); m_ports := ports |}
                    (m_record this);
                m_replay := replay;
                m_serialPorts := ports |}),
            advance 1 s)
    ∧ (m_replay this = None →
       ports = map SerialPortInfo_of availablePorts ∧ replay = None).
Proof.
  destruct (m_replay this) as [replay|] eqn:Hr.
  - rewrite (getAvailablePorts_replaying _ _ _ _ Hr). cbv zeta.
    eexists _, _. split; [reflexivity|done].
  - rewrite getAvailablePorts_live by done. cbv zeta.
    eexists _, _. split; [reflexivity|done].
Qed.

Lemma calls_recorded enumerations : ∀ this s r,
  m_record this = Some r →
  ∃ results this' s',
    getAvailablePorts_calls enumerations this s = Some ((results, this'), s')
    ∧ length results = length enumerations
    ∧ m_record this'
      = Some {| m_xml := fold_left operator_shl_XmlReplayEvent
                           (events_at (ticks s) results) (m_xml r) |}
    ∧ ticks s' = length enumerations + ticks s
    ∧ diagnostics s' = diagnostics s
    ∧ (m_replay this = None →
       results = map (map SerialPortInfo_of) enumerations
       ∧ m_replay this' = None).
Proof.
  induction enumerations as [|a l IH]; intros this s r Hr.
  - eexists [], this, s. split_and!; try done. cbn. by destruct r.
  - cbn [getAvailablePorts_calls]. unfold mbind, M_bind.
    destruct (getAvailablePorts_step a this s)
      as (ports & replay & -> & Hlive).
    rewrite Hr. cbn [XmlReplayEvent_record].
    match goal with
    | |- context [getAvailablePorts_calls l ?m ?s1] =>
        destruct (IH m s1 _ eq_refl)
          as (results & this' & s' & -> & Hlen & Hrec & Ht & Hd & Hl)
    end.
    unfold mret, M_ret. eexists (ports :: results), this', s'.
    split_and!.
    + done.
    + cbn [length]. by rewrite Hlen.
    + rewrite Hrec. reflexivity.
    + rewrite Ht. cbn [length ticks advance]. lia.
    + by rewrite Hd.
    + intros Hnone. destruct (Hlive Hnone) as [-> ->].
      destruct (Hl eq_refl) as [-> Hn]. done.
Qed.

Lemma events_at_ports lists : ∀ n, map m_ports (events_at n lists) = lists.
Proof.
  induction lists as [|ports lists IH]; intros n; [done|].
  cbn [events_at map m_ports]. by rewrite IH.
Qed.

Lemma event_nodes_named w level (events : list XmlReplayEvent) :
  filter (named TAG) (map (event_node w level) events)
  = map (event_node w level) events.
Proof.
  induction events as [|e events IH]; [done|].
  cbn [map]. rewrite filter_cons_True by done. by rewrite IH.
Qed.

Lemma event_nodes_ports w level (events : list XmlReplayEvent) :
  Forall (λ event, forallb canonical (m_ports event) = true) events →
  map ports_of_element (map (event_node w level) events) = map m_ports events.
Proof.
  induction 1 as [|e events He _ IH]; [done|].
  cbn [map]. rewrite IH. f_equal.
  unfold ports_of_element, event_node. cbn [node_children].
  rewrite event_children_elements. by apply read_canonical_ports.
Qed.

Lemma event_nodes_elements w level (events : list XmlReplayEvent) :
  elements
    (flat_map (λ event, indentation_nodes w level ++ [event_node w level event])
       events)
  = map (event_node w level) events.
Proof.
  induction events as [|e events IH]; [done|].
  cbn [flat_map map]. rewrite !elements_app, indentation_elements, IH.
  done.
Qed.

Lemma canonical_ports_warnings ports :
  forallb canonical ports = true →
  flat_map serial_warnings (map serial_node ports) = [].
Proof.
  rewrite forallb_forall. intros Hc.
  induction ports as [|p ports IH]; [done|].
  cbn [map flat_map]. unfold serial_node at 1.
  rewrite serial_warnings_canonical by (apply Hc; by left).
  cbn [app]. apply IH. intros q Hq. apply Hc. by right.
Qed.

(** Loading the element written for an event with canonical descriptors
    logs nothing. *)
Lemma load_recorded_event w level event st :
  forallb canonical (m_ports event) = true →
  diagnostics (load_event st (event_node w level event)).2
  = diagnostics st.2.
Proof.
  intros Hc. destruct st as [this s].
  unfold load_event, event_node, named. cbn [node_name node_attributes].
  rewrite bool_decide_eq_true_2 by done.
  cbn [hasAttribute existsb fst]. rewrite bool_decide_eq_true_2 by done.
  cbn [orb snd]. unfold ports_warnings. cbn [node_children].
  by rewrite event_children_elements, canonical_ports_warnings, log_nil.
Qed.

Lemma load_recorded_events w level (events : list XmlReplayEvent) : ∀ st,
  Forall (λ event, forallb canonical (m_ports event) = true) events →
  diagnostics (fold_left load_event (map (event_node w level) events) st).2
  = diagnostics st.2.
Proof.
  induction events as [|e events IH]; intros st Hc; [done|].
  apply Forall_cons in Hc as [He Hc]. cbn [map fold_left].
  rewrite IH by done. by apply load_recorded_event.
Qed.

Lemma load_root_recorded st (events : list XmlReplayEvent) :
  load_root st (recorded_events_tree events)
  = fold_left load_event (map (event_node (m_xml XmlRecord_new) 2) events) st.
Proof.
  unfold load_root, recorded_events_tree, named. cbv zeta.
  cbn [node_name node_children].
  rewrite bool_decide_eq_true_2 by done.
  rewrite !elements_app, !indentation_elements. cbn [app].
  rewrite elements_cons_element.
  change (elements []) with (@nil Node).
  rewrite app_nil_r. cbn [fold_left].
  unfold load_container, named. cbn [node_name node_children].
  rewrite bool_decide_eq_true_2 by done.
  rewrite elements_app, event_nodes_elements.
  assert (elements match events with
                   | [] => []
                   | _ :: _ => indentation_nodes (m_xml XmlRecord_new) 1
                   end = []) as ->.
  { destruct events; [done|apply indentation_elements]. }
  by rewrite app_nil_r.
Qed.

(** A replay of the closed recording of the events [events], whose
    descriptors are canonical: loading logs nothing, every call returns
    the list of the event at its place, and the last list once the events
    are used up. *)
Lemma recorded_document_replays (events : list XmlReplayEvent) others this s :
  Forall (λ event, forallb canonical (m_ports event) = true) events →
  ∃ replaying s1 this' s2,
    DeviceConnectionManager_replay_string registered_classes
      (recorded_document events) this s = Some (replaying, s1)
    ∧ diagnostics s1 = diagnostics s
    ∧ getAvailablePorts_calls others replaying s1
      = Some ((map (replayed (map m_ports events)) (seq 0 (length others)),
               this'), s2).
Proof.
  intros Hc.
  unfold DeviceConnectionManager_replay_string, mbind, M_bind.
  unfold recorded_document, recorded_events_tree. cbv zeta.
  rewrite XmlReplay_new_run.
  fold (recorded_events_tree events).
  destruct (load_root_grows ({| m_events := ∅; m_indices := ∅ |}, s)
              (recorded_events_tree events)) as [Hports _ Hidx _].
  pose proof (load_recorded_events (m_xml XmlRecord_new) 2 events
                ({| m_events := ∅; m_indices := ∅ |}, s) Hc) as Hlog.
  rewrite <- load_root_recorded in Hlog.
  set (st := load_root _ (recorded_events_tree events)) in *.
  unfold mret, M_ret.
  match goal with
  | |- ∃ _ _ _ _, Some (?m, ?s1) = _ ∧ _ =>
      destruct (calls_replaying others m st.1 0 s1) as (this' & s2 & Hcalls)
  end.
  - done.
  - unfold cursor. by rewrite Hidx.
  - eexists _, _, this', s2. split; [reflexivity|]. split; [exact Hlog|].
    rewrite Hcalls. do 3 f_equal. apply map_ext. intros j.
    cbn [m_serialPorts DeviceConnectionManager_reset].
    rewrite Hports. unfold stored_ports at 1. cbn [m_events fst].
    rewrite lookup_empty. cbn [from_option map app].
    rewrite recorded_events_tree_events, event_nodes_named,
      event_nodes_ports by done.
    reflexivity.
Qed.

Lemma calls_live enumerations : ∀ this s,
  m_replay this = None →
  ∃ this' s',
    getAvailablePorts_calls enumerations this s
    = Some ((map (map SerialPortInfo_of) enumerations, this'), s')
    ∧ m_replay this' = None
    ∧ (m_record this = None → m_record this' = None)
    ∧ ticks s' = length enumerations + ticks s
    ∧ diagnostics s' = diagnostics s.
Proof.
  induction enumerations as [|a l IH]; intros this s Hr.
  - by eexists this, s.
  - cbn [getAvailablePorts_calls]. unfold mbind, M_bind.
    rewrite getAvailablePorts_live by done. cbv beta iota zeta.
    match goal with
    | |- context [getAvailablePorts_calls l ?m ?s1] =>
        destruct (IH m s1 eq_refl) as (this' & s' & -> & Hn & Hrec & Ht & Hd)
    end.
    unfold mret, M_ret. eexists this', s'. split_and!.
    + done.
    + done.
    + intros Hnone. apply Hrec. cbn [m_record]. by rewrite Hnone.
    + rewrite Ht. cbn [length ticks advance]. lia.
    + by rewrite Hd.
Qed.

(** X18.  Passing the null pointer to [record] and to [replay], in their
    variants on a file, brings the manager back to live operation, whatever
    its state was: no recording, no replay, and every later call of
    [getAvailablePorts()] returns what the system enumerates, reads the
    clock once and logs nothing. *)
Theorem null_targets_return_to_live s_factories enumerations this s :
  let this1 := (DeviceConnectionManager_record_file false this).2 in
  ∃ this2 this3 s3,
    DeviceConnectionManager_replay_file s_factories None this1 s
    = Some (this2, s)
    ∧ m_record this2 = None ∧ m_replay this2 = None
    ∧ getAvailablePorts_calls enumerations this2 s
      = Some ((map (map SerialPortInfo_of) enumerations, this3), s3)
    ∧ m_record this3 = None ∧ m_replay this3 = None
    ∧ ticks s3 = length enumerations + ticks s
    ∧ diagnostics s3 = diagnostics s.
Proof.
  intros this1.
  unfold DeviceConnectionManager_replay_file, mret, M_ret.
  match goal with
  | |- ∃ _ _ _, Some (?m, _) = _ ∧ _ =>
      destruct (calls_live enumerations m s eq_refl)
        as (this3 & s3 & Hcalls & Hn & Hrec & Ht & Hd)
  end.
  eexists _, this3, s3.
  split_and!; [reflexivity|done|done|exact Hcalls| |exact Hn|exact Ht|exact Hd].
  by apply Hrec.
Qed.

(** X2.  After any series of calls of [getAvailablePorts()] under a new
    recording, live or replaying, closing the recording leaves a well
    formed trace: the root, one [events] container and, in the order of
    the calls, one element per call that carries the list the call
    returned and the reading of the clock at its start.  The calls log
    nothing. *)
Theorem recording_holds_returned_lists enumerations this s :
  m_record this = Some XmlRecord_new →
  ∃ results this' s',
    getAvailablePorts_calls enumerations this s = Some ((results, this'), s')
    ∧ length results = length enumerations
    ∧ diagnostics s' = diagnostics s
    ∧ document <$> (DeviceConnectionManager_record_file false this').1
      = Some (recorded_document (events_at (ticks s) results)).
Proof.
  intros Hr.
  destruct (calls_recorded enumerations this s _ Hr)
    as (results & this' & s' & Hcalls & Hlen & Hrec & _ & Hd & _).
  exists results, this', s'. split_and!; [done|done|done|].
  cbn [DeviceConnectionManager_record_file fst]. rewrite Hrec.
  cbn [fmap option_fmap option_map]. f_equal.
  apply recorded_events_closed.
Qed.

(** X1.  The scenario of the specification for any number of calls.  The
    lists returned by a series of live calls under a new recording are
    those of the system; once the recording is closed, a replay of its
    trace is loaded without a diagnostic and returns the same lists in the
    same order, whatever the system would enumerate then, and the last of
    them when the trace is used up (the empty list if nothing was
    recorded, by the reset of the cache when a replay starts). *)
Theorem recording_replays enumerations others s :
  Forall (Forall (λ q, is_quint16 (qt_vendorIdentifier q)
                       ∧ is_quint16 (qt_productIdentifier q))) enumerations →
  let lists := map (map SerialPortInfo_of) enumerations in
  let recording :=
    (DeviceConnectionManager_record_string DeviceConnectionManager_new).2 in
  ∃ recorded s1 trace,
    getAvailablePorts_calls enumerations recording s
    = Some ((lists, recorded), s1)
    ∧ (DeviceConnectionManager_record_file false recorded).1 = Some trace
    ∧ ∀ this s2,
        ∃ replaying s3 this' s4,
          DeviceConnectionManager_replay_string registered_classes
            (document trace) this s2 = Some (replaying, s3)
          ∧ diagnostics s3 = diagnostics s2
          ∧ getAvailablePorts_calls others replaying s3
            = Some ((map (replayed lists) (seq 0 (length others)), this'), s4).
Proof.
  intros Hq lists recording.
  destruct (calls_recorded enumerations recording s XmlRecord_new eq_refl)
    as (results & recorded & s1 & Hcalls & _ & Hrec & _ & _ & Hlive).
  destruct (Hlive eq_refl) as [-> _]. fold lists in Hcalls, Hrec.
  eexists recorded, s1, _. split_and!; [done| |].
  - cbn [DeviceConnectionManager_record_file fst]. rewrite Hrec. reflexivity.
  - intros this s2. rewrite recorded_events_closed.
    assert (Hc : Forall (λ event, forallb canonical (m_ports event) = true)
                   (events_at (ticks s) lists)).
    { apply Forall_forall. intros event Hin.
      assert (Hp : m_ports event ∈ lists).
      { rewrite <- (events_at_ports lists (ticks s)).
        apply list_elem_of_fmap. by exists event. }
      apply list_elem_of_fmap in Hp as (enumeration & -> & He).
      apply live_ports_canonical.
      rewrite Forall_forall in Hq. by apply Hq. }
    destruct (recorded_document_replays _ others this s2 Hc)
      as (replaying & s3 & this' & s4 & Hreplay & Hlog & Hothers).
    rewrite events_at_ports in Hothers. by eexists _, _, _, _.
Qed.

End Sessions.

(** ** A recording that is never closed *)

Section Unclosed.
Context `{QtDateTime}.

(** The loop of [deserializeEvents] on the tokens of [nodes] followed by
    tokens [tail] that hold no further sibling: an end tag, or the early
    end of the text. *)
Lemma deserializeEvents_loop_tail nodes : ∀ fuel xml this s tail final,
  token xml ≠ Invalid →
  input xml = flat_map tokens nodes ++ tail →
  readNextStartElement_from tail = (false, final) →
  length (elements nodes) < fuel →
  deserializeEvents_loop registered_classes fuel xml this s
  = Some ((final, (fold_left load_event (elements nodes) (this, s)).1),
          (fold_left load_event (elements nodes) (this, s)).2).
Proof.
  induction nodes as [|n nodes IH];
    intros fuel xml this s tail final Hv Hin Htail Hf;
    (destruct fuel as [|fuel]; [simpl in Hf; lia|]).
  - cbn [deserializeEvents_loop flat_map app] in *.
    by rewrite next_start_valid, Hin, Htail by done.
  - change (flat_map tokens (n :: nodes))
      with (tokens n ++ flat_map tokens nodes) in Hin.
    rewrite <- app_assoc in Hin.
    destruct (is_element n) eqn:Hn.
    + destruct n as [nm a ch|m]; try done.
      rewrite elements_cons_element in *. simpl in Hf.
      cbn [deserializeEvents_loop fold_left].
      rewrite next_start_valid, Hin, next_start_element by done.
      unfold mbind, M_bind. unfold name_of at 1. cbn [token].
      rewrite createInstance_run.
      unfold load_event at 2 4, named. cbn [node_name node_attributes].
      case_bool_decide as Hnm.
      * subst nm. rewrite shr_XmlReplayEvent_run.
        rewrite (IH fuel _ _ _ tail final); [|done|done|done|lia].
        done.
      * rewrite skip_element.
        rewrite (IH fuel _ _ _ tail final); [|done|done|done|lia].
        done.
    + rewrite elements_cons_other in * by done.
      rewrite <- (IH (S fuel) {| token := NoToken;
        input := flat_map tokens nodes ++ tail |}
        this s tail final) by done.
      cbn [deserializeEvents_loop].
      rewrite !next_start_valid, Hin by done. simpl input.
      by rewrite next_start_other.
Qed.

Lemma unclosed_document_tokens event events :
  unclosed_document
    {| m_xml := fold_left operator_shl_XmlReplayEvent (event :: events)
                  (m_xml XmlRecord_new) |}
  = StartDocument
      :: indentation (m_xml XmlRecord_new) 0
      ++ StartElement "xmlreplay" []
      :: indentation (m_xml XmlRecord_new) 1
      ++ StartElement "events" []
      :: flat_map tokens
           (flat_map (λ event, indentation_nodes (m_xml XmlRecord_new) 2
                               ++ [event_node (m_xml XmlRecord_new) 2 event])
              (event :: events)).
Proof.
  unfold unclosed_document. cbn [m_xml]. rewrite shl_events_new.
  rewrite event_nodes_tokens.
  generalize (flat_map
                (λ event, indentation (m_xml XmlRecord_new) 2
                          ++ tokens (event_node (m_xml XmlRecord_new) 2 event))
                (event :: events)).
  intros body. reflexivity.
Qed.

(** Loading the text of a recording that was never closed. *)
Lemma unclosed_document_loads (events : list XmlReplayEvent) s :
  ∃ replay s',
    XmlReplay_new registered_classes
      (unclosed_document
         {| m_xml := fold_left operator_shl_XmlReplayEvent events
                       (m_xml XmlRecord_new) |}) s
    = Some (replay, s')
    ∧ m_indices replay = ∅
    ∧ stored_ports replay
      = map ports_of_element (map (event_node (m_xml XmlRecord_new) 2) events)
    ∧ (Forall (λ event, forallb canonical (m_ports event) = true) events →
       diagnostics s' = diagnostics s).
Proof.
  destruct events as [|e events].
  - eexists _, _. split; [reflexivity|]. done.
  - rewrite unclosed_document_tokens.
    set (nodes := flat_map _ (e :: events)).
    unfold XmlReplay_new, XmlReplay_deserialize, mbind, M_bind.
    rewrite next_start_valid by done.
    cbn [QXmlStreamReader_new input readNextStartElement_from].
    rewrite next_start_indentation.
    cbn [readNextStartElement_from name_of token].
    rewrite bool_decide_eq_true_2 by done.
    cbn [input length deserialize_loop].
    rewrite next_start_valid by done. cbn [input].
    rewrite next_start_indentation.
    cbn [readNextStartElement_from name_of token].
    rewrite bool_decide_eq_true_2 by done.
    unfold mbind, M_bind, XmlReplay_deserializeEvents.
    erewrite (deserializeEvents_loop_tail nodes _ _ _ _ [] invalid_reader);
      [|done|by rewrite app_nil_r|done
       |cbn [input]; pose proof (length_elements nodes); lia].
    destruct (load_events_grows (elements nodes)
                ({| m_events := ∅; m_indices := ∅ |}, s))
      as [Hports _ Hidx _].
    destruct (fold_left load_event (elements nodes) _) as [replay s'] eqn:Hl.
    cbn [fst snd] in *.
    rewrite length_app. cbn [length]. rewrite Nat.add_succ_r.
    cbn [deserialize_loop readNextStartElement invalid_reader token].
    eexists _, _. split; [reflexivity|]. cbn [snd fst].
    split; [done|]. split.
    + rewrite Hports. unfold stored_ports at 1. cbn [m_events].
      rewrite lookup_empty. cbn [from_option map app].
      unfold nodes. by rewrite event_nodes_elements, event_nodes_named.
    + intros Hc.
      pose proof (load_recorded_events (m_xml XmlRecord_new) 2 (e :: events)
                    ({| m_events := ∅; m_indices := ∅ |}, s) Hc) as Hlog.
      unfold nodes in Hl. rewrite event_nodes_elements in Hl.
      by rewrite Hl in Hlog.
Qed.

(** X19.  A recording that is never closed replays like a closed one.
    The text written so far ends after the last event, without the end
    tags of the container and of the root; a replay started from it
    completes, logs nothing and returns the recorded lists in order, then
    the last of them. *)
Theorem unclosed_recording_replays enumerations others s :
  Forall (Forall (λ q, is_quint16 (qt_vendorIdentifier q)
                       ∧ is_quint16 (qt_productIdentifier q))) enumerations →
  let lists := map (map SerialPortInfo_of) enumerations in
  let recording :=
    (DeviceConnectionManager_record_string DeviceConnectionManager_new).2 in
  ∃ recorded s1 record,
    getAvailablePorts_calls enumerations recording s
    = Some ((lists, recorded), s1)
    ∧ m_record recorded = Some record
    ∧ ∀ this s2,
        ∃ replaying s3 this' s4,
          DeviceConnectionManager_replay_string registered_classes
            (unclosed_document record) this s2 = Some (replaying, s3)
          ∧ diagnostics s3 = diagnostics s2
          ∧ getAvailablePorts_calls others replaying s3
            = Some ((map (replayed lists) (seq 0 (length others)), this'), s4).
Proof.
  intros Hq lists recording.
  destruct (calls_recorded enumerations recording s XmlRecord_new eq_refl)
    as (results & recorded & s1 & Hcalls & _ & Hrec & _ & _ & Hlive).
  destruct (Hlive eq_refl) as [-> _]. fold lists in Hcalls, Hrec.
  eexists recorded, s1, _. split_and!; [done|exact Hrec|].
  intros this s2.
  assert (Hcanon : Forall (λ event, forallb canonical (m_ports event) = true)
                     (events_at (ticks s) lists)).
  { apply Forall_forall. intros event Hin.
    assert (Hp : m_ports event ∈ lists).
    { rewrite <- (events_at_ports lists (ticks s)).
      apply list_elem_of_fmap. by exists event. }
    apply list_elem_of_fmap in Hp as (enumeration & -> & He).
    apply live_ports_canonical.
    rewrite Forall_forall in Hq. by apply Hq. }
  destruct (unclosed_document_loads (events_at (ticks s) lists) s2)
    as (replay & s3 & Hnew & Hidx & Hports & Hlog).
  unfold DeviceConnectionManager_replay_string, mbind, M_bind.
  rewrite Hnew. unfold mret, M_ret.
  match goal with
  | |- ∃ _ _ _ _, Some (?m, _) = _ ∧ _ =>
      destruct (calls_replaying others m replay 0 s3) as (this' & s4 & Hc)
  end.
  - done.
  - unfold cursor. by rewrite Hidx.
  - eexists _, _, this', s4. split; [reflexivity|].
    split; [by apply Hlog|].
    rewrite Hc. do 3 f_equal. apply map_ext. intros j.
    cbn [m_serialPorts DeviceConnectionManager_reset].
    by rewrite Hports, event_nodes_ports, events_at_ports.
Qed.

End Unclosed.

(** ** Loading any sequence of tokens *)

Lemma later_refl s : later s s.
Proof. split; [done|]. exists []. by rewrite app_nil_r. Qed.

Lemma later_trans s1 s2 s3 : later s1 s2 → later s2 s3 → later s1 s3.
Proof.
  intros [T1 [d1 D1]] [T2 [d2 D2]]. split; [lia|].
  exists (d1 ++ d2). by rewrite D2, D1, app_assoc.
Qed.

Lemma later_log d s : later s (log d s).
Proof. split; [done|]. by exists d. Qed.

Lemma later_advance n s : later s (advance n s).
Proof. split; [simpl; lia|]. exists []. by rewrite app_nil_r. Qed.

Lemma next_start_from_shorter l :
  let r := readNextStartElement_from l in
  length (input r.2) ≤ length l
  ∧ (r.1 = true → length (input r.2) < length l ∧ isStartElement r.2 = true).
Proof.
  induction l as [|t l IH]; [by split|].
  cbv zeta in *. destruct IH as [IH1 IH2].
  destruct t; cbn [readNextStartElement_from fst snd input length invalid_reader];
    try (split; [lia|done]);
    try (split; [lia|intros Hr; destruct (IH2 Hr); split; [lia|done]]).
  split; [lia|]. intros _. split; [lia|done].
Qed.

Lemma next_start_shorter xml :
  let r := readNextStartElement xml in
  length (input r.2) ≤ length (input xml)
  ∧ (r.1 = true →
     length (input r.2) < length (input xml) ∧ isStartElement r.2 = true).
Proof.
  unfold readNextStartElement.
  destruct (token xml); try apply next_start_from_shorter.
  cbn. split; [lia|done].
Qed.

Lemma skip_from_shorter l : ∀ depth cur,
  length (input (skipCurrentElement_from l depth cur)) ≤ length l.
Proof.
  induction l as [|t l IH]; intros depth cur.
  - by destruct depth.
  - destruct depth as [|d]; [done|].
    destruct t; cbn [skipCurrentElement_from input invalid_reader length];
      try lia;
      match goal with
      | |- context [skipCurrentElement_from l ?d ?c] =>
          specialize (IH d c); lia
      end.
Qed.

Lemma skip_shorter xml :
  length (input (skipCurrentElement xml)) ≤ length (input xml).
Proof.
  unfold skipCurrentElement.
  destruct (token xml); try apply skip_from_shorter.
  cbn. lia.
Qed.

Lemma shr_SerialPortInfo_total xml info s :
  ∃ info' s',
    operator_shr_SerialPortInfo xml info s
    = Some ((skipCurrentElement xml, info'), s')
    ∧ later s s'.
Proof.
  unfold operator_shr_SerialPortInfo, mbind, M_bind.
  destruct (_ && _).
  - rewrite read_attributes_run. eexists _, _. split; [done|apply later_log].
  - eexists _, _. split; [done|]. apply (later_log [_]).
Qed.

Lemma shr_QList_loop_total fuel : ∀ xml items s,
  length (input xml) < fuel →
  ∃ xml' items' s',
    operator_shr_QList_loop SerialPortInfo_new operator_shr_SerialPortInfo
      fuel xml items s = Some ((xml', items'), s')
    ∧ length (input xml') ≤ length (input xml)
    ∧ later s s'.
Proof.
  induction fuel as [|fuel IH]; intros xml items s Hf; [lia|].
  cbn [operator_shr_QList_loop].
  destruct (next_start_shorter xml) as [H1 H2].
  destruct (readNextStartElement xml) as [more xml1]. cbn [fst snd] in *.
  destruct more.
  - destruct (H2 eq_refl) as [Hlt _].
    unfold mbind, M_bind.
    destruct (shr_SerialPortInfo_total xml1 SerialPortInfo_new s)
      as (info' & s1 & -> & Hs1).
    pose proof (skip_shorter xml1) as Hskip.
    destruct (IH (skipCurrentElement xml1) (items ++ [info']) s1)
      as (xml' & items' & s' & -> & Hlen & Hs'); [lia|].
    eexists _, _, _. split; [done|]. split; [lia|].
    by eapply later_trans.
  - eexists _, _, _. split; [done|]. split; [done|apply later_refl].
Qed.

Section Total.
Context `{QtDateTime}.

Lemma kept_refl this : kept this this.
Proof. split_and!; [done|done|]. exists []. by rewrite app_nil_r. Qed.

Lemma kept_trans a b c : kept a b → kept b c → kept a c.
Proof.
  intros (I1 & O1 & [x X]) (I2 & O2 & [y Y]). split_and!.
  - by rewrite I2.
  - intros t Ht. by rewrite O2, O1.
  - exists (x ++ y). by rewrite Y, X, app_assoc.
Qed.

Lemma kept_append event this :
  kept this (append_event TAG event this).
Proof.
  unfold append_event. split_and!; cbn [m_indices m_events].
  - done.
  - intros t Ht. by rewrite lookup_insert_ne.
  - rewrite lookup_insert_eq. by eexists.
Qed.

Lemma shr_XmlReplayEvent_total xml event s :
  isStartElement xml = true → name_of xml = TAG →
  ∃ xml' event' s',
    operator_shr_XmlReplayEvent xml event s = Some ((xml', event'), s')
    ∧ length (input xml') ≤ length (input xml)
    ∧ later s s'.
Proof.
  intros Hstart Hname.
  unfold operator_shr_XmlReplayEvent, GetAvailablePortsEvent_read,
    operator_shr_QList, tag.
  rewrite Hstart, Hname, bool_decide_eq_true_2 by done. cbn [andb]. steps.
  destruct (hasAttribute (attributes_of xml) "time").
  - destruct (shr_QList_loop_total (S (length (input xml))) xml [] s)
      as (xml' & items' & s' & -> & Hlen & Hs'); [lia|].
    by eexists _, _, _.
  - match goal with
    | |- context [operator_shr_QList_loop _ _ _ _ _ ?s1] =>
        destruct (shr_QList_loop_total (S (length (input xml))) xml [] s1)
          as (xml' & items' & s' & -> & Hlen & Hs'); [lia|];
        assert (later s s1)
    end.
    { split; [simpl; lia|]. simpl. by eexists. }
    eexists _, _, _. split; [done|]. split; [done|].
    by eapply later_trans.
Qed.

Lemma deserializeEvents_loop_total fuel : ∀ xml this s,
  length (input xml) < fuel →
  ∃ xml' this' s',
    deserializeEvents_loop registered_classes fuel xml this s
    = Some ((xml', this'), s')
    ∧ length (input xml') ≤ length (input xml)
    ∧ kept this this' ∧ later s s'.
Proof.
  induction fuel as [|fuel IH]; intros xml this s Hf; [lia|].
  cbn [deserializeEvents_loop].
  destruct (next_start_shorter xml) as [H1 H2].
  destruct (readNextStartElement xml) as [more xml1]. cbn [fst snd] in *.
  destruct more.
  - destruct (H2 eq_refl) as [Hlt Hstart].
    unfold mbind, M_bind. rewrite createInstance_run.
    case_bool_decide as Hname.
    + destruct (shr_XmlReplayEvent_total xml1
                  {| m_time := currentDateTime (ticks s); m_ports := [] |}
                  (advance 1 s) Hstart Hname)
        as (xml2 & event' & s2 & -> & Hlen2 & Hs2).
      rewrite Hname.
      match goal with
      | |- context [deserializeEvents_loop _ fuel xml2 ?t s2] =>
          destruct (IH xml2 t s2) as (xml' & this' & s' & -> & Hlen & Hk & Hs');
            [lia|];
          assert (kept this t) by apply kept_append
      end.
      eexists _, _, _. split; [done|]. split; [lia|]. split.
      * by eapply kept_trans.
      * eapply later_trans; [apply (later_advance 1)|].
        by eapply later_trans.
    + pose proof (skip_shorter xml1) as Hskip.
      match goal with
      | |- context [deserializeEvents_loop _ fuel ?x this ?s1] =>
          destruct (IH x this s1) as (xml' & this' & s' & -> & Hlen & Hk & Hs');
            [lia|]
      end.
      eexists _, _, _. split; [done|]. split; [lia|]. split; [done|].
      exact (later_trans _ _ _ (later_log _ _) Hs').
  - eexists _, _, _. split; [done|]. split; [done|].
    split; [apply kept_refl|apply later_refl].
Qed.

Lemma deserialize_loop_total fuel : ∀ xml this s,
  length (input xml) < fuel →
  ∃ xml' this' s',
    deserialize_loop registered_classes fuel xml this s
    = Some ((xml', this'), s')
    ∧ length (input xml') ≤ length (input xml)
    ∧ kept this this' ∧ later s s'.
Proof.
  induction fuel as [|fuel IH]; intros xml this s Hf; [lia|].
  cbn [deserialize_loop].
  destruct (next_start_shorter xml) as [H1 H2].
  destruct (readNextStartElement xml) as [more xml1]. cbn [fst snd] in *.
  destruct more.
  - destruct (H2 eq_refl) as [Hlt Hstart].
    case_bool_decide as Hname.
    + unfold mbind, M_bind, XmlReplay_deserializeEvents.
      destruct (deserializeEvents_loop_total (S (length (input xml1))) xml1
                  this s) as (xml2 & this2 & s2 & -> & Hlen2 & Hk2 & Hs2);
        [lia|].
      destruct (IH xml2 this2 s2) as (xml' & this' & s' & -> & Hlen & Hk & Hs');
        [lia|].
      eexists _, _, _. split; [done|]. split; [lia|]. split.
      * by eapply kept_trans.
      * by eapply later_trans.
    + unfold mbind, M_bind, emit.
      pose proof (skip_shorter xml1) as Hskip.
      match goal with
      | |- context [deserialize_loop _ fuel ?x this ?s1] =>
          destruct (IH x this s1) as (xml' & this' & s' & -> & Hlen & Hk & Hs');
            [lia|]
      end.
      eexists _, _, _. split; [done|]. split; [lia|]. split; [done|].
      exact (later_trans _ _ _ (later_log _ _) Hs').
  - eexists _, _, _. split; [done|]. split; [done|].
    split; [apply kept_refl|apply later_refl].
Qed.

Lemma XmlReplay_new_total source s :
  ∃ replay s',
    XmlReplay_new registered_classes source s = Some (replay, s')
    ∧ kept {| m_events := ∅; m_indices := ∅ |} replay ∧ later s s'.
Proof.
  unfold XmlReplay_new, XmlReplay_deserialize, mbind, M_bind.
  destruct (readNextStartElement (QXmlStreamReader_new source))
    as [more xml1].
  destruct more; [case_bool_decide|].
  - destruct (deserialize_loop_total (S (length (input xml1))) xml1
                {| m_events := ∅; m_indices := ∅ |} s)
      as (xml' & this' & s' & -> & _ & Hk & Hs'); [lia|].
    by eexists _, _.
  - eexists _, _. split; [done|]. split; [apply kept_refl|apply later_refl].
  - eexists _, _. split; [done|]. split; [apply kept_refl|apply later_refl].
Qed.

(** X3.  Starting a replay from any sequence of tokens, well formed or
    not, completes: no loop runs on and the assertion in [operator>>] is
    never violated.  The store it leaves has no cursor yet and events under
    no tag but [getAvailablePorts]; the log has only grown; and every
    later call of [getAvailablePorts()] returns a list. *)
Theorem replay_never_fails (source : list Token) enumerations this s :
  ∃ replay this1 s1 results this2 s2,
    DeviceConnectionManager_replay_string registered_classes source this s
    = Some (this1, s1)
    ∧ m_replay this1 = Some replay
    ∧ m_indices replay = ∅
    ∧ (∀ t, t ≠ TAG → m_events replay !! t = None)
    ∧ later s s1
    ∧ getAvailablePorts_calls enumerations this1 s1
      = Some ((results, this2), s2)
    ∧ length results = length enumerations.
Proof.
  unfold DeviceConnectionManager_replay_string, mbind, M_bind.
  destruct (XmlReplay_new_total source s)
    as (replay & s1 & -> & (Hidx & Hother & _) & Hs1).
  unfold mret, M_ret.
  match goal with
  | |- ∃ _ _ _ _ _ _, Some (?m, _) = _ ∧ _ =>
      destruct (calls_replaying enumerations m replay 0 s1)
        as (this2 & s2 & Hcalls)
  end.
  - done.
  - unfold cursor. by rewrite Hidx.
  - eexists replay, _, s1, _, this2, s2.
    split_and!; [done|done|exact Hidx| |exact Hs1|exact Hcalls|].
    + intros t Ht. rewrite Hother by done. apply lookup_empty.
    + by rewrite length_map, length_seq.
Qed.

End Total.

(** ** Documents that are not traces, and payload that is not events *)

Section Skipped.
Context `{QtDateTime}.

Lemma calls_on_empty_store enumerations this s :
  m_replay this = Some {| m_events := ∅; m_indices := ∅ |} →
  ∃ this' s',
    getAvailablePorts_calls enumerations this s
    = Some ((replicate (length enumerations) (m_serialPorts this), this'), s').
Proof.
  intros Hr.
  destruct (calls_replaying enumerations this _ 0 s Hr eq_refl)
    as (this' & s' & ->).
  exists this', s'. do 3 f_equal.
  change (stored_ports {| m_events := ∅; m_indices := ∅ |})
    with (@nil (list SerialPortInfo)).
  generalize 0 at 2.
  induction (length enumerations) as [|n IH]; intros k; [done|].
  cbn [seq map replicate]. by rewrite IH.
Qed.

(** X4.  A document whose root element is not [xmlreplay], or that has no
    element, is accepted in silence: nothing is logged, the replay is
    active with an empty store, and every call of [getAvailablePorts()]
    returns the cached list of the manager, never what the system would
    enumerate. *)
Theorem foreign_document_replays_nothing prolog epilog name attributes
    children enumerations this s :
  name ≠ "xmlreplay" →
  ∀ source,
    source = trace_document prolog (Element name attributes children) epilog
    ∨ source = document (map misc_token prolog) →
    ∃ this1 this2 s2,
      DeviceConnectionManager_replay_string registered_classes source this s
      = Some (this1, s)
      ∧ m_replay this1 = Some {| m_events := ∅; m_indices := ∅ |}
      ∧ getAvailablePorts_calls enumerations this1 s
        = Some ((replicate (length enumerations) (m_serialPorts this1), this2),
                s2).
Proof.
  intros Hname source Hsource.
  assert (Hnew : XmlReplay_new registered_classes source s
                 = Some ({| m_events := ∅; m_indices := ∅ |}, s)).
  { destruct Hsource as [->| ->].
    - rewrite XmlReplay_new_run. unfold load_root, named. cbn [node_name].
      by rewrite bool_decide_eq_false_2.
    - unfold XmlReplay_new, XmlReplay_deserialize, document, mbind, M_bind.
      rewrite next_start_valid by done.
      cbn [QXmlStreamReader_new input readNextStartElement_from].
      rewrite next_start_misc. reflexivity. }
  unfold DeviceConnectionManager_replay_string, mbind, M_bind.
  rewrite Hnew. unfold mret, M_ret.
  match goal with
  | |- ∃ _ _ _, Some (?m, _) = _ ∧ _ =>
      destruct (calls_on_empty_store enumerations m s eq_refl)
        as (this2 & s2 & Hcalls)
  end.
  by eexists _, this2, s2.
Qed.






End Skipped.

(** ** One event element *)

Section Event_element.
Context `{QtDateTime}.

(** X6.  Reading a [getAvailablePorts] element gives one descriptor per
    child element, in document order: for a [serial] child the one read
    from its attributes, for a child of any other name the null descriptor
    and a warning.  What the children contain is skipped, and the reader
    is left at the end tag of the event. *)
Theorem port_list_one_per_child attributes children rest event s :
  ∃ event' s',
    operator_shr_XmlReplayEvent
      {| token := StartElement TAG attributes;
         input := flat_map tokens children ++ EndElement TAG :: rest |} event s
    = Some (({| token := EndElement TAG; input := rest |}, event'), s')
    ∧ length (m_ports event') = length (elements children)
    ∧ ∀ i child,
        elements children !! i = Some child →
        (node_name child = "serial" →
         m_ports event' !! i
         = Some (fold_left store_attribute (node_attributes child)
                   SerialPortInfo_new))
        ∧ (node_name child ≠ "serial" →
           m_ports event' !! i = Some SerialPortInfo_new
           ∧ qWarning ["no <serial> tag"] ∈ diagnostics s').
Proof.
  rewrite shr_XmlReplayEvent_run. eexists _, _. split; [reflexivity|].
  cbn [m_ports]. unfold ports_of_element, ports_warnings.
  cbn [node_children]. split; [by rewrite length_map|].
  intros i child Hi. rewrite list_lookup_fmap, Hi. cbn [fmap option_fmap option_map].
  unfold serial_info, named. split; intros Hname.
  - by rewrite bool_decide_eq_true_2.
  - rewrite bool_decide_eq_false_2 by done. split; [done|].
    unfold log at 1. cbn [diagnostics]. apply elem_of_app. right.
    apply list_elem_of_In, in_flat_map. exists child. split.
    + apply list_elem_of_In. by eapply list_elem_of_lookup_2.
    + unfold serial_warnings, named. rewrite bool_decide_eq_false_2 by done.
      by left.
Qed.


End Event_element.

(** ** What loading does not look at *)

Lemma elements_only_children children :
  flat_map (λ child, if is_element child then [elements_only child] else [])
    children
  = map elements_only (elements children).
Proof.
  induction children as [|c children IH]; [done|].
  cbn [flat_map]. rewrite IH. destruct c as [name attributes ch|m].
  - by rewrite elements_cons_element.
  - by rewrite elements_cons_other.
Qed.

Lemma elements_only_element name attributes children :
  elements_only (Element name attributes children)
  = Element name attributes (map elements_only (elements children)).
Proof. cbn [elements_only]. by rewrite elements_only_children. Qed.

Lemma elements_of_elements_only l :
  elements (map elements_only (elements l)) = map elements_only (elements l).
Proof.
  induction l as [|c l IH]; [done|]. destruct c as [name attributes ch|m].
  - rewrite elements_cons_element. cbn [map].
    rewrite elements_only_element, elements_cons_element. by rewrite IH.
  - by rewrite elements_cons_other.
Qed.

Lemma elements_are_elements l c : c ∈ elements l → is_element c = true.
Proof.
  unfold elements. intros [Hc _]%list_elem_of_filter.
  by destruct (is_element c).
Qed.

Lemma serial_info_elements_only c :
  is_element c = true → serial_info (elements_only c) = serial_info c.
Proof. destruct c; [|done]. intros _. by rewrite elements_only_element. Qed.

Lemma serial_warnings_elements_only c :
  is_element c = true → serial_warnings (elements_only c) = serial_warnings c.
Proof. destruct c; [|done]. intros _. by rewrite elements_only_element. Qed.

Lemma ports_elements_only name attributes children :
  ports_of_element (elements_only (Element name attributes children))
  = ports_of_element (Element name attributes children)
  ∧ ports_warnings (elements_only (Element name attributes children))
    = ports_warnings (Element name attributes children).
Proof.
  rewrite elements_only_element. unfold ports_of_element, ports_warnings.
  cbn [node_children]. rewrite elements_of_elements_only.
  pose proof (elements_are_elements children) as Hall.
  induction (elements children) as [|c l IH]; [done|].
  cbn [map flat_map].
  rewrite serial_info_elements_only, serial_warnings_elements_only
    by (apply Hall; by left).
  destruct IH as [-> ->]; [|done]. intros x Hx. apply Hall. by right.
Qed.

Section Formatting.
Context `{QtDateTime}.

Lemma load_event_elements_only st e :
  is_element e = true → load_event st (elements_only e) = load_event st e.
Proof.
  destruct e as [name attributes children|]; [|done]. intros _.
  destruct (ports_elements_only name attributes children) as [Hp Hw].
  unfold load_event. rewrite Hp, Hw. by rewrite elements_only_element.
Qed.

Lemma load_events_elements_only l : ∀ st,
  (∀ e, e ∈ l → is_element e = true) →
  fold_left load_event (map elements_only l) st = fold_left load_event l st.
Proof.
  induction l as [|e l IH]; intros st Hall; [done|].
  cbn [map fold_left]. rewrite load_event_elements_only by (apply Hall; by left).
  apply IH. intros x Hx. apply Hall. by right.
Qed.

Lemma load_container_elements_only st c :
  is_element c = true →
  load_container st (elements_only c) = load_container st c.
Proof.
  destruct c as [name attributes children|]; [|done]. intros _.
  rewrite elements_only_element. unfold load_container, named.
  cbn [node_name node_children]. case_bool_decide; [|done].
  rewrite elements_of_elements_only.
  apply load_events_elements_only, elements_are_elements.
Qed.

Lemma load_containers_elements_only l : ∀ st,
  (∀ c, c ∈ l → is_element c = true) →
  fold_left load_container (map elements_only l) st
  = fold_left load_container l st.
Proof.
  induction l as [|c l IH]; intros st Hall; [done|].
  cbn [map fold_left].
  rewrite load_container_elements_only by (apply Hall; by left).
  apply IH. intros x Hx. apply Hall. by right.
Qed.

(** X20.  Loading looks at elements only.  Text, white space, comments,
    document type declarations, entity references and processing
    instructions, wherever they stand in a trace, change neither the store
    loaded from it nor the log nor the clock: the outcome is that of the
    trace with all of them removed. *)
Theorem formatting_is_irrelevant prolog epilog name attributes children s :
  let root := Element name attributes children in
  XmlReplay_new registered_classes (trace_document prolog root epilog) s
  = XmlReplay_new registered_classes
      (trace_document [] (elements_only root) []) s.
Proof.
  intros root. unfold root. rewrite elements_only_element.
  rewrite !XmlReplay_new_run. unfold load_root, named.
  cbn [node_name node_children]. case_bool_decide; [|done].
  rewrite elements_of_elements_only.
  by rewrite load_containers_elements_only by apply elements_are_elements.
Qed.

End Formatting.

(** ** The order of the attributes of a port *)

(** X21.  The order of the attributes of a [serial] element does not
    matter: two elements with the same attributes, of distinct names, in
    different orders are read into the same descriptor, and the same
    warnings are logged, up to their order. *)
Theorem attribute_order_irrelevant attributes attributes' rest rest' info s :
  NoDup attributes.*1 →
  attributes ≡ₚ attributes' →
  ∃ xml xml' info' s1 s2,
    operator_shr_SerialPortInfo
      {| token := StartElement "serial" attributes; input := rest |} info s
    = Some ((xml, info'), s1)
    ∧ operator_shr_SerialPortInfo
        {| token := StartElement "serial" attributes'; input := rest' |} info s
      = Some ((xml', info'), s2)
    ∧ diagnostics s1 ≡ₚ diagnostics s2.
Proof.
  intros Hnd Hperm.
  unfold operator_shr_SerialPortInfo, name_of, attributes_of, atEnd,
    isStartElement. cbn [token andb negb].
  rewrite bool_decide_eq_true_2 by done.
  unfold mbind, M_bind. rewrite !read_attributes_run.
  unfold mret, M_ret.
  assert (Hnd' : NoDup attributes'.*1) by (by rewrite <- Hperm).
  assert (Hsame : fold_left store_attribute attributes' info
                  = fold_left store_attribute attributes info).
  { assert (Hbag : m_info (fold_left store_attribute attributes' info)
                   = m_info (fold_left store_attribute attributes info)).
    { apply map_eq. intros k.
      destruct (decide (k ∈ attributes.*1)) as [Hin|Hout].
      - apply list_elem_of_fmap in Hin as ([k' v] & Hk & Hin). cbn in Hk.
        subst k'.
        assert (Hin' : (k, v) ∈ attributes') by (by rewrite <- Hperm).
        by rewrite (fold_store_lookup _ _ k v Hnd' Hin'),
          (fold_store_lookup _ _ k v Hnd Hin).
      - rewrite !fold_store_absent; [done|done|by rewrite <- Hperm]. }
    destruct (fold_left store_attribute attributes' info),
      (fold_left store_attribute attributes info).
    cbn in Hbag. by subst. }
  rewrite Hsame. eexists _, _, _, _, _. split_and!; [reflexivity..|].
  unfold log. cbn [diagnostics]. apply Permutation_app_head.
  clear -Hperm. induction Hperm as [|a l l' _ IH|a b l|l1 l2 l3 _ IH1 _ IH2].
  - done.
  - cbn [flat_map]. by apply Permutation_app_head.
  - cbn [flat_map]. rewrite !app_assoc. apply Permutation_app_tail.
    apply Permutation_app_comm.
  - by etrans.
Qed.

(** ** Identifiers written in hexadecimal *)

(** X15.  An identifier attribute whose text is what [hex] prints for a
    non-negative [int] is stored as that number reduced to 16 bits, and no
    warning is logged; an identifier of 16 bits is therefore read back as
    it was written. *)
Theorem identifier_attribute_read key v info s :
  is_identifier key = true → (0 ≤ v ≤ 2147483647)%Z →
  read_attribute (key, hex v) info s
  = Some (set_info key (QVariant_int (to_quint16 v)) info, s)
  ∧ (is_quint16 v → to_quint16 v = v).
Proof.
  intros Hk Hv. split.
  - rewrite read_attribute_run.
    unfold store_attribute, attribute_warning. cbn [fst snd]. rewrite Hk.
    rewrite toUInt_hex by lia. by rewrite log_nil.
  - intros Hq. unfold to_quint16. by apply Z.mod_small.
Qed.

Lemma identifier_attribute_read_witness :
  is_identifier "productIdentifier" = true ∧ (0 ≤ 24577 ≤ 2147483647)%Z
  ∧ read_attribute ("productIdentifier", "0x6001") SerialPortInfo_new
      start_state
    = Some (set_info "productIdentifier" (QVariant_int 24577)
              SerialPortInfo_new, start_state).
Proof.
  assert (H1 : is_identifier "productIdentifier" = true) by reflexivity.
  assert (H2 : (0 ≤ 24577 ≤ 2147483647)%Z) by lia.
  split; [exact H1|]. split; [exact H2|].
  exact (proj1 (identifier_attribute_read "productIdentifier" 24577
                  SerialPortInfo_new start_state H1 H2)).
Defined.

(** ** The registry *)

Section Registry.
Context `{QtDateTime}.

(** X9.  Registering a factory under a new tag succeeds and logs nothing.
    [createInstance] then runs that factory for the tag, or, if the factory
    is the null pointer, warns and returns no event; the other tags are as
    before; and a further registration under the tag is refused with a
    warning, whatever was registered first. *)
Theorem register_then_create tag factory
    (s_factories : gmap string FactoryMethod) s :
  s_factories !! tag = None →
  ∃ registry,
    XmlReplayEvent_registerClass tag factory s_factories s
    = Some ((true, registry), s)
    ∧ XmlReplayEvent_createInstance tag registry s
      = match factory with
        | Some create =>
            match create s with
            | Some (event, s') => Some (Some event, s')
            | None => None
            end
        | None =>
            Some (None,
                  log [qWarning ["No event class registered for XML tag";
                                 tag]] s)
        end
    ∧ (∀ t, t ≠ tag →
         XmlReplayEvent_createInstance t registry
         = XmlReplayEvent_createInstance t s_factories)
    ∧ ∀ other s0,
        XmlReplayEvent_registerClass tag other registry s0
        = Some ((false, registry),
                log [qWarning ["Event class already registered for tag";
                               tag]] s0).
Proof.
  intros Hnew. unfold XmlReplayEvent_registerClass.
  rewrite bool_decide_eq_false_2 by (rewrite Hnew; by intros [? ?]).
  eexists. split_and!; [reflexivity|..].
  - unfold XmlReplayEvent_createInstance. rewrite lookup_insert_eq.
    unfold default, id. destruct factory as [create|]; [|done].
    unfold mbind, M_bind. cbv beta iota.
    by destruct (create s) as [[event s']|].
  - intros t Ht. unfold XmlReplayEvent_createInstance.
    by rewrite lookup_insert_ne by congruence.
  - intros other s0. rewrite bool_decide_eq_true_2; [done|].
    rewrite lookup_insert_eq. eauto.
Qed.

(** X10.  The static initialiser of the program succeeds and leaves one
    class registered.  Under it [createInstance] gives, for
    [getAvailablePorts], an event without ports that holds the current
    reading of the clock, and for any other tag no event and a warning. *)
Theorem registered_at_start tag s :
  static_initialisation s = Some ((true, registered_classes), s)
  ∧ XmlReplayEvent_createInstance tag registered_classes s
    = if bool_decide (tag = TAG)
      then Some (Some {| m_time := currentDateTime (ticks s); m_ports := [] |},
                 advance 1 s)
      else Some (None,
                 log [qWarning ["No event class registered for XML tag"; tag]]
                   s).
Proof.
  split; [reflexivity|apply createInstance_run].
Qed.

End Registry.

(** ** Cursors of several types *)

Section Series_properties.
Context `{QtDateTime}.

Lemma returned_for_cons_same t types e results :
  returned_for t (t :: types) (e :: results)
  = match e with Some x => [x] | None => [] end ++ returned_for t types results.
Proof.
  unfold returned_for. cbn [zip zip_with].
  rewrite filter_cons_True by done. cbn [omap list_omap snd].
  by destruct e.
Qed.

Lemma returned_for_cons_other t a types e results :
  a ≠ t →
  returned_for t (a :: types) (e :: results) = returned_for t types results.
Proof.
  intros Hne. unfold returned_for. cbn [zip zip_with].
  by rewrite filter_cons_False by done.
Qed.

(** X8.  In a series of calls of [getNextEvent] that mixes types, the
    events returned for each type are the stored events of that type from
    its cursor on, in the stored order, none twice, however the calls are
    interleaved; the cursor of a type moves by the number of its events
    returned, and the stored events are not changed. *)
Theorem interleaved_cursors types : ∀ this,
  (∀ t, 0 ≤ cursor t this)%Z →
  let r := getNextEvent_series types this in
  length r.1 = length types
  ∧ m_events r.2 = m_events this
  ∧ ∀ t,
      let events := default [] (m_events this !! t) in
      let c := Z.to_nat (cursor t this) in
      let n := length (filter (λ x, x = t) types) in
      returned_for t types r.1 = take n (drop c events)
      ∧ cursor t r.2 = Z.of_nat (c + min n (length events - c)).
Proof.
  induction types as [|a types IH]; intros this Hpos.
  - cbn. split_and!; try done. intros t. split; [done|].
    rewrite Nat.add_0_r, Z2Nat.id by apply Hpos. done.
  - cbn [getNextEvent_series].
    assert (Hc : cursor a this = Z.of_nat (Z.to_nat (cursor a this)))
      by (rewrite Z2Nat.id by apply Hpos; done).
    destruct (getNextEvent_run a this _ Hc) as (H1 & H2 & H3 & H4).
    destruct (XmlReplay_getNextEvent a this) as [e this1].
    cbn [fst snd] in *.
    assert (Hpos1 : ∀ t, (0 ≤ cursor t this1)%Z).
    { intros t. destruct (decide (t = a)) as [->|Hne].
      - rewrite H3. lia.
      - rewrite H4 by done. apply Hpos. }
    specialize (IH this1 Hpos1). cbv zeta in IH.
    destruct (getNextEvent_series types this1) as [results this2].
    cbn [fst snd] in *. destruct IH as (I1 & I2 & I3).
    split_and!.
    + cbn [length]. by rewrite I1.
    + by rewrite I2.
    + intros t. specialize (I3 t). rewrite H2 in I3.
      destruct I3 as [I3 I4].
      destruct (decide (a = t)) as [->|Hne].
      * set (events := default [] (m_events this !! t)) in *.
        rewrite filter_cons_True by done. cbn [length].
        rewrite returned_for_cons_same, I3, I4, H3.
        rewrite Nat2Z.id. unfold advanced.
        set (c := Z.to_nat (cursor t this)) in *.
        destruct (Nat.ltb_spec c (length events)) as [Hlt|Hge].
        -- destruct (lookup_lt_is_Some_2 events c Hlt) as [x Hx].
           rewrite Hx in H1. subst e. split.
           ++ by rewrite (drop_S events x c Hx).
           ++ f_equal. lia.
        -- rewrite lookup_ge_None_2 in H1 by lia. subst e.
           rewrite !drop_ge by lia. rewrite !take_nil. split; [done|].
           f_equal. lia.
      * rewrite filter_cons_False by done.
        rewrite returned_for_cons_other by done.
        rewrite H4 in I3, I4 by done. done.
Qed.

End Series_properties.

Lemma interleaved_cursors_witness :
  (∀ t, 0 ≤ cursor t sample_store)%Z
  ∧ returned_for TAG ["openPort"; TAG; "openPort"; TAG; TAG]
      (getNextEvent_series ["openPort"; TAG; "openPort"; TAG; TAG]
         sample_store).1
    = [sample_event 0 [partial_port]; sample_event 1 []].
Proof.
  assert (H1 : ∀ t, (0 ≤ cursor t sample_store)%Z).
  { intros t. unfold cursor, sample_store. cbn [m_indices].
    rewrite lookup_empty. done. }
  split; [exact H1|].
  exact (proj1 (proj2 (proj2 (@interleaved_cursors text_time
           ["openPort"; TAG; "openPort"; TAG; TAG] sample_store H1)) TAG)).
Defined.

(** ** The events of the setters *)

Lemma SetValueEvent_sets_snoc calls kv event :
  SetValueEvent_sets (calls ++ [kv]) event
  = SetValueEvent_set kv.1 kv.2 (SetValueEvent_sets calls event).
Proof. unfold SetValueEvent_sets. by rewrite fold_left_app. Qed.

Lemma SetValueEvent_sets_state calls :
  let event := SetValueEvent_sets calls {| m_values := ∅; m_keys := [] |} in
  m_keys event = calls.*1
  ∧ ∀ k, m_values event !! k
         = snd <$> last (filter (λ kv, kv.1 = k) calls).
Proof.
  induction calls as [|kv calls IH] using rev_ind; [done|].
  cbv zeta in *. rewrite SetValueEvent_sets_snoc. destruct IH as [IH1 IH2].
  unfold SetValueEvent_set. cbn [m_keys m_values]. split.
  - by rewrite IH1, fmap_app.
  - intros k. rewrite filter_app. destruct (decide (kv.1 = k)) as [<-|Hne].
    + rewrite lookup_insert_eq, filter_cons_True by done.
      rewrite filter_nil, last_snoc. done.
    + rewrite lookup_insert_ne by done.
      rewrite filter_cons_False by done. rewrite filter_nil, app_nil_r.
      apply IH2.
Qed.

(** X17.  The element written for a [SetValueEvent] has one attribute per
    call of [set], the constructor's included, in the order of the calls;
    each carries the value of the last call under its name, so a name set
    twice appears twice with the later value.  [ok()] holds exactly when
    no call used the name [error], whatever its value. *)
Theorem SetValueEvent_written name v sets :
  let calls := (name, v) :: sets in
  let event := SetValueEvent_sets sets (SetValueEvent_new name v) in
  SetValueEvent_to_QString event
  = [StartElement "set"
       (map (λ kv, (kv.1, QString_number (last_set kv.1 calls) 10)) calls);
     EndElement "set"]
  ∧ SetValueEvent_ok event = bool_decide ("error" ∉ calls.*1).
Proof.
  intros calls event.
  assert (Hevent : event
                   = SetValueEvent_sets calls {| m_values := ∅; m_keys := [] |})
    by reflexivity.
  destruct (SetValueEvent_sets_state calls) as [Hkeys Hvalues].
  rewrite <- Hevent in Hkeys, Hvalues.
  rewrite SetValueEvent_to_QString_eq, Hkeys. split.
  - do 2 f_equal. rewrite <- list_fmap_compose. apply map_ext_in.
    intros kv _. cbn. unfold last_set. by rewrite Hvalues.
  - unfold SetValueEvent_ok. rewrite Hvalues.
    destruct (decide ("error" ∈ calls.*1)) as [Hin|Hout].
    + rewrite (bool_decide_eq_false_2 (_ ∉ _)) by (intros Hn; by apply Hn).
      rewrite bool_decide_eq_true_2; [done|].
      apply list_elem_of_fmap in Hin as ([k x] & Hk & Hin). cbn in Hk. subst k.
      assert (Hf : ("error", x) ∈ filter (λ kv, kv.1 = "error") calls)
        by (by apply list_elem_of_filter).
      destruct (filter (λ kv, kv.1 = "error") calls) as [|y l] eqn:E;
        [by apply elem_of_nil in Hf|].
      destruct (last_is_Some (y :: l)) as [_ [z ->]]; [done|]. by eexists.
    + rewrite (bool_decide_eq_true_2 (_ ∉ _)) by done.
      rewrite bool_decide_eq_false_2; [done|]. intros [z Hz].
      apply fmap_Some in Hz as ([k x] & Hlast & _).
      apply last_Some_elem_of in Hlast.
      apply list_elem_of_filter in Hlast as [Hk Hin]. cbn in Hk. subst k.
      apply Hout. apply list_elem_of_fmap. by exists ("error", x).
Qed.

Section Setters_answer.
Context `{QtDateTime} `{QtSerialPort}.

Lemma finish_set_answer event answer p :
  in_process (finish_set event answer) p
  = let event' := if answer.1 then event
                  else SetValueEvent_set "error" (port_error answer.2) event in
    Some ((SetValueEvent_ok event', {| m_port := answer.2 |}),
          {| instance := instance p;
             state := log [qDebug_xml (SetValueEvent_to_QString event')]
                        (state p) |}).
Proof. by destruct answer as [[] port']. Qed.

Ltac setter :=
  intros; cbv zeta;
  unfold SerialPort_setBaudRate, SerialPort_setDataBits,
    SerialPort_setParity, SerialPort_setStopBits, SerialPort_setFlowControl;
  rewrite finish_set_answer; cbv zeta;
  match goal with
  | |- context [if fst ?a then _ else _] => destruct a as [[] port']
  end;
  cbn [fst snd]; rewrite SetValueEvent_to_QString_eq; reflexivity.

(** X16.  Each of the five setters returns what the port answered, keeps
    the state the port is left in, and logs one [set] element with the
    values attempted, followed by the error code exactly when the port
    refused; the manager is not touched. *)
Theorem setters_return_port_answer (this : SerialPort) (p : Process) :
  (∀ baudRate directions,
     let answer := port_setBaudRate baudRate directions (m_port this) in
     in_process (SerialPort_setBaudRate baudRate directions this) p
     = Some ((answer.1, {| m_port := answer.2 |}),
             {| instance := instance p;
                state :=
                  log [set_report [("baudRate", baudRate);
                                   ("directions", directions)]
                         answer.1 (port_error answer.2)] (state p) |}))
  ∧ (∀ dataBits,
       let answer := port_setDataBits dataBits (m_port this) in
       in_process (SerialPort_setDataBits dataBits this) p
       = Some ((answer.1, {| m_port := answer.2 |}),
               {| instance := instance p;
                  state :=
                    log [set_report [("setDataBits", dataBits)]
                           answer.1 (port_error answer.2)] (state p) |}))
  ∧ (∀ parity,
       let answer := port_setParity parity (m_port this) in
       in_process (SerialPort_setParity parity this) p
       = Some ((answer.1, {| m_port := answer.2 |}),
               {| instance := instance p;
                  state :=
                    log [set_report [("setParity", parity)]
                           answer.1 (port_error answer.2)] (state p) |}))
  ∧ (∀ stopBits,
       let answer := port_setStopBits stopBits (m_port this) in
       in_process (SerialPort_setStopBits stopBits this) p
       = Some ((answer.1, {| m_port := answer.2 |}),
               {| instance := instance p;
                  state :=
                    log [set_report [("setStopBits", stopBits)]
                           answer.1 (port_error answer.2)] (state p) |}))
  ∧ (∀ flowControl,
       let answer := port_setFlowControl flowControl (m_port this) in
       in_process (SerialPort_setFlowControl flowControl this) p
       = Some ((answer.1, {| m_port := answer.2 |}),
               {| instance := instance p;
                  state :=
                    log [set_report [("setFlowControl", flowControl)]
                           answer.1 (port_error answer.2)] (state p) |})).
Proof. split_and!; setter. Qed.

End Setters_answer.

(** ** Descriptors as text *)

Lemma to_data_node info :
  SerialPortInfo_to_data info = document (tokens (serial_node info)).
Proof.
  unfold SerialPortInfo_to_data. rewrite shl_SerialPortInfo_run.
  unfold followed_by, written. cbn [finished inStartElement start_tag].
  rewrite app_nil_r. reflexivity.
Qed.

Lemma of_data_element prolog name attributes children rest s :
  SerialPortInfo_of_data
    (document (map misc_token prolog
               ++ tokens (Element name attributes children) ++ rest)) s
  = Some (serial_info (Element name attributes children),
          log (serial_warnings (Element name attributes children)) s).
Proof.
  unfold SerialPortInfo_of_data, document.
  rewrite next_start_valid by done.
  cbn [QXmlStreamReader_new input readNextStartElement_from].
  rewrite <- !app_assoc, next_start_misc, next_start_element. cbn [snd].
  unfold mbind, M_bind. rewrite shr_SerialPortInfo_run.
  unfold serial_info, named. cbn [node_name node_attributes].
  by case_bool_decide.
Qed.

Lemma of_data_no_element prolog s :
  SerialPortInfo_of_data (document (map misc_token prolog)) s
  = Some (SerialPortInfo_new, log [qWarning ["no <serial> tag"]] s).
Proof.
  unfold SerialPortInfo_of_data, document.
  rewrite next_start_valid by done.
  cbn [QXmlStreamReader_new input readNextStartElement_from].
  rewrite next_start_misc. reflexivity.
Qed.

(** X13.  A descriptor built from a text whose first element is not
    [serial], or that has no element at all, is the null descriptor, and
    one warning is logged; the attributes of the element are not read. *)
Theorem descriptor_without_serial_tag prolog name attributes children rest s :
  name ≠ "serial" →
  SerialPortInfo_of_data
    (document (map misc_token prolog
               ++ tokens (Element name attributes children) ++ rest)) s
  = Some (SerialPortInfo_new, log [qWarning ["no <serial> tag"]] s)
  ∧ SerialPortInfo_of_data (document (map misc_token prolog)) s
    = Some (SerialPortInfo_new, log [qWarning ["no <serial> tag"]] s).
Proof.
  intros Hname. split; [|apply of_data_no_element].
  rewrite of_data_element. unfold serial_info, serial_warnings, named.
  cbn [node_name]. by rewrite bool_decide_eq_false_2.
Qed.

Lemma descriptor_without_serial_tag_witness :
  "port" ≠ "serial"
  ∧ SerialPortInfo_of_data
      (document [Comment " one port "; StartElement "port" [("portName", "COM3")];
                 EndElement "port"]) start_state
    = Some (SerialPortInfo_new,
            log [qWarning ["no <serial> tag"]] start_state).
Proof.
  assert (H1 : "port" ≠ "serial") by discriminate.
  split; [exact H1|].
  exact (proj1 (descriptor_without_serial_tag [Remark " one port "] "port"
                  [("portName", "COM3")] [] [] start_state H1)).
Defined.

(** X11.  A canonical descriptor converted to text ([operator QString])
    and built again from that text is the same descriptor, and nothing is
    logged. *)
Theorem descriptor_text_round_trip info s :
  canonical info = true →
  SerialPortInfo_of_data (SerialPortInfo_to_data info) s = Some (info, s).
Proof.
  intros Hc. rewrite to_data_node. unfold serial_node.
  pose proof (of_data_element [] "serial" (serial_attributes info) [] [] s)
    as Hr.
  cbn [map app] in Hr. rewrite app_nil_r in Hr. rewrite Hr.
  rewrite serial_info_canonical, serial_warnings_canonical by done.
  by rewrite log_nil.
Qed.

Lemma descriptor_text_round_trip_witness :
  canonical (SerialPortInfo_of one_port) = true
  ∧ SerialPortInfo_of_data (SerialPortInfo_to_data (SerialPortInfo_of one_port))
      start_state
    = Some (SerialPortInfo_of one_port, start_state).
Proof.
  assert (H1 : canonical (SerialPortInfo_of one_port) = true)
    by (vm_compute; reflexivity).
  split; [exact H1|].
  exact (descriptor_text_round_trip (SerialPortInfo_of one_port) start_state H1).
Defined.

(** ** What is written for any descriptor *)

Lemma to_quint16_range v : (0 ≤ to_quint16 v < 65536)%Z.
Proof. unfold to_quint16. apply Z.mod_pos_bound. lia. Qed.

Lemma to_quint16_idem v : to_quint16 (to_quint16 v) = to_quint16 v.
Proof. unfold to_quint16. apply Z.mod_small, Z.mod_pos_bound. lia. Qed.

Lemma vendor_value info :
  attribute_value "vendorIdentifier" (hex (vendorIdentifier info))
  = Some (QVariant_int (vendorIdentifier info)).
Proof.
  unfold vendorIdentifier. rewrite <- to_quint16_idem at 1.
  apply identifier_value; [done|apply to_quint16_range].
Qed.

Lemma product_value info :
  attribute_value "productIdentifier" (hex (productIdentifier info))
  = Some (QVariant_int (productIdentifier info)).
Proof.
  unfold productIdentifier. rewrite <- to_quint16_idem at 1.
  apply identifier_value; [done|apply to_quint16_range].
Qed.

(** The bag read from the attributes written for a descriptor that is not
    null. *)
Lemma written_then_read info k :
  isNull info = false →
  m_info (fold_left store_attribute (serial_attributes info) SerialPortInfo_new)
    !! k
  = if bool_decide (k ∈ text_keys)
    then Some (QVariant_QString (QVariant_toString (m_info info !! k)))
    else if bool_decide (k = "vendorIdentifier")
    then if hasVendorIdentifier info
         then Some (QVariant_int (vendorIdentifier info)) else None
    else if bool_decide (k = "productIdentifier")
    then if hasProductIdentifier info
         then Some (QVariant_int (productIdentifier info)) else None
    else None.
Proof.
  intros Hn. case_bool_decide as Htext.
  - rewrite (fold_store_lookup _ _ k (QVariant_toString (m_info info !! k)));
      [|apply serial_attributes_NoDup|by apply text_attribute_in].
    unfold attribute_value, text_keys in *.
    repeat (apply elem_of_cons in Htext as [->|Htext]; [done|]).
    by apply elem_of_nil in Htext.
  - case_bool_decide as Hv; [subst k|case_bool_decide as Hp; [subst k|]].
    + unfold hasVendorIdentifier. case_bool_decide as Hhas.
      * rewrite (fold_store_lookup _ _ _ (hex (vendorIdentifier info)));
          [|apply serial_attributes_NoDup|by apply vendor_attribute_in].
        by rewrite vendor_value.
      * rewrite fold_store_absent; [done|].
        rewrite serial_attributes_names by done.
        unfold hasVendorIdentifier. rewrite bool_decide_eq_false_2 by done.
        unfold text_keys. destruct (hasProductIdentifier info);
          cbn [app]; intros Hin;
          repeat (apply elem_of_cons in Hin as [?|Hin]; [done|]);
          by apply elem_of_nil in Hin.
    + unfold hasProductIdentifier. case_bool_decide as Hhas.
      * rewrite (fold_store_lookup _ _ _ (hex (productIdentifier info)));
          [|apply serial_attributes_NoDup|by apply product_attribute_in].
        by rewrite product_value.
      * rewrite fold_store_absent; [done|].
        rewrite serial_attributes_names by done.
        unfold hasProductIdentifier. rewrite bool_decide_eq_false_2 by done.
        unfold text_keys. destruct (hasVendorIdentifier info);
          cbn [app]; intros Hin;
          repeat (apply elem_of_cons in Hin as [?|Hin]; [done|]);
          by apply elem_of_nil in Hin.
    + rewrite fold_store_absent; [done|].
      rewrite serial_attributes_names by done. unfold text_keys in *.
      destruct (hasVendorIdentifier info), (hasProductIdentifier info);
        cbn [app]; intros Hin;
        repeat (apply elem_of_cons in Hin as [?|Hin];
                [subst; first [done|by apply Htext; set_solver]|]);
        by apply elem_of_nil in Hin.
Qed.

Lemma identifier_warning k v :
  attribute_warning (k, hex (to_quint16 v)) = [].
Proof.
  unfold attribute_warning. cbn [fst snd].
  destruct (is_identifier k); [|done].
  pose proof (to_quint16_range v).
  by rewrite toUInt_hex by lia.
Qed.

Lemma serial_attributes_warnings info :
  flat_map attribute_warning (serial_attributes info) = [].
Proof.
  unfold serial_attributes, vendorIdentifier, productIdentifier.
  destruct (isNull info); [done|].
  destruct (hasVendorIdentifier info), (hasProductIdentifier info);
    cbn [app flat_map]; rewrite ?identifier_warning; reflexivity.
Qed.

Lemma read_written_not_null info :
  isNull info = false →
  isNull (fold_left store_attribute (serial_attributes info) SerialPortInfo_new)
  = false.
Proof.
  intros Hn. unfold isNull at 1. apply bool_decide_eq_false_2. intros He.
  pose proof (written_then_read info "portName" Hn) as Hk.
  rewrite He, lookup_empty in Hk. done.
Qed.

Lemma read_written_canonical info :
  isNull info = false →
  canonical
    (fold_left store_attribute (serial_attributes info) SerialPortInfo_new)
  = true.
Proof.
  intros Hn. apply canonical_intro.
  - intros k Hk. rewrite written_then_read by done.
    rewrite bool_decide_eq_true_2 by done. eauto.
  - intros k Hk. rewrite written_then_read by done.
    unfold identifier_keys in Hk.
    apply elem_of_cons in Hk as [->|Hk];
      [|apply elem_of_cons in Hk as [->|Hk]; [|by apply elem_of_nil in Hk]].
    + rewrite bool_decide_eq_false_2
        by (apply (bool_decide_unpack _); by vm_compute).
      rewrite bool_decide_eq_true_2 by done.
      destruct (hasVendorIdentifier info); [right|by left].
      eexists. split; [|done]. apply to_quint16_range.
    + rewrite bool_decide_eq_false_2
        by (apply (bool_decide_unpack _); by vm_compute).
      rewrite bool_decide_eq_false_2 by done.
      rewrite bool_decide_eq_true_2 by done.
      destruct (hasProductIdentifier info); [right|by left].
      eexists. split; [|done]. apply to_quint16_range.
  - intros k x. rewrite written_then_read by done.
    case_bool_decide as Htext; [intros _; apply elem_of_app; by left|].
    case_bool_decide as Hv; [subst; intros _; set_solver|].
    case_bool_decide as Hp; [subst; intros _; set_solver|done].
Qed.

Lemma read_written_attributes info :
  isNull info = false →
  serial_attributes
    (fold_left store_attribute (serial_attributes info) SerialPortInfo_new)
  = serial_attributes info.
Proof.
  intros Hn.
  set (r := fold_left store_attribute (serial_attributes info)
              SerialPortInfo_new).
  assert (Hr : ∀ k, m_info r !! k = _) by (intros k; by apply written_then_read).
  unfold serial_attributes.
  pose proof (read_written_not_null info Hn) as Hnr. fold r in Hnr.
  rewrite Hnr, Hn.
  unfold portName, systemLocation, description, manufacturer, serialNumber,
    hasVendorIdentifier, hasProductIdentifier, vendorIdentifier,
    productIdentifier in *.
  rewrite !Hr.
  rewrite !(bool_decide_eq_true_2 (_ ∈ text_keys))
    by (apply (bool_decide_unpack _); by vm_compute).
  rewrite !(bool_decide_eq_false_2 (_ ∈ text_keys))
    by (apply (bool_decide_unpack _); by vm_compute).
  rewrite !(bool_decide_eq_true_2 ("vendorIdentifier" = "vendorIdentifier"))
    by done.
  rewrite !(bool_decide_eq_true_2 ("productIdentifier" = "productIdentifier"))
    by done.
  rewrite !(bool_decide_eq_false_2 ("productIdentifier" = "vendorIdentifier"))
    by done.
  cbn [QVariant_toString].
  assert (∀ (b : bool) (v : Z),
            bool_decide (is_Some (if b then Some (QVariant_int v) else None))
            = b) as Hb.
  { intros [] v; [by apply bool_decide_eq_true_2
                 |apply bool_decide_eq_false_2; by intros [? ?]]. }
  rewrite !Hb.
  destruct (bool_decide (is_Some (m_info info !! "vendorIdentifier"))),
    (bool_decide (is_Some (m_info info !! "productIdentifier")));
    cbn [QVariant_toInt]; rewrite ?to_quint16_idem; reflexivity.
Qed.

(** X12.  Whatever a descriptor holds, the text written for it is read
    back without a warning as a canonical descriptor, null exactly when
    the original is, and writing that descriptor gives the same text
    again: one round trip brings every descriptor to a form that further
    round trips keep. *)
Theorem serialization_normalises info s :
  ∃ info',
    SerialPortInfo_of_data (SerialPortInfo_to_data info) s = Some (info', s)
    ∧ canonical info' = true
    ∧ isNull info' = isNull info
    ∧ SerialPortInfo_to_data info' = SerialPortInfo_to_data info.
Proof.
  rewrite to_data_node. unfold serial_node.
  pose proof (of_data_element [] "serial" (serial_attributes info) [] [] s)
    as Hr.
  cbn [map app] in Hr. rewrite app_nil_r in Hr. rewrite Hr. clear Hr.
  unfold serial_info, serial_warnings, named. cbn [node_name node_attributes].
  rewrite bool_decide_eq_true_2 by done.
  rewrite serial_attributes_warnings, log_nil.
  eexists. split; [reflexivity|].
  destruct (isNull info) eqn:Hn.
  - unfold serial_attributes at 1 2 3. rewrite Hn. cbn [fold_left].
    split_and!; [done|done|].
    rewrite !to_data_node. unfold serial_node, serial_attributes.
    by rewrite Hn.
  - split_and!.
    + by apply read_written_canonical.
    + by apply read_written_not_null.
    + rewrite !to_data_node. unfold serial_node.
      by rewrite read_written_attributes.
Qed.

(** ** The element written for a port of the system *)

Lemma set_info_not_null k v info : isNull (set_info k v info) = false.
Proof.
  unfold isNull, set_info. cbn [m_info]. apply bool_decide_eq_false_2.
  apply insert_non_empty.
Qed.

(** X14.  The element written for a port reported by the system has, in
    this order, the five texts Qt reports and then the vendor and the
    product identifier, each only if Qt reports one and in the form [hex]
    prints; for a null port it has no attribute. *)
Theorem live_port_written other :
  is_quint16 (qt_vendorIdentifier other) →
  is_quint16 (qt_productIdentifier other) →
  SerialPortInfo_to_data (SerialPortInfo_of other)
  = document
      [StartElement "serial"
         (if qt_isNull other then []
          else
            [("portName", qt_portName other);
             ("systemLocation", qt_systemLocation other);
             ("description", qt_description other);
             ("manufacturer", qt_manufacturer other);
             ("serialNumber", qt_serialNumber other)]
            ++ (if qt_hasVendorIdentifier other
                then [("vendorIdentifier", hex (qt_vendorIdentifier other))]
                else [])
            ++ (if qt_hasProductIdentifier other
                then [("productIdentifier", hex (qt_productIdentifier other))]
                else []));
       EndElement "serial"].
Proof.
  intros Hv Hp. rewrite to_data_node. unfold serial_node.
  cbn [tokens flat_map app]. do 3 f_equal.
  unfold SerialPortInfo_of.
  destruct (qt_isNull other); [done|].
  unfold serial_attributes.
  assert (Hq : ∀ v, is_quint16 v → to_quint16 v = v).
  { intros v Hr. unfold to_quint16. by apply Z.mod_small. }
  destruct (qt_hasVendorIdentifier other), (qt_hasProductIdentifier other);
    rewrite set_info_not_null;
    unfold portName, systemLocation, description, manufacturer, serialNumber,
      hasVendorIdentifier, hasProductIdentifier, vendorIdentifier,
      productIdentifier, set_info, SerialPortInfo_new; cbn [m_info];
    repeat (first [rewrite lookup_insert_eq
                  |rewrite lookup_insert_ne by done
                  |rewrite lookup_empty]);
    cbn [QVariant_toString QVariant_toInt];
    rewrite ?(bool_decide_eq_true_2 (is_Some (Some _))) by done;
    rewrite ?(bool_decide_eq_false_2 (is_Some None)) by (by intros [? ?]);
    rewrite ?Hq by done; reflexivity.
Qed.

Lemma live_port_written_witness :
  is_quint16 (qt_vendorIdentifier one_port)
  ∧ is_quint16 (qt_productIdentifier one_port)
  ∧ SerialPortInfo_to_data (SerialPortInfo_of one_port)
    = document
        [StartElement "serial"
           [("portName", "COM3"); ("systemLocation", "\\.\COM3");
            ("description", "USB Serial Port"); ("manufacturer", "FTDI");
            ("serialNumber", "A1"); ("vendorIdentifier", "0x403");
            ("productIdentifier", "0x6001")];
         EndElement "serial"].
Proof.
  assert (H1 : is_quint16 (qt_vendorIdentifier one_port))
    by (unfold is_quint16; cbn; lia).
  assert (H2 : is_quint16 (qt_productIdentifier one_port))
    by (unfold is_quint16; cbn; lia).
  split; [exact H1|]. split; [exact H2|].
  exact (live_port_written one_port H1 H2).
Defined.

(** ** Witnesses of the properties above *)

Lemma register_then_create_witness :
  (∅ : gmap string (@FactoryMethod text_time)) !! "openPort" = None
  ∧ ∃ registry,
      @XmlReplayEvent_registerClass text_time "openPort" None ∅ start_state
      = Some ((true, registry), start_state)
      ∧ @XmlReplayEvent_createInstance text_time "openPort" registry start_state
        = Some (None,
                log [qWarning ["No event class registered for XML tag";
                               "openPort"]] start_state).
Proof.
  assert (H1 : (∅ : gmap string (@FactoryMethod text_time)) !! "openPort"
               = None) by reflexivity.
  split; [exact H1|].
  destruct (@register_then_create text_time "openPort" None ∅ start_state H1)
    as (registry & Hr & Hc & _).
  exists registry. split; assumption.
Defined.

Lemma foreign_document_replays_nothing_witness :
  "html" ≠ "xmlreplay"
  ∧ ∃ this1 this2 s2,
      @DeviceConnectionManager_replay_string text_time registered_classes
        foreign_document DeviceConnectionManager_new start_state
      = Some (this1, start_state)
      ∧ m_replay this1 = Some {| m_events := ∅; m_indices := ∅ |}
      ∧ getAvailablePorts_calls [[one_port]; [one_port]] this1 start_state
        = Some ((replicate 2 (m_serialPorts this1), this2), s2).
Proof.
  assert (H1 : "html" ≠ "xmlreplay") by discriminate.
  split; [exact H1|].
  exact (@foreign_document_replays_nothing text_time [] [] "html" []
           [Element TAG [] []] [[one_port]; [one_port]]
           DeviceConnectionManager_new start_state H1 foreign_document
           (or_introl eq_refl)).
Defined.



Lemma recording_holds_returned_lists_witness :
  m_record recording_manager = Some XmlRecord_new
  ∧ ∃ results this' s',
      getAvailablePorts_calls [[one_port]; []] recording_manager start_state
      = Some ((results, this'), s')
      ∧ length results = 2
      ∧ diagnostics s' = diagnostics start_state
      ∧ document <$> (DeviceConnectionManager_record_file false this').1
        = Some (@recorded_document text_time (events_at 0 results)).
Proof.
  assert (H1 : m_record recording_manager = Some XmlRecord_new)
    by reflexivity.
  split; [exact H1|].
  exact (@recording_holds_returned_lists text_time [[one_port]; []]
           recording_manager start_state H1).
Defined.

Lemma recording_replays_witness :
  Forall (Forall (λ q, is_quint16 (qt_vendorIdentifier q)
                       ∧ is_quint16 (qt_productIdentifier q)))
    [[one_port; one_port]; []; [one_port]]
  ∧ ∃ recorded s1 trace,
      getAvailablePorts_calls [[one_port; one_port]; []; [one_port]]
        recording_manager start_state
      = Some ((map (map SerialPortInfo_of)
                 [[one_port; one_port]; []; [one_port]], recorded), s1)
      ∧ (DeviceConnectionManager_record_file false recorded).1 = Some trace.
Proof.
  assert (H0 : is_quint16 (qt_vendorIdentifier one_port)
               ∧ is_quint16 (qt_productIdentifier one_port))
    by (unfold is_quint16; simpl; lia).
  assert (H1 : Forall (Forall (λ q, is_quint16 (qt_vendorIdentifier q)
                                    ∧ is_quint16 (qt_productIdentifier q)))
                 [[one_port; one_port]; []; [one_port]]).
  { repeat first [apply @Stdlib.Lists.List.Forall_nil
                 |apply @Stdlib.Lists.List.Forall_cons]; exact H0. }
  split; [exact H1|].
  destruct (@recording_replays text_time
              [[one_port; one_port]; []; [one_port]] [[]; []; []; []]
              start_state H1)
    as (recorded & s1 & trace & Ha & Hb & _).
  exists recorded, s1, trace. split; [exact Ha|exact Hb].
Defined.

Lemma unclosed_recording_replays_witness :
  Forall (Forall (λ q, is_quint16 (qt_vendorIdentifier q)
                       ∧ is_quint16 (qt_productIdentifier q)))
    [[one_port]; [one_port; one_port]]
  ∧ ∃ recorded s1 record,
      getAvailablePorts_calls [[one_port]; [one_port; one_port]]
        recording_manager start_state
      = Some ((map (map SerialPortInfo_of) [[one_port]; [one_port; one_port]],
               recorded), s1)
      ∧ m_record recorded = Some record.
Proof.
  assert (H0 : is_quint16 (qt_vendorIdentifier one_port)
               ∧ is_quint16 (qt_productIdentifier one_port))
    by (unfold is_quint16; simpl; lia).
  assert (H1 : Forall (Forall (λ q, is_quint16 (qt_vendorIdentifier q)
                                    ∧ is_quint16 (qt_productIdentifier q)))
                 [[one_port]; [one_port; one_port]]).
  { repeat first [apply @Stdlib.Lists.List.Forall_nil
                 |apply @Stdlib.Lists.List.Forall_cons]; exact H0. }
  split; [exact H1|].
  destruct (@unclosed_recording_replays text_time
              [[one_port]; [one_port; one_port]] [[]; []; []] start_state H1)
    as (recorded & s1 & record & Ha & Hb & _).
  exists recorded, s1, record. split; [exact Ha|exact Hb].
Defined.

Lemma attribute_order_irrelevant_witness :
  NoDup [("portName", "ttyACM0"); ("vendorIdentifier", "0x2341")].*1
  ∧ [("portName", "ttyACM0"); ("vendorIdentifier", "0x2341")]
    ≡ₚ [("vendorIdentifier", "0x2341"); ("portName", "ttyACM0")]
  ∧ ∃ xml xml' info' s1 s2,
      operator_shr_SerialPortInfo
        {| token := StartElement "serial"
                      [("portName", "ttyACM0"); ("vendorIdentifier", "0x2341")];
           input := [EndElement "serial"] |} SerialPortInfo_new start_state
      = Some ((xml, info'), s1)
      ∧ operator_shr_SerialPortInfo
          {| token := StartElement "serial"
                        [("vendorIdentifier", "0x2341");
                         ("portName", "ttyACM0")];
             input := [EndElement "serial"] |} SerialPortInfo_new start_state
        = Some ((xml', info'), s2)
      ∧ diagnostics s1 ≡ₚ diagnostics s2.
Proof.
  assert (H1 : NoDup [("portName", "ttyACM0");
                      ("vendorIdentifier", "0x2341")].*1).
  { apply (bool_decide_unpack _). by vm_compute. }
  assert (H2 : [("portName", "ttyACM0"); ("vendorIdentifier", "0x2341")]
               ≡ₚ [("vendorIdentifier", "0x2341"); ("portName", "ttyACM0")])
    by apply perm_swap.
  split; [exact H1|]. split; [exact H2|].
  exact (attribute_order_irrelevant _ _ [EndElement "serial"]
           [EndElement "serial"] SerialPortInfo_new start_state H1 H2).
Defined.
